(** * RPG bear-sheep predation: the agents of [agents.py] and the model of
    [model.py], embedded as state-passing functions.

    Python objects are shared and mutable: every [Bear] lives in a heap
    indexed by allocation order, and the code passes references around.  A
    bear that was removed from the schedule is still an object: it keeps its
    heap cell, and whoever holds a reference can still call its methods.

    Numbers.  Python [int]s are [Z].  Energy and experience become Python
    floats as soon as [/] is applied; they are modelled by exact rationals
    [Q], so rounding of the binary floating point format is not modelled.
    [np.exp] is a field of the parameters, a function from the integers to
    the rationals about which nothing is assumed unless a lemma says so.

    Randomness.  The three random sources of the code ([random], [np.random]
    and the model's [random_generator]) are one oracle: two infinite streams
    (rationals for the real-valued draws, naturals for the integer-valued
    ones) with a cursor each.  Every theorem holds for all streams. *)

From Stdlib Require Import ZArith QArith Qround Bool Lia.
From stdpp Require Import base list.

Open Scope Z_scope.

(** ** Data model *)

Inductive Behavior := coward | aggressive.
Inductive Season := normal | mating.

Definition Behavior_eqb (a b : Behavior) : bool :=
  match a, b with
  | coward, coward | aggressive, aggressive => true
  | _, _ => false
  end.

Definition Season_eqb (a b : Season) : bool :=
  match a, b with
  | normal, normal | mating, mating => true
  | _, _ => false
  end.

(** A reference to a [Bear] object: its index in the heap. *)
Abbreviation ref := nat.

(** The attributes of a [Bear].  [cubs] and [parental_care_countdown] are
    assigned for the first time in [give_birth]; the code reads them only
    when [does_care_after_cubs] holds, which [bond_with_cub] sets after both
    were assigned, so the values they have here before that are never read. *)
Record Bear := mkBear {
  unique_id : Z;
  energy : Q;
  behavior : Behavior;
  is_under_parental_care : bool;
  does_care_after_cubs : bool;
  mother : option ref;
  level : Z;
  accumulated_xp : Q;
  lower_cub_limit : Z;
  upper_cub_limit : Z;
  lower_parental_care_limit : Z;
  upper_parental_care_limit : Z;
  is_female : bool;
  cubs : list ref;
  parental_care_countdown : Z
}.

Definition set_energy (v : Q) (b : Bear) : Bear :=
  mkBear (unique_id b) v (behavior b) (is_under_parental_care b)
    (does_care_after_cubs b) (mother b) (level b) (accumulated_xp b)
    (lower_cub_limit b) (upper_cub_limit b) (lower_parental_care_limit b)
    (upper_parental_care_limit b) (is_female b) (cubs b)
    (parental_care_countdown b).

Definition set_is_under_parental_care (v : bool) (b : Bear) : Bear :=
  mkBear (unique_id b) (energy b) (behavior b) v
    (does_care_after_cubs b) (mother b) (level b) (accumulated_xp b)
    (lower_cub_limit b) (upper_cub_limit b) (lower_parental_care_limit b)
    (upper_parental_care_limit b) (is_female b) (cubs b)
    (parental_care_countdown b).

Definition set_does_care_after_cubs (v : bool) (b : Bear) : Bear :=
  mkBear (unique_id b) (energy b) (behavior b) (is_under_parental_care b)
    v (mother b) (level b) (accumulated_xp b)
    (lower_cub_limit b) (upper_cub_limit b) (lower_parental_care_limit b)
    (upper_parental_care_limit b) (is_female b) (cubs b)
    (parental_care_countdown b).

Definition set_level (v : Z) (b : Bear) : Bear :=
  mkBear (unique_id b) (energy b) (behavior b) (is_under_parental_care b)
    (does_care_after_cubs b) (mother b) v (accumulated_xp b)
    (lower_cub_limit b) (upper_cub_limit b) (lower_parental_care_limit b)
    (upper_parental_care_limit b) (is_female b) (cubs b)
    (parental_care_countdown b).

Definition set_accumulated_xp (v : Q) (b : Bear) : Bear :=
  mkBear (unique_id b) (energy b) (behavior b) (is_under_parental_care b)
    (does_care_after_cubs b) (mother b) (level b) v
    (lower_cub_limit b) (upper_cub_limit b) (lower_parental_care_limit b)
    (upper_parental_care_limit b) (is_female b) (cubs b)
    (parental_care_countdown b).

Definition set_cubs (v : list ref) (b : Bear) : Bear :=
  mkBear (unique_id b) (energy b) (behavior b) (is_under_parental_care b)
    (does_care_after_cubs b) (mother b) (level b) (accumulated_xp b)
    (lower_cub_limit b) (upper_cub_limit b) (lower_parental_care_limit b)
    (upper_parental_care_limit b) (is_female b) v
    (parental_care_countdown b).

Definition set_parental_care_countdown (v : Z) (b : Bear) : Bear :=
  mkBear (unique_id b) (energy b) (behavior b) (is_under_parental_care b)
    (does_care_after_cubs b) (mother b) (level b) (accumulated_xp b)
    (lower_cub_limit b) (upper_cub_limit b) (lower_parental_care_limit b)
    (upper_parental_care_limit b) (is_female b) (cubs b) v.

(** The constants [BearSheepPredation.__init__] stores on the model, and
    [np_exp], the exponential the level staircase is compared with. *)
Record Params := mkParams {
  sheep_reproduce : Q;
  bear_reproduce : Q;
  sheep_limit : Z;
  bear_gain_from_food : Z;
  hunt_success_chance : Q;
  xp_for_sheep : Q;
  xp_for_bear : Q;
  encounter_rate : Q;
  np_exp : Z -> Q
}.

(** The oracle behind every random draw. *)
Record Rng := mkRng {
  rand_real : nat -> Q;
  real_pos : nat;
  rand_int : nat -> nat;
  int_pos : nat
}.

(** Calls that leave no mark on the agents are recorded in a log, so that
    theorems can speak about them: the scale every exponential draw was asked
    with, every [attack] and every [die] of a bear. *)
Inductive Event :=
| EvExponential (scale : Z)
| EvAttack (attacker victim : ref)
| EvDie (who : ref).

Record Model := mkModel {
  params : Params;
  season : Season;
  model_unique_id : Z;
  heap : list Bear;
  schedule_bears : list ref;
  schedule_sheep : list Z;
  rng : Rng;
  trace : list Event
}.

Definition set_season (v : Season) (m : Model) : Model :=
  mkModel (params m) v (model_unique_id m) (heap m) (schedule_bears m)
    (schedule_sheep m) (rng m) (trace m).

Definition set_model_unique_id (v : Z) (m : Model) : Model :=
  mkModel (params m) (season m) v (heap m) (schedule_bears m)
    (schedule_sheep m) (rng m) (trace m).

Definition set_heap (v : list Bear) (m : Model) : Model :=
  mkModel (params m) (season m) (model_unique_id m) v (schedule_bears m)
    (schedule_sheep m) (rng m) (trace m).

Definition set_schedule_bears (v : list ref) (m : Model) : Model :=
  mkModel (params m) (season m) (model_unique_id m) (heap m) v
    (schedule_sheep m) (rng m) (trace m).

Definition set_schedule_sheep (v : list Z) (m : Model) : Model :=
  mkModel (params m) (season m) (model_unique_id m) (heap m)
    (schedule_bears m) v (rng m) (trace m).

Definition set_rng (v : Rng) (m : Model) : Model :=
  mkModel (params m) (season m) (model_unique_id m) (heap m)
    (schedule_bears m) (schedule_sheep m) v (trace m).

Definition set_trace (v : list Event) (m : Model) : Model :=
  mkModel (params m) (season m) (model_unique_id m) (heap m)
    (schedule_bears m) (schedule_sheep m) (rng m) v.

(** ** The monad: state and exceptions

    A Python exception leaves every mutation made before it in place, so a
    computation returns the state in both cases. *)

Inductive Error :=
| AssertionError
| ValueError
| IndexError
| SchedulerError
| DanglingReference.

Inductive Res (A : Type) :=
| Ok (a : A)
| Raise (e : Error).
Arguments Ok {A} a.
Arguments Raise {A} e.

Definition M (A : Type) : Type := Model -> Res A * Model.

Definition ret {A} (a : A) : M A := fun m => (Ok a, m).

Definition raise {A} (e : Error) : M A := fun m => (Raise e, m).

Definition bind {A B} (c : M A) (k : A -> M B) : M B :=
  fun m =>
    match c m with
    | (Ok a, m') => k a m'
    | (Raise e, m') => (Raise e, m')
    end.

Notation "'let*' x ':=' c 'in' k" := (bind c (fun x => k))
  (at level 10, x name, c at level 100, k at level 200).
Notation "'do' c 'then' k" := (bind c (fun _ => k))
  (at level 10, c at level 100, k at level 200).

Definition get_model : M Model := fun m => (Ok m, m).

Definition assert (c : bool) : M unit :=
  if c then ret tt else raise AssertionError.

Definition log (e : Event) : M unit :=
  fun m => (Ok tt, set_trace (trace m ++ [e]) m).

(** [for x in xs: body x]. *)
Fixpoint for_each {A} (xs : list A) (body : A -> M unit) : M unit :=
  match xs with
  | [] => ret tt
  | x :: rest => do body x then for_each rest body
  end.

(** ** The heap *)

Definition get_bear (r : ref) : M Bear :=
  fun m =>
    match heap m !! r with
    | Some b => (Ok b, m)
    | None => (Raise DanglingReference, m)
    end.

Definition modify_bear (r : ref) (f : Bear -> Bear) : M unit :=
  fun m =>
    match heap m !! r with
    | Some _ => (Ok tt, set_heap (alter f r (heap m)) m)
    | None => (Raise DanglingReference, m)
    end.

Definition alloc_bear (b : Bear) : M ref :=
  fun m => (Ok (length (heap m)), set_heap (heap m ++ [b]) m).

(** ** The random sources *)

Definition Qltb (x y : Q) : bool := negb (Qle_bool y x).

Definition next_real : M Q :=
  fun m =>
    let g := rng m in
    (Ok (rand_real g (real_pos g)),
     set_rng (mkRng (rand_real g) (S (real_pos g)) (rand_int g) (int_pos g)) m).

Definition next_int : M nat :=
  fun m =>
    let g := rng m in
    (Ok (rand_int g (int_pos g)),
     set_rng (mkRng (rand_real g) (real_pos g) (rand_int g) (S (int_pos g))) m).

(** [random.random()]. *)
Definition random_random : M Q := next_real.

(** [random.choice(xs)]: raises [IndexError] on the empty list. *)
Definition random_choice {A} (xs : list A) : M A :=
  let* n := next_int in
  match xs !! (n mod length xs)%nat with
  | Some x => ret x
  | None => raise IndexError
  end.

(** [random.randrange(n)]: raises [ValueError] unless [0 < n]. *)
Definition random_randrange (n : Z) : M Z :=
  if 0 <? n then let* k := next_int in ret (Z.of_nat k mod n)
  else raise ValueError.

(** The largest rate [np.random.poisson] accepts where the C type [long]
    has 64 bits: the double [2^63 - 1 - 10 * sqrt (2^63 - 1)]. *)
Definition poisson_lam_max : Q := inject_Z 9223372006484770816.

(** [np.random.poisson(rate)]: raises [ValueError] when the rate is
    negative ("lam < 0") or above the bound ("lam value too large");
    otherwise some natural number, which is 0 when the rate is 0. *)
Definition np_random_poisson (rate : Q) : M nat :=
  if Qltb rate 0 || Qltb poisson_lam_max rate then raise ValueError
  else let* k := next_int in ret (if Qeq_bool rate 0 then 0%nat else k).

(** [random_generator.exponential(scale)]: raises [ValueError] when the
    scale is negative; otherwise a sample, which is 0 when the scale
    is 0. *)
Definition rg_exponential (scale : Z) : M Q :=
  do log (EvExponential scale) then
  if scale <? 0 then raise ValueError
  else let* x := next_real in ret (if scale =? 0 then 0%Q else x).

(** [random_generator.integers(low, high)]: an integer of the half-open
    interval [[low, high)]; raises [ValueError] when the interval is empty. *)
Definition rg_integers (low high : Z) : M Z :=
  if low <? high then let* k := next_int in ret (low + Z.of_nat k mod (high - low))
  else raise ValueError.

(** ** The scheduler *)

(** Modelled from the spec: [schedule.py] ([RandomActivationByBreed]) is not
    among the sources.  The spec's scheduler keeps the live agents grouped by
    breed; [add] registers an agent, [remove] deregisters it and removing an
    agent that is not registered is a fatal caller error,
    [get_agents_by_breed] returns the live members of a breed at call
    time. *)
Definition schedule_add_bear (r : ref) : M unit :=
  fun m => (Ok tt, set_schedule_bears (schedule_bears m ++ [r]) m).

Definition schedule_remove_bear (r : ref) : M unit :=
  fun m =>
    if existsb (Nat.eqb r) (schedule_bears m)
    then (Ok tt,
          set_schedule_bears
            (List.filter (fun x => negb (Nat.eqb r x)) (schedule_bears m)) m)
    else (Raise SchedulerError, m).

Definition get_agents_by_breed_Bear : M (list ref) :=
  fun m => (Ok (schedule_bears m), m).

Definition schedule_add_sheep (s : Z) : M unit :=
  fun m => (Ok tt, set_schedule_sheep (schedule_sheep m ++ [s]) m).

Definition schedule_remove_sheep (s : Z) : M unit :=
  fun m =>
    if existsb (Z.eqb s) (schedule_sheep m)
    then (Ok tt,
          set_schedule_sheep
            (List.filter (fun x => negb (Z.eqb s x)) (schedule_sheep m)) m)
    else (Raise SchedulerError, m).

Definition get_agents_by_breed_Sheep : M (list Z) :=
  fun m => (Ok (schedule_sheep m), m).

(** ** [model.py] *)

(** [BearSheepPredation.generate_id]. *)
Definition generate_id : M Z :=
  fun m =>
    let m' := set_model_unique_id (model_unique_id m + 1) m in
    (Ok (model_unique_id m'), m').

(** The table [self.initial_values] of [BearSheepPredation.__init__]:
    lower and upper cub limit, lower and upper parental care limit. *)
Definition initial_values (b : Behavior) : Z * Z * Z * Z :=
  match b with
  | coward => (1, 4, 8, 16)
  | aggressive => (1, 6, 1, 8)
  end.

(** ** [agents.py]: sheep

    A sheep has no state of its own: it is its [unique_id]. *)

Definition Sheep_step (self : Z) : M unit :=
  let* m := get_model in
  let* u := random_random in
  if Qltb u (sheep_reproduce (params m)) then
    let* sheep := get_agents_by_breed_Sheep in
    if Z.of_nat (length sheep) <? sheep_limit (params m) then
      let* lamb := generate_id in
      schedule_add_sheep lamb
    else ret tt
  else ret tt.

Definition Sheep_die (self : Z) : M unit := schedule_remove_sheep self.

(** ** [agents.py]: the helpers of the parental bond *)

Definition bond_with_cub (mother cub : ref) : M unit :=
  let* mb := get_bear mother in
  do assert (is_female mb) then
  do modify_bear mother (set_does_care_after_cubs true) then
  modify_bear cub (set_is_under_parental_care true).

Definition chase_cub_away (mother cub : ref) : M unit :=
  let* mb := get_bear mother in
  do assert (is_female mb) then
  do modify_bear mother (set_does_care_after_cubs false) then
  modify_bear cub (set_is_under_parental_care false).

(** The probability [attempt_to_mate] compares its draw with. *)
Definition chance_to_reproduce (p : Params) (male female : Bear) : Q :=
  let chance := (bear_reproduce p * inject_Z (level male))%Q in
  if negb (Behavior_eqb (behavior male) (behavior female))
  then (chance / 2)%Q else chance.

(** [assert(male.model == female.model)] always holds here: there is one
    model, the state. *)
Definition attempt_to_mate (male female : ref) : M bool :=
  let* mb := get_bear male in
  let* fb := get_bear female in
  let* current_model := get_model in
  if does_care_after_cubs fb then ret false
  else
    let* u := random_random in
    ret (Qltb u (chance_to_reproduce (params current_model) mb fb)).

(** ** [agents.py]: bears *)

(** The four limits [Bear.__init__] computes: the floored mean of the
    parents' limits when both parents are given, the defaults of the
    behavior (upper limits plus one) otherwise. *)
Definition init_limits (beh : Behavior) (parents : option (Bear * Bear))
  : Z * Z * Z * Z :=
  match parents with
  | Some (father, mother) =>
      ((lower_cub_limit father + lower_cub_limit mother) / 2,
       (upper_cub_limit father + upper_cub_limit mother) / 2,
       (lower_parental_care_limit father
        + lower_parental_care_limit mother) / 2,
       (upper_parental_care_limit father
        + upper_parental_care_limit mother) / 2)
  | None =>
      match initial_values beh with
      | (lc, uc, lp, up) => (lc, uc + 1, lp, up + 1)
      end
  end.

(** The object [Bear.__init__] builds; [u] is its draw for the sex. *)
Definition new_bear (uid : Z) (e : Q) (beh : Behavior) (mother_ref : option ref)
    (parents : option (Bear * Bear)) (u : Q) : Bear :=
  match init_limits beh parents with
  | (lc, uc, lp, up) =>
      mkBear uid e beh false false mother_ref 1 0 lc uc lp up
        (Qltb u (1 # 2)) [] 0
  end.

Definition Bear__init__ (uid : Z) (e : Q) (beh : Behavior)
    (father mother : option ref) : M ref :=
  let* parents :=
    match father, mother with
    | Some f, Some mo =>
        let* fb := get_bear f in
        let* mb := get_bear mo in
        ret (Some (fb, mb))
    | _, _ => ret None
    end in
  let* u := random_random in
  alloc_bear (new_bear uid e beh mother parents u).

(** [while self.accumulated_xp > np.exp(self.level + 1): self.level += 1],
    unrolled [fuel] times. *)
Fixpoint update_loop (fuel : nat) (self : ref) : M unit :=
  match fuel with
  | O => ret tt
  | S k =>
      let* b := get_bear self in
      let* m := get_model in
      if Qltb (np_exp (params m) (level b + 1)) (accumulated_xp b) then
        do modify_bear self (fun b => set_level (level b + 1) b) then
        update_loop k self
      else ret tt
  end.

(** Enough iterations for the loop to leave by its condition whenever
    [np_exp] dominates the identity, as the exponential does (see
    [update_reaches_the_staircase]). *)
Definition update_fuel (b : Bear) : nat :=
  Z.to_nat (Qceiling (accumulated_xp b) - level b).

Definition update (self : ref) : M unit :=
  let* b := get_bear self in
  update_loop (update_fuel b) self.

Definition Bear_die (self : ref) : M unit :=
  do log (EvDie self) then
  let* b := get_bear self in
  do (if does_care_after_cubs b
      then for_each (cubs b) (chase_cub_away self)
      else ret tt) then
  schedule_remove_bear self.

Definition this_bear_attack_strength (self_b other_b : Bear) : Z :=
  level self_b.

Definition other_bear_attack_strength (self_b other_b : Bear) : Z :=
  level self_b.

Definition attack (self other : ref) : M unit :=
  do log (EvAttack self other) then
  let* sb := get_bear self in
  let* ob := get_bear other in
  let* m := get_model in
  let* first_draw := rg_exponential (other_bear_attack_strength sb ob) in
  let* second_draw := rg_exponential (this_bear_attack_strength sb ob) in
  if Qltb first_draw second_draw then
    do modify_bear other
         (fun o => set_accumulated_xp
            (accumulated_xp o
             + (xp_for_bear (params m) + accumulated_xp sb / 2))%Q o) then
    do Bear_die self then
    update other
  else
    do modify_bear self
         (fun s => set_accumulated_xp
            (accumulated_xp s
             + (xp_for_bear (params m) + accumulated_xp ob / 2))%Q s) then
    do Bear_die other then
    update self.

(** The level [hunt] multiplies the base chance with. *)
Definition hunt_level (hunter : Bear) (assistant : option Bear) : Z :=
  match assistant with
  | Some a => level hunter + level a / 2
  | None => level hunter
  end.

Definition hunt (self : ref) (sheep : Z) (assistant : option ref) : M unit :=
  let* sb := get_bear self in
  let* ab :=
    match assistant with
    | Some a => let* x := get_bear a in ret (Some x)
    | None => ret None
    end in
  let* m := get_model in
  let chance_to_hunt :=
    (hunt_success_chance (params m) * inject_Z (hunt_level sb ab))%Q in
  let* u := random_random in
  do (if Qltb u chance_to_hunt then
        do modify_bear self
             (fun s => set_accumulated_xp
                (accumulated_xp s + xp_for_sheep (params m))%Q s) then
        Sheep_die sheep
      else ret tt) then
  update self.

(** The list comprehension of [give_birth]: for every cub, a new id, the
    share of the energy, a behavior chosen among the parents', then
    [Bear.__init__]. *)
Fixpoint make_cubs (n : nat) (self father : ref) (cub_cnt : Z)
  : M (list ref) :=
  match n with
  | O => ret []
  | S k =>
      let* uid := generate_id in
      let* sb := get_bear self in
      let* fb := get_bear father in
      let* beh := random_choice [behavior fb; behavior sb] in
      let* cub :=
        Bear__init__ uid (energy sb / inject_Z cub_cnt)%Q beh
          (Some father) (Some self) in
      let* rest := make_cubs k self father cub_cnt in
      ret (cub :: rest)
  end.

Definition give_birth (self father : ref) : M unit :=
  let* sb := get_bear self in
  let* cub_cnt := rg_integers (lower_cub_limit sb) (upper_cub_limit sb) in
  do modify_bear self (fun b => set_energy (energy b / 2)%Q b) then
  let* new_cubs := make_cubs (Z.to_nat cub_cnt) self father cub_cnt in
  do modify_bear self (set_cubs new_cubs) then
  let* sb := get_bear self in
  let* countdown :=
    rg_integers (lower_parental_care_limit sb)
      (upper_parental_care_limit sb) in
  do modify_bear self (set_parental_care_countdown countdown) then
  for_each new_cubs
    (fun cub => do schedule_add_bear cub then bond_with_cub self cub).

(** [bear != self and bear.is_under_parental_care == False], on the live
    bears. *)
Definition filtered_bears (self : ref) (m : Model) : list ref :=
  List.filter
    (fun r =>
       negb (Nat.eqb r self)
       && match heap m !! r with
          | Some b => negb (is_under_parental_care b)
          | None => false
          end)
    (schedule_bears m).

(** One round of the loop of [generate_encounters]. *)
Definition encounter (self : ref) : M unit :=
  let* m := get_model in
  let candidates := filtered_bears self m in
  if (0 <? length candidates)%nat then
    let* other_bear := random_choice candidates in
    let* sb := get_bear self in
    let* ob := get_bear other_bear in
    if Season_eqb (season m) mating
       && negb (Bool.eqb (is_female ob) (is_female sb))
    then
      let* did_make_cubs :=
        (if is_female sb then attempt_to_mate other_bear self
         else attempt_to_mate self other_bear) in
      if did_make_cubs then
        if is_female sb then give_birth self other_bear
        else give_birth other_bear self
      else ret tt
    else if Behavior_eqb (behavior sb) aggressive then attack self other_bear
    else ret tt
  else ret tt.

Fixpoint encounter_loop (n : nat) (self : ref) : M unit :=
  match n with
  | O => ret tt
  | S k => do encounter self then encounter_loop k self
  end.

Definition generate_encounters (self : ref) : M unit :=
  let* sb := get_bear self in
  do assert (negb (is_under_parental_care sb)) then
  let* m := get_model in
  if Behavior_eqb (behavior sb) coward && negb (Season_eqb (season m) mating)
  then ret tt
  else
    let* encounter_cnt := np_random_poisson (encounter_rate (params m)) in
    encounter_loop encounter_cnt self.

(** Step 3 of [Bear.step]: the end of the parental care. *)
Definition care_for_cubs (self : ref) : M unit :=
  let* sb := get_bear self in
  if does_care_after_cubs sb && (parental_care_countdown sb <=? 0) then
    for_each (cubs sb) (chase_cub_away self)
  else if does_care_after_cubs sb then
    modify_bear self
      (fun b => set_parental_care_countdown (parental_care_countdown b - 1) b)
  else ret tt.

Definition Bear_step (self : ref) : M unit :=
  do modify_bear self (fun b => set_energy (energy b - 1)%Q b) then
  let* sheep := get_agents_by_breed_Sheep in
  do (if (0 <? length sheep)%nat then
        let* sheep_to_eat := random_choice sheep in
        let* sb := get_bear self in
        if is_under_parental_care sb then hunt self sheep_to_eat (mother sb)
        else hunt self sheep_to_eat None
      else ret tt) then
  do care_for_cubs self then
  let* sb := get_bear self in
  do (if negb (is_under_parental_care sb) then generate_encounters self
      else ret tt) then
  let* sb := get_bear self in
  if Qltb (energy sb) 0 then Bear_die self else ret tt.

(** ** [BearSheepPredation.__init__] *)

Fixpoint create_sheep (n : nat) (unique_id : Z) : M Z :=
  match n with
  | O => ret unique_id
  | S k =>
      do schedule_add_sheep unique_id then
      create_sheep k (unique_id + 1)
  end.

Fixpoint create_bears (n : nat) (beh : Behavior) (energy_range : Z)
    (unique_id : Z) : M Z :=
  match n with
  | O => ret unique_id
  | S k =>
      let* e := random_randrange energy_range in
      let* bear := Bear__init__ unique_id (inject_Z e) beh None None in
      do schedule_add_bear bear then
      create_bears k beh energy_range (unique_id + 1)
  end.

(** The constructor's arguments arrive in [args]; [sheep_limit] is set to
    2000 whatever they say. *)
Definition BearSheepPredation__init__ (args : Params)
    (initial_sheep initial_cowards initial_aggressive : nat) (g : Rng)
  : Res unit * Model :=
  let p :=
    mkParams (sheep_reproduce args) (bear_reproduce args) 2000
      (bear_gain_from_food args) (hunt_success_chance args)
      (xp_for_sheep args) (xp_for_bear args) (encounter_rate args)
      (np_exp args) in
  (let* u1 := create_sheep initial_sheep 1 in
   let* u2 :=
     create_bears initial_cowards coward (10 * bear_gain_from_food p) u1 in
   let* u3 :=
     create_bears initial_aggressive aggressive (2 * bear_gain_from_food p)
       u2 in
   fun m => (Ok tt, set_model_unique_id u3 m))
    (mkModel p normal 0 [] [] [] g []).

(** ** Concrete data for the examples *)

(** A stream that replays a list and then repeats a default value. *)
Definition replay {A} (d : A) (l : list A) : nat -> A := fun i => nth i l d.

(** The default arguments of [BearSheepPredation.__init__]; for [np.exp] a
    rational power close to it. *)
Definition default_params : Params :=
  mkParams (8 # 100) (5 # 100) 2000 40 (6 # 100) 100 500 1
    (fun n => (193 # 71) ^ n)%Q.

(** A free adult with the limits of an aggressive founder. *)
Definition adult (beh : Behavior) (e : Q) (female : bool) (lvl : Z) (xp : Q)
  : Bear :=
  mkBear 0 e beh false false None lvl xp 1 7 1 9 female [] 0.

(** The spec's words for the assisted hunt: the average of the two levels. *)
Definition spec_hunt_level (hunter : Bear) (assistant : option Bear) : Z :=
  match assistant with
  | Some a => (level hunter + level a) / 2
  | None => level hunter
  end.

(** A cub of level 2 whose mother, of level 2, is the bear at reference 1,
    one sheep, and a uniform draw of 0.15. *)
Definition hunting_party : Model :=
  mkModel default_params normal 10
    [mkBear 3 5 coward true false (Some 1%nat) 2 0 1 5 8 17 false [] 0;
     mkBear 2 5 coward false true None 2 0 1 5 8 17 true [0%nat] 3]
    [0%nat; 1%nat] [7] (mkRng (replay 0%Q [15 # 100]) 0 (replay 0%nat []) 0) [].

Definition exponential_scales (t : list Event) : list Z :=
  omap (fun e => match e with EvExponential s => Some s | _ => None end) t.

(** An aggressive bear of level 1 (reference 0) and a bear of level 3
    (reference 1). *)
Definition duel : Model :=
  mkModel default_params normal 10
    [adult aggressive 5 false 1 0; adult coward 5 false 3 30]
    [0%nat; 1%nat] []
    (mkRng (replay 0%Q [2 # 1; 1 # 1]) 0 (replay 0%nat []) 0) [].

Definition sheep_count (m : Model) : Z := Z.of_nat (length (schedule_sheep m)).

(** The heap after [for cub in cubs: chase_cub_away(mother, cub)]. *)
Definition release_all (mother : ref) (cubs : list ref) (h : list Bear)
  : list Bear :=
  fold_left
    (fun h cub =>
       alter (set_is_under_parental_care false) cub
         (alter (set_does_care_after_cubs false) mother h))
    cubs h.

(** A mother (reference 0) whose countdown has run out, and her cub
    (reference 1); no sheep. *)
Definition nursery : Model :=
  mkModel default_params normal 10
    [mkBear 2 5 coward false true None 1 0 1 5 8 17 true [1%nat] 0;
     mkBear 3 5 coward true false (Some 0%nat) 1 0 1 5 8 17 false [] 0]
    [0%nat; 1%nat] [] (mkRng (replay 0%Q []) 0 (replay 0%nat []) 0) [].

(** What [die] relies on when a bear cares for cubs: [bond_with_cub] has
    checked that she is female, and her cubs are objects of the heap. *)
Definition carer_ok (h : list Bear) (b : Bear) : Prop :=
  does_care_after_cubs b = true ->
  is_female b = true /\ Forall (fun c => (c < length h)%nat) (cubs b).

(** The heap after the first half of [Bear.die], for a bear whose attributes
    are [b]. *)
Definition die_heap (self : ref) (b : Bear) (h : list Bear) : list Bear :=
  if does_care_after_cubs b then release_all self (cubs b) h else h.

(** Two free adults in the schedule, the first aggressive; the first draw
    (2) is not below the second (1). *)
Definition arena : Model :=
  mkModel default_params normal 10
    [adult aggressive 5 false 1 10; adult coward 5 false 1 30]
    [0%nat; 1%nat] []
    (mkRng (replay 0%Q [2 # 1; 1 # 1]) 0 (replay 0%nat []) 0) [].

(** What the release loop over [cs] makes of the bear at reference [r]: it
    is no longer under care when it is one of [cs], and no longer caring
    when it is the mother and [cs] is not empty. *)
Definition released (r mother : ref) (cs : list ref) (b : Bear) : Bear :=
  set_is_under_parental_care
    (is_under_parental_care b && negb (bool_decide (r ∈ cs)))
    (set_does_care_after_cubs
       (does_care_after_cubs b
        && negb (bool_decide (r = mother ∧ cs ≠ []))) b).

(** An aggressive bear without energy (reference 0) and two cowards, in
    the normal season, no sheep.  The oracle makes the first bear meet two
    encounters: it picks the bear at reference 1 and loses (draws 1 < 2),
    then picks the bear at reference 2 and wins (draws 3 and 1). *)
Definition last_stand : Model :=
  mkModel default_params normal 10
    [adult aggressive 0 false 1 0; adult coward 5 false 1 0;
     adult coward 5 true 1 0]
    [0%nat; 1%nat; 2%nat] []
    (mkRng (replay 0%Q [1 # 1; 2 # 1; 3 # 1; 1 # 1]) 0
       (replay 0%nat [2; 0; 1]%nat) 0) [].

(** ** Invariants of the heap *)

(** An assignment to a bear's attributes that does not lower its level and
    leaves its four limits alone. *)
Definition gentle (f : Bear -> Bear) : Prop :=
  forall b,
    level b <= level (f b)
    /\ lower_cub_limit (f b) = lower_cub_limit b
    /\ upper_cub_limit (f b) = upper_cub_limit b
    /\ lower_parental_care_limit (f b) = lower_parental_care_limit b
    /\ upper_parental_care_limit (f b) = upper_parental_care_limit b.

(** A computation keeps a property of the heap when the property holds of
    the state it leaves, whether it returns or raises. *)
Definition keeps (Inv : list Bear -> Prop) {A} (c : M A) : Prop :=
  forall m, Inv (heap m) -> Inv (heap (snd (c m))).

(** Both intervals a bear draws from are not empty and start at 1 or
    above. *)
Definition limits_ok (b : Bear) : Prop :=
  1 <= lower_cub_limit b < upper_cub_limit b
  /\ 1 <= lower_parental_care_limit b < upper_parental_care_limit b.

(** Every bear of [h0] is still in [h], at a level that is not lower. *)
Definition level_le (h0 h : list Bear) : Prop :=
  forall r b0, h0 !! r = Some b0 ->
    exists b, h !! r = Some b /\ level b0 <= level b.

(** The operations on bears, for sequences of them. *)
Inductive Op :=
| OpUpdate (self : ref)
| OpHunt (self : ref) (sheep : Z) (assistant : option ref)
| OpAttack (self other : ref)
| OpGiveBirth (self father : ref)
| OpStep (self : ref).

Definition run_op (o : Op) : M unit :=
  match o with
  | OpUpdate self => update self
  | OpHunt self sheep assistant => hunt self sheep assistant
  | OpAttack self other => attack self other
  | OpGiveBirth self father => give_birth self father
  | OpStep self => Bear_step self
  end.

(** The states of a run: the state the constructor leaves, then any step of
    any agent in any season, in any order (the scheduler's order is one of
    them). *)
Inductive reachable : Model -> Prop :=
| reach_init args ns nc na g :
    reachable (snd (BearSheepPredation__init__ args ns nc na g))
| reach_season m s : reachable m -> reachable (set_season s m)
| reach_Sheep_step m s : reachable m -> reachable (snd (Sheep_step s m))
| reach_Bear_step m r : reachable m -> reachable (snd (Bear_step r m)).

(** An oracle that always answers 0. *)
Definition silent : Rng := mkRng (replay 0%Q []) 0 (replay 0%nat []) 0.

(** The heap after
    [for cub in cubs: schedule.add(cub); bond_with_cub(mother, cub)]. *)
Definition bond_all (mother : ref) (cubs : list ref) (h : list Bear)
  : list Bear :=
  fold_left
    (fun h cub =>
       alter (set_is_under_parental_care true) cub
         (alter (set_does_care_after_cubs true) mother h))
    cubs h.

(** What the bonding loop over [cs] makes of the bear at reference [r]. *)
Definition bonded (r mother : ref) (cs : list ref) (b : Bear) : Bear :=
  set_is_under_parental_care
    (is_under_parental_care b || bool_decide (r ∈ cs))
    (set_does_care_after_cubs
       (does_care_after_cubs b || bool_decide (r = mother ∧ cs ≠ [])) b).

(** A coward couple in the mating season: the female (reference 0) with
    energy 12 and the male. *)
Definition couple : Model :=
  mkModel default_params mating 10
    [mkBear 1 12 coward false false None 1 0 1 5 8 17 true [] 0;
     mkBear 2 7 coward false false None 1 0 1 5 8 17 false [] 0]
    [0%nat; 1%nat] [] (mkRng (replay 0%Q []) 0 (replay 0%nat [1]%nat) 0) [].

(** What [give_birth] makes of a newborn before the bonding, for a mother
    with attributes [sb] (energy already halved), a father with attributes
    [fb] and a litter of [cub_cnt]. *)
Definition newborn_of (self : ref) (sb fb : Bear) (cub_cnt : Z) (cb : Bear)
  : Prop :=
  energy cb = (energy sb / inject_Z cub_cnt)%Q
  /\ is_under_parental_care cb = false
  /\ does_care_after_cubs cb = false
  /\ mother cb = Some self
  /\ level cb = 1
  /\ accumulated_xp cb = 0%Q
  /\ (behavior cb = behavior fb \/ behavior cb = behavior sb)
  /\ lower_cub_limit cb = (lower_cub_limit fb + lower_cub_limit sb) / 2
  /\ upper_cub_limit cb = (upper_cub_limit fb + upper_cub_limit sb) / 2.

(** ** Further examples *)

(** Parameters whose staircase is made of the powers of two. *)
Definition binary_params : Params :=
  mkParams (8 # 100) (5 # 100) 2000 40 (6 # 100) 100 500 1
    (fun n => inject_Z (2 ^ n)).

(** One bear of level 1 with 100 points of experience. *)
Definition veteran : Model :=
  mkModel binary_params normal 10 [adult coward 5 false 1 100]
    [0%nat] [] silent [].

(** ** What a bear keeps *)

(** Every bear of [h0] is still in [h], with the same value of [proj]. *)
Definition kept {X} (proj : Bear -> X) (h0 h : list Bear) : Prop :=
  forall r b0, h0 !! r = Some b0 ->
    exists b, h !! r = Some b /\ proj b = proj b0.

(** The attributes [Bear.__init__] sets and nothing assigns afterwards. *)
Definition birthmarks (b : Bear)
  : Z * Behavior * bool * option ref * (Z * Z * Z * Z) :=
  (unique_id b, behavior b, is_female b, mother b,
   (lower_cub_limit b, upper_cub_limit b,
    lower_parental_care_limit b, upper_parental_care_limit b)).

(** The ranges the limits of the founders and of all their descendants
    stay in: the defaults of [initial_values] and their floored means. *)
Definition limits_tight (b : Bear) : Prop :=
  lower_cub_limit b = 1
  /\ 5 <= upper_cub_limit b <= 7
  /\ 1 <= lower_parental_care_limit b <= 8
  /\ 9 <= upper_parental_care_limit b <= 17.

(** A bear as the constructor of the model makes it: [Bear.__init__]
    without parents, with an integer energy below [energy_range]. *)
Definition founder (uid : Z) (beh : Behavior) (energy_range : Z) (b : Bear)
  : Prop :=
  exists e u, 0 <= e < energy_range
    /\ b = new_bear uid (inject_Z e) beh None None u.

(** A cub as [give_birth] makes it: [Bear.__init__] with both parents, the
    mother's share of energy and a behavior chosen among the parents'. *)
Definition cub_of (self : ref) (sb fb : Bear) (cub_cnt uid : Z) (cb : Bear)
  : Prop :=
  exists beh u, (beh = behavior fb \/ beh = behavior sb)
    /\ cb = new_bear uid (energy sb / inject_Z cub_cnt)%Q beh (Some self)
              (Some (fb, sb)) u.

(** ** The ids of the agents *)

(** The ids in use: those of the registered sheep and those of all the
    bears ever created. *)
Definition all_ids (m : Model) : list Z :=
  schedule_sheep m ++ (unique_id <$> heap m).

(** No id is used twice and none is above the model's counter, so that the
    next [generate_id] is new. *)
Definition ids_fresh (m : Model) : Prop :=
  NoDup (all_ids m) /\ Forall (fun i => i <= model_unique_id m) (all_ids m).

(** The state between [generate_id], which returned [u], and the creation
    of the agent that gets [u]. *)
Definition ids_below (u : Z) (m : Model) : Prop :=
  NoDup (all_ids m) /\ Forall (fun i => i < u) (all_ids m)
  /\ u <= model_unique_id m.

(** From a state with [P], the computation leaves a state with [Q], whether
    it returns or raises. *)
Definition leads (P Q : Model -> Prop) {A} (c : M A) : Prop :=
  forall m, P m -> Q (snd (c m)).

(** What happens between two observations of a run: the step of a sheep,
    the step of a bear, or [BearSheepPredation.step] assigning the
    season. *)
Inductive Tick :=
| TickSheep (self : Z)
| TickBear (self : ref)
| TickSeason (s : Season).

Definition run_tick (t : Tick) : M unit :=
  match t with
  | TickSheep self => Sheep_step self
  | TickBear self => Bear_step self
  | TickSeason s => fun m => (Ok tt, set_season s m)
  end.

(** The parameters are [p] and the flock has at most [bound] sheep. *)
Definition flock_within (p : Params) (bound : Z) (m : Model) : Prop :=
  params m = p /\ sheep_count m <= bound.

(** ** Well-formed states *)

(** What the code relies on when it uses a bear, for a heap of [n]
    objects: the limits bound intervals that are not empty, the level is
    1 or more, the mother and the cubs are objects of the heap, and only a
    female cares for cubs ([bond_with_cub] has asserted it). *)
Definition bear_wf (n : nat) (b : Bear) : Prop :=
  limits_ok b
  /\ 1 <= level b
  /\ (forall r, mother b = Some r -> (r < n)%nat)
  /\ Forall (fun c => (c < n)%nat) (cubs b)
  /\ (does_care_after_cubs b = true -> is_female b = true).

(** Every bear is well formed, every registered bear is an object of the
    heap, and the encounter rate is one that [np.random.poisson]
    accepts. *)
Definition wf (m : Model) : Prop :=
  Forall (bear_wf (length (heap m))) (heap m)
  /\ Forall (fun r => (r < length (heap m))%nat) (schedule_bears m)
  /\ (0 <= encounter_rate (params m) <= poisson_lam_max)%Q.

(** A well-formed state in which the references of [V] are objects of the
    heap and those of [F] are females. *)
Definition knows (V F : list ref) (m : Model) : Prop :=
  wf m
  /\ Forall (fun r => (r < length (heap m))%nat) V
  /\ Forall (fun r => (is_female <$> heap m !! r) = Some true) F.

(** From a state with [P], the computation returns a value and a state
    with [Q], or raises the error of the scheduler, and no other. *)
Definition safe {A} (P : Model -> Prop) (c : M A) (Q : A -> Model -> Prop)
  : Prop :=
  forall m, P m ->
    match c m with
    | (Ok a, m') => Q a m'
    | (Raise e, _) => e = SchedulerError
    end.

(** The states of a run that goes on from [m0]: the season changes, a
    sheep steps, or a registered bear steps and its step returns. *)
Inductive run_from (m0 : Model) : Model -> Prop :=
| run_start : run_from m0 m0
| run_season m s : run_from m0 m -> run_from m0 (set_season s m)
| run_sheep m s : run_from m0 m -> run_from m0 (snd (Sheep_step s m))
| run_bear m r :
    run_from m0 m -> r ∈ schedule_bears m ->
    fst (Bear_step r m) = Ok tt ->
    run_from m0 (snd (Bear_step r m)).

(** ** Examples for the revised combat and hunt properties *)



(** As [hunting_party], with the thresholds of [binary_params]: the cub
    hunts with its mother and the draw 0.15 is below 0.06 * 3. *)
Definition binary_hunting_party : Model :=
  mkModel binary_params normal 10
    [mkBear 3 5 coward true false (Some 1%nat) 2 0 1 5 8 17 false [] 0;
     mkBear 2 5 coward false true None 2 0 1 5 8 17 true [0%nat] 3]
    [0%nat; 1%nat] [7] (mkRng (replay 0%Q [15 # 100]) 0 (replay 0%nat []) 0) [].

(** In the mating season, a mother (reference 0) that cares for her cub
    (reference 1, under parental care); the oracle announces two
    encounters. *)
Definition hermit : Model :=
  mkModel default_params mating 10
    [mkBear 2 5 coward false true None 1 0 1 5 8 17 true [1%nat] 3;
     mkBear 3 5 coward true false (Some 0%nat) 1 0 1 5 8 17 false [] 0]
    [0%nat; 1%nat] [] (mkRng (replay 0%Q []) 0 (replay 0%nat [2]%nat) 0) [].

(** An oracle for a constructor with one sheep and two aggressive bears,
    then a step of the first bear in the mating season: energies 10 and
    10, a female (draw 0.1) and a male (0.9); the hunt fails (0.5); one
    encounter, with the male; the mating succeeds (0.01 < 0.05) and the
    litter has two cubs. *)
Definition busy : Rng :=
  mkRng (replay 0%Q [1 # 10; 9 # 10; 1 # 2; 1 # 100; 3 # 10; 7 # 10]) 0
    (replay 0%nat [10; 10; 0; 1; 0; 1; 0; 0; 3]%nat) 0.

Definition busy_start : Model :=
  set_season mating
    (snd (BearSheepPredation__init__ default_params 1 0 2 busy)).

(** * Theorems *)

(** ** The level a hunt is decided with *)

Lemma hunt_level_unassisted hunter : hunt_level hunter None = level hunter.
Proof. reflexivity. Qed.

Lemma hunt_level_assisted hunter a :
  hunt_level hunter (Some a) = level hunter + level a / 2.
Proof. reflexivity. Qed.

(** C4, at hunter level 2 and assistant level 2.  [hunt] adds the floored
    half of the assistant's level to the whole level of the hunter: that is
    3, where the average of the two levels is 2.  With a base chance of 0.06
    and a draw of 0.15 the hunt therefore succeeds (0.15 < 0.18) although the
    draw is not below 0.06 times the average: the sheep is removed and the
    cub gains [xp_for_sheep]. *)
Theorem hunt_level_is_not_the_average :
  let cub := adult coward 5 false 2 0 in
  let mum := adult coward 5 true 2 0 in
  hunt_level cub (Some mum) = 3
  /\ spec_hunt_level cub (Some mum) = 2
  /\ Qltb (15 # 100)
       (hunt_success_chance default_params * inject_Z 2) = false
  /\ schedule_sheep hunting_party = [7]
  /\ schedule_sheep (snd (hunt 0%nat 7 (Some 1%nat) hunting_party)) = []
  /\ (accumulated_xp <$> heap (snd (hunt 0%nat 7 (Some 1%nat) hunting_party))
        !! 0%nat) = Some (0 + 100)%Q.
Proof. vm_compute. repeat split; reflexivity. Qed.

(** ** Combat: the scales of the two draws *)

Lemma other_bear_attack_strength_is_own_level sb ob :
  other_bear_attack_strength sb ob = level sb
  /\ this_bear_attack_strength sb ob = level sb.
Proof. split; reflexivity. Qed.

(** C2, at attacker level 1 and defender level 3.  Both exponential draws of
    [attack] are asked with scale 1, the attacker's level: the strength kept
    for the other bear is the attacker's own level, so the defender's level 3
    is the parameter of no draw. *)
Theorem attack_draws_ignore_the_defenders_level :
  (level <$> heap duel !! 0%nat) = Some 1
  /\ (level <$> heap duel !! 1%nat) = Some 3
  /\ exponential_scales (trace (snd (attack 0%nat 1%nat duel))) = [1; 1].
Proof. vm_compute. repeat split; reflexivity. Qed.

(** ** Mating attempts *)

Lemma chance_to_reproduce_same p male female :
  behavior male = behavior female ->
  chance_to_reproduce p male female
  = (bear_reproduce p * inject_Z (level male))%Q.
Proof.
  intros E. unfold chance_to_reproduce. rewrite E.
  now destruct (behavior female).
Qed.

Lemma chance_to_reproduce_differ p male female :
  behavior male <> behavior female ->
  chance_to_reproduce p male female
  = (bear_reproduce p * inject_Z (level male) / 2)%Q.
Proof.
  intros E. unfold chance_to_reproduce.
  destruct (behavior male), (behavior female); simpl; congruence.
Qed.

(** C7.  A mating attempt between two bears of the model changes no agent:
    heap, schedule, season and id counter are as before.  It answers [False]
    without drawing when the female cares for cubs; otherwise it answers
    whether the next uniform draw is below [bear_reproduce * male.level],
    halved when the two behaviors differ. *)
Theorem attempt_to_mate_spec (m : Model) (male female : ref) (mb fb : Bear) :
  heap m !! male = Some mb ->
  heap m !! female = Some fb ->
  let u := rand_real (rng m) (real_pos (rng m)) in
  let chance :=
    if Behavior_eqb (behavior mb) (behavior fb)
    then (bear_reproduce (params m) * inject_Z (level mb))%Q
    else (bear_reproduce (params m) * inject_Z (level mb) / 2)%Q in
  let out := attempt_to_mate male female m in
  heap (snd out) = heap m
  /\ schedule_bears (snd out) = schedule_bears m
  /\ schedule_sheep (snd out) = schedule_sheep m
  /\ season (snd out) = season m
  /\ model_unique_id (snd out) = model_unique_id m
  /\ (does_care_after_cubs fb = true -> out = (Ok false, m))
  /\ (does_care_after_cubs fb = false -> fst out = Ok (Qltb u chance)).
Proof.
  intros Hm Hf. unfold attempt_to_mate, bind, get_bear, get_model.
  rewrite Hm, Hf. unfold chance_to_reproduce.
  destruct (does_care_after_cubs fb); cbn;
    repeat split; try reflexivity; try discriminate.
  intros _. now destruct (Behavior_eqb (behavior mb) (behavior fb)).
Qed.

(** Two coward bears, a male of level 2 and a free female. *)
Lemma attempt_to_mate_spec_witness :
  fst (attempt_to_mate 1%nat 0%nat
         (mkModel default_params mating 10
            [adult coward 5 true 1 0; adult coward 5 false 2 10]
            [0%nat; 1%nat] []
            (mkRng (replay 0%Q [5 # 100]) 0 (replay 0%nat []) 0) []))
  = Ok true.
Proof.
  refine (proj2 (proj2 (proj2 (proj2 (proj2 (proj2
    (attempt_to_mate_spec
       (mkModel default_params mating 10
          [adult coward 5 true 1 0; adult coward 5 false 2 10]
          [0%nat; 1%nat] []
          (mkRng (replay 0%Q [5 # 100]) 0 (replay 0%nat []) 0) [])
       1%nat 0%nat (adult coward 5 false 2 10) (adult coward 5 true 1 0)
       eq_refl eq_refl)))))) eq_refl).
Defined.

(** ** Sheep *)

Lemma Sheep_step_cases (m : Model) (self : Z) :
  let u := rand_real (rng m) (real_pos (rng m)) in
  let born :=
    Qltb u (sheep_reproduce (params m))
    && (sheep_count m <? sheep_limit (params m)) in
  fst (Sheep_step self m) = Ok tt
  /\ params (snd (Sheep_step self m)) = params m
  /\ schedule_sheep (snd (Sheep_step self m))
     = (if born then schedule_sheep m ++ [model_unique_id m + 1]
        else schedule_sheep m).
Proof.
  unfold Sheep_step, sheep_count, bind, get_model, random_random, next_real,
    get_agents_by_breed_Sheep, generate_id, schedule_add_sheep. cbn.
  destruct (Qltb _ _); cbn; [|auto].
  destruct (_ <? _); cbn; auto.
Qed.

Lemma Sheep_step_bounded (m : Model) (self : Z) :
  fst (Sheep_step self m) = Ok tt
  /\ params (snd (Sheep_step self m)) = params m
  /\ sheep_count (snd (Sheep_step self m))
     <= Z.max (sheep_count m) (sheep_limit (params m)).
Proof.
  destruct (Sheep_step_cases m self) as (H1 & H2 & H3).
  repeat split; auto. unfold sheep_count at 1. rewrite H3.
  destruct (Qltb _ _); cbn; [|unfold sheep_count; lia].
  destruct (Z.ltb_spec (sheep_count m) (sheep_limit (params m)));
    unfold sheep_count in *; [rewrite length_app; cbn|]; lia.
Qed.

Lemma many_Sheep_steps_bounded (selves : list Z) (m : Model) :
  fst (for_each selves Sheep_step m) = Ok tt
  /\ params (snd (for_each selves Sheep_step m)) = params m
  /\ sheep_count (snd (for_each selves Sheep_step m))
     <= Z.max (sheep_count m) (sheep_limit (params m)).
Proof.
  revert m. induction selves as [|s rest IH]; intros m; cbn.
  - repeat split; auto. lia.
  - unfold bind. destruct (Sheep_step_bounded m s) as (H1 & H2 & H3).
    destruct (Sheep_step s m) as [[[]|e] m1]; cbn in *; try discriminate.
    destruct (IH m1) as (I1 & I2 & I3). rewrite I2, H2 in *.
    repeat split; auto. lia.
Qed.

(** C9.  A sheep's step never fails and registers exactly one new sheep,
    under a fresh id, when its draw is below [sheep_reproduce] and the live
    count is strictly below [sheep_limit]; in every other case the registry
    is unchanged.  Hence after the steps of any number of sheep, one after
    the other, the count is at most the larger of the count before and
    [sheep_limit]: reproduction never takes it beyond the limit. *)
Theorem Sheep_step_spec (m : Model) (self : Z) (selves : list Z) :
  let u := rand_real (rng m) (real_pos (rng m)) in
  let born :=
    Qltb u (sheep_reproduce (params m))
    && (sheep_count m <? sheep_limit (params m)) in
  fst (Sheep_step self m) = Ok tt
  /\ schedule_sheep (snd (Sheep_step self m))
     = (if born then schedule_sheep m ++ [model_unique_id m + 1]
        else schedule_sheep m)
  /\ fst (for_each selves Sheep_step m) = Ok tt
  /\ sheep_count (snd (for_each selves Sheep_step m))
     <= Z.max (sheep_count m) (sheep_limit (params m)).
Proof.
  destruct (Sheep_step_cases m self) as (H1 & _ & H3).
  destruct (many_Sheep_steps_bounded selves m) as (I1 & _ & I3).
  cbn. auto.
Qed.

(** ** Running the primitives *)

Lemma get_bear_run (m : Model) (r : ref) (b : Bear) :
  heap m !! r = Some b -> get_bear r m = (Ok b, m).
Proof. intros H. unfold get_bear. now rewrite H. Qed.

Lemma modify_bear_run (m : Model) (r : ref) (f : Bear -> Bear) :
  (r < length (heap m))%nat ->
  modify_bear r f m = (Ok tt, set_heap (alter f r (heap m)) m).
Proof.
  intros H. unfold modify_bear.
  destruct (lookup_lt_is_Some_2 _ _ H) as [b ->]. reflexivity.
Qed.

Lemma Qltb_lt (x y : Q) : Qltb x y = true <-> (x < y)%Q.
Proof.
  unfold Qltb. rewrite negb_true_iff, <- not_true_iff_false, Qle_bool_iff.
  split; [apply Qnot_le_lt | apply Qlt_not_le].
Qed.

Lemma Qltb_ge (x y : Q) : Qltb x y = false <-> (y <= x)%Q.
Proof.
  unfold Qltb. rewrite negb_false_iff. apply Qle_bool_iff.
Qed.

Lemma set_level_same (b : Bear) : set_level (level b) b = b.
Proof. now destruct b. Qed.

(** ** Releasing the cubs *)

Lemma release_all_length mother cs h :
  length (release_all mother cs h) = length h.
Proof.
  revert h. induction cs as [|c cs IH]; intros h; cbn; [reflexivity|].
  unfold release_all in IH. now rewrite IH, !length_alter.
Qed.

Lemma released_step (r mother c : ref) (cs : list ref) (b : Bear) :
  released r mother cs
    ((if decide (c = r) then set_is_under_parental_care false else id)
       ((if decide (mother = r) then set_does_care_after_cubs false else id)
          b))
  = released r mother (c :: cs) b.
Proof.
  unfold released. destruct b as [i e bh under care mo l x lc uc lp up f cu pc].
  assert (Hcons : bool_decide (r = mother ∧ c :: cs ≠ [])
                  = bool_decide (r = mother))
    by (apply bool_decide_ext; split; [tauto|intros ->; split; congruence]).
  assert (Hin : bool_decide (r ∈ c :: cs)
                = bool_decide (r = c) || bool_decide (r ∈ cs)).
  { rewrite (bool_decide_ext _ _ (elem_of_cons cs r c)).
    apply bool_decide_or. }
  rewrite Hcons, Hin.
  destruct (decide (c = r)) as [->|Hc], (decide (mother = r)) as [->|Hm];
    cbn; unfold set_is_under_parental_care, set_does_care_after_cubs; cbn.
  - rewrite !bool_decide_eq_true_2 by reflexivity.
    now rewrite !andb_false_r.
  - rewrite (bool_decide_eq_true_2 (r = r)) by reflexivity.
    rewrite (bool_decide_eq_false_2 (r = mother)) by congruence.
    rewrite (bool_decide_eq_false_2 (r = mother ∧ _)) by (intros []; congruence).
    cbn. now rewrite !andb_false_r, !andb_true_r.
  - rewrite (bool_decide_eq_true_2 (r = r)) by reflexivity.
    rewrite (bool_decide_eq_false_2 (r = c)) by congruence.
    cbn. now rewrite !andb_false_r.
  - rewrite (bool_decide_eq_false_2 (r = c)) by congruence.
    rewrite (bool_decide_eq_false_2 (r = mother)) by congruence.
    rewrite (bool_decide_eq_false_2 (r = mother ∧ _)) by (intros []; congruence).
    reflexivity.
Qed.

(** Every attribute but the two flags of the bond is the same after the
    loop. *)
Lemma release_all_lookup mother cs h r :
  release_all mother cs h !! r = released r mother cs <$> h !! r.
Proof.
  revert h. induction cs as [|c cs IH]; intros h.
  - cbn. destruct (h !! r) as [b|]; cbn; [|reflexivity].
    unfold released.
    rewrite (bool_decide_eq_false_2 (r ∈ [])) by apply not_elem_of_nil.
    rewrite (bool_decide_eq_false_2 (r = mother ∧ _))
      by (intros [_ H]; now apply H).
    rewrite !andb_true_r. now destruct b.
  - change (release_all mother (c :: cs) h)
      with (release_all mother cs
              (alter (set_is_under_parental_care false) c
                 (alter (set_does_care_after_cubs false) mother h))).
    rewrite IH, !list_lookup_alter.
    pose proof (released_step r mother c cs) as Hstep.
    destruct (decide (c = r)) as [->|Hc], (decide (mother = r)) as [->|Hm];
      destruct (h !! r) as [b|]; cbn; try reflexivity;
      now rewrite <- Hstep.
Qed.

Lemma alter_preserves {A} (g : Bear -> A) (f : Bear -> Bear) (i j : ref)
    (l : list Bear) :
  (forall b, g (f b) = g b) ->
  g <$> alter f i l !! j = g <$> l !! j.
Proof.
  intros H. rewrite list_lookup_alter.
  destruct (decide (i = j)) as [->|?]; [|reflexivity].
  destruct (l !! j); cbn; [now rewrite H | reflexivity].
Qed.

Lemma chase_all_run (mother : ref) (cs : list ref) (m : Model) :
  (is_female <$> heap m !! mother) = Some true ->
  Forall (fun c => (c < length (heap m))%nat) cs ->
  for_each cs (chase_cub_away mother) m
  = (Ok tt, set_heap (release_all mother cs (heap m)) m).
Proof.
  revert m. induction cs as [|c cs IH]; intros m Hf Hv.
  - cbn. now destruct m.
  - apply Forall_cons in Hv as [Hc Hv]. cbn [for_each].
    unfold bind at 1. unfold chase_cub_away at 1.
    destruct (heap m !! mother) as [mb|] eqn:Hm; [|discriminate].
    cbn in Hf. injection Hf as Hf.
    unfold bind at 1. rewrite (get_bear_run _ _ _ Hm).
    unfold bind at 1. rewrite Hf. cbn [assert ret].
    unfold bind at 1.
    rewrite modify_bear_run by (eapply lookup_lt_Some; eauto).
    rewrite modify_bear_run by (cbn; now rewrite length_alter).
    cbn [heap set_heap]. rewrite IH.
    + reflexivity.
    + cbn. rewrite !alter_preserves by reflexivity.
      rewrite Hm. cbn. now rewrite Hf.
    + cbn. now rewrite !length_alter.
Qed.

(** ** The end of the parental care *)

(** C5 fails as stated: a mother whose countdown is 0 releases her cub, and
    her [cubs] list still holds the cub afterwards, in [care_for_cubs] as in
    the whole [Bear.step]. *)
Lemma cubs_list_survives_the_release :
  (parental_care_countdown <$> heap nursery !! 0%nat) = Some 0
  /\ (does_care_after_cubs <$> heap nursery !! 0%nat) = Some true
  /\ (cubs <$> heap (snd (care_for_cubs 0%nat nursery)) !! 0%nat)
     <> Some []
  /\ fst (Bear_step 0%nat nursery) = Ok tt
  /\ (cubs <$> heap (snd (Bear_step 0%nat nursery)) !! 0%nat) <> Some [].
Proof. vm_compute. repeat split; discriminate. Qed.

(** C5, amended.  For a caring mother (female, with her cubs in the heap and
    at least one of them) step 3 of [Bear.step] succeeds.  When her
    countdown is at most 0 it clears [does_care_after_cubs] on her and
    [is_under_parental_care] on every cub, and leaves her [cubs] list and
    her countdown as they were; otherwise it decrements the countdown by 1
    and leaves the bond and every other bear as they were. *)
Theorem care_for_cubs_spec (m : Model) (self : ref) (sb : Bear) :
  heap m !! self = Some sb ->
  does_care_after_cubs sb = true ->
  is_female sb = true ->
  cubs sb <> [] ->
  Forall (fun c => (c < length (heap m))%nat) (cubs sb) ->
  let out := care_for_cubs self m in
  let after := fun {A} (field : Bear -> A) (r : ref) =>
                 field <$> heap (snd out) !! r in
  fst out = Ok tt
  /\ after cubs self = Some (cubs sb)
  /\ if parental_care_countdown sb <=? 0 then
       after does_care_after_cubs self = Some false
       /\ Forall (fun c => after is_under_parental_care c = Some false)
            (cubs sb)
       /\ after parental_care_countdown self
          = Some (parental_care_countdown sb)
     else
       after does_care_after_cubs self = Some true
       /\ after parental_care_countdown self
          = Some (parental_care_countdown sb - 1)
       /\ forall c, c <> self ->
            heap (snd out) !! c = heap m !! c.
Proof.
  intros Hs Hcare Hfem Hne Hv. unfold care_for_cubs, bind.
  rewrite (get_bear_run _ _ _ Hs), Hcare. cbn [andb].
  destruct (parental_care_countdown sb <=? 0).
  - rewrite chase_all_run; [|now rewrite Hs; cbn; f_equal|assumption].
    cbn [fst snd heap set_heap].
    split; [reflexivity|]. rewrite !release_all_lookup, Hs. cbn.
    split; [reflexivity|]. split; [|split; [|reflexivity]].
    + rewrite Hcare, bool_decide_eq_true_2 by (split; auto). reflexivity.
    + apply Forall_forall. intros c Hc.
      rewrite release_all_lookup.
      rewrite Forall_forall in Hv.
      destruct (lookup_lt_is_Some_2 _ _ (Hv c Hc)) as [cb ->]. cbn.
      rewrite (bool_decide_eq_true_2 _ Hc). now rewrite andb_false_r.
  - rewrite modify_bear_run by (eapply lookup_lt_Some; eauto).
    cbn [fst snd heap set_heap]. rewrite !list_lookup_alter_eq, Hs. cbn.
    rewrite Hcare.
    split; [reflexivity|]. split; [reflexivity|]. split; [reflexivity|].
    split; [reflexivity|].
    intros c Hc. apply list_lookup_alter_ne. congruence.
Qed.

Lemma care_for_cubs_spec_witness :
  (does_care_after_cubs <$> heap (snd (care_for_cubs 0%nat nursery)) !! 0%nat)
  = Some false.
Proof.
  refine (proj1 (proj2 (proj2
    (care_for_cubs_spec nursery 0%nat
       (mkBear 2 5 coward false true None 1 0 1 5 8 17 true [1%nat] 0)
       eq_refl eq_refl eq_refl _ _)))).
  - discriminate.
  - repeat constructor.
Defined.
(** ** Levelling up and dying *)

Lemma bind_run {A B} (c : M A) (k : A -> M B) (m m' : Model) (a : A) :
  c m = (Ok a, m') -> bind c k m = k a m'.
Proof. intros H. unfold bind. now rewrite H. Qed.

Lemma modify_bear_bind_run {B} (r : ref) (f : Bear -> Bear)
    (k : unit -> M B) (m : Model) :
  (r < length (heap m))%nat ->
  bind (modify_bear r f) k m = k tt (set_heap (alter f r (heap m)) m).
Proof. intros H. now rewrite (bind_run _ _ _ _ tt (modify_bear_run m r f H)). Qed.

Lemma update_loop_run (fuel : nat) (m : Model) (r : ref) (b : Bear) :
  heap m !! r = Some b ->
  exists L, level b <= L
    /\ update_loop fuel r m
       = (Ok tt, set_heap (alter (set_level L) r (heap m)) m).
Proof.
  revert m b. induction fuel as [|k IH]; intros m b Hb.
  - exists (level b). split; [lia|]. cbn. f_equal.
    rewrite (list_alter_ext _ id _ (heap m) r); [|intros x Hx|reflexivity].
    + rewrite list_alter_id by reflexivity. now destruct m.
    + rewrite Hb in Hx. injection Hx as <-. apply set_level_same.
  - cbn [update_loop]. rewrite (bind_run _ _ _ _ _ (get_bear_run _ _ _ Hb)).
    unfold bind at 1, get_model.
    destruct (Qltb _ _).
    + unfold bind.
      rewrite modify_bear_run by (eapply lookup_lt_Some; eauto).
      destruct (IH (set_heap
                      (alter (fun b => set_level (level b + 1) b) r (heap m)) m)
                  (set_level (level b + 1) b)) as (L & HL & ->).
      { cbn. now rewrite list_lookup_alter_eq, Hb. }
      exists L. cbn in HL. split; [lia|]. cbn [heap set_heap].
      rewrite list_alter_alter_eq. reflexivity.
    + exists (level b). split; [lia|]. cbn. f_equal.
      rewrite (list_alter_ext _ id _ (heap m) r); [|intros x Hx|reflexivity].
      * rewrite list_alter_id by reflexivity. now destruct m.
      * rewrite Hb in Hx. injection Hx as <-. apply set_level_same.
Qed.

Lemma update_run (m : Model) (r : ref) (b : Bear) :
  heap m !! r = Some b ->
  exists L, level b <= L
    /\ update r m = (Ok tt, set_heap (alter (set_level L) r (heap m)) m).
Proof.
  intros Hb. unfold update. rewrite (bind_run _ _ _ _ _ (get_bear_run _ _ _ Hb)).
  now apply update_loop_run.
Qed.


Lemma existsb_eqb_elem (r : ref) (l : list ref) :
  existsb (Nat.eqb r) l = true <-> r ∈ l.
Proof.
  rewrite existsb_exists, list_elem_of_In. split.
  - intros (x & Hx & E). apply Nat.eqb_eq in E. now subst.
  - intros H. exists r. split; [assumption|apply Nat.eqb_refl].
Qed.

Lemma die_heap_lookup self b h r :
  exists under care,
    die_heap self b h !! r
    = (fun x => set_is_under_parental_care (under x)
                  (set_does_care_after_cubs (care x) x)) <$> h !! r.
Proof.
  unfold die_heap. destruct (does_care_after_cubs b).
  - eexists _, _. apply release_all_lookup.
  - exists is_under_parental_care, does_care_after_cubs.
    destruct (h !! r) as [x|]; cbn; [|reflexivity]. now destruct x.
Qed.

Lemma log_run {B} (e : Event) (k : unit -> M B) (m : Model) :
  bind (log e) k m = k tt (set_trace (trace m ++ [e]) m).
Proof. reflexivity. Qed.

Lemma ret_run {A B} (a : A) (k : A -> M B) (m : Model) :
  bind (ret a) k m = k a m.
Proof. reflexivity. Qed.

Lemma get_model_run {B} (k : Model -> M B) (m : Model) :
  bind get_model k m = k m m.
Proof. reflexivity. Qed.


Lemma threshold_passed_bound (p : Params) (l : Z) (xp : Q) :
  (inject_Z (l + 1) <= np_exp p (l + 1))%Q ->
  Qltb (np_exp p (l + 1)) xp = true ->
  l + 1 < Qceiling xp.
Proof.
  intros H Hc. apply Qltb_lt in Hc.
  rewrite Zlt_Qlt.
  eapply Qle_lt_trans; [exact H|].
  eapply Qlt_le_trans; [exact Hc|apply Qle_ceiling].
Qed.

Lemma update_loop_staircase (fuel : nat) (m : Model) (self : ref) (b : Bear) :
  heap m !! self = Some b ->
  (forall l, inject_Z l <= np_exp (params m) l)%Q ->
  (Z.to_nat (Qceiling (accumulated_xp b) - level b) <= fuel)%nat ->
  exists L,
    update_loop fuel self m
    = (Ok tt, set_heap (alter (set_level L) self (heap m)) m)
    /\ level b <= L
    /\ Qltb (np_exp (params m) (L + 1)) (accumulated_xp b) = false
    /\ forall l, level b <= l < L ->
         Qltb (np_exp (params m) (l + 1)) (accumulated_xp b) = true.
Proof.
  revert m b. induction fuel as [|k IH]; intros m b Hb Hexp Hfuel.
  - exists (level b). split; [|split; [lia|split; [|intros; lia]]].
    + cbn. f_equal.
      rewrite (list_alter_ext _ id _ (heap m) self); [|intros x Hx|reflexivity].
      * rewrite list_alter_id by reflexivity. now destruct m.
      * rewrite Hb in Hx. injection Hx as <-. apply set_level_same.
    + destruct (Qltb _ _) eqn:Hc; [|reflexivity].
      apply threshold_passed_bound in Hc; [lia|apply Hexp].
  - cbn [update_loop].
    rewrite (bind_run _ _ _ _ _ (get_bear_run _ _ _ Hb)), get_model_run.
    destruct (Qltb (np_exp (params m) (level b + 1)) (accumulated_xp b))
      eqn:Hc.
    + pose proof (threshold_passed_bound _ _ _ (Hexp _) Hc) as Hlt.
      rewrite modify_bear_bind_run by (eapply lookup_lt_Some; eauto).
      destruct (IH (set_heap
                      (alter (fun b => set_level (level b + 1) b) self
                         (heap m)) m)
                  (set_level (level b + 1) b))
        as (L & Hrun & HL & Hstop & Hbelow).
      { cbn. now rewrite list_lookup_alter_eq, Hb. }
      { exact Hexp. }
      { cbn. lia. }
      exists L. cbn in HL, Hstop, Hbelow. rewrite Hrun.
      cbn [heap set_heap]. rewrite list_alter_alter_eq.
      split; [reflexivity|]. split; [lia|]. split; [exact Hstop|].
      intros l Hl. destruct (Z.eq_dec l (level b)) as [->|Hne];
        [exact Hc | apply Hbelow; lia].
    + exists (level b). split; [|split; [lia|split; [exact Hc|intros; lia]]].
      cbn. f_equal.
      rewrite (list_alter_ext _ id _ (heap m) self); [|intros x Hx|reflexivity].
      * rewrite list_alter_id by reflexivity. now destruct m.
      * rewrite Hb in Hx. injection Hx as <-. apply set_level_same.
Qed.

Lemma update_reaches_the_staircase (m : Model) (self : ref) (b : Bear) :
  heap m !! self = Some b ->
  (forall l, inject_Z l <= np_exp (params m) l)%Q ->
  exists L,
    update self m = (Ok tt, set_heap (alter (set_level L) self (heap m)) m)
    /\ level b <= L
    /\ Qltb (np_exp (params m) (L + 1)) (accumulated_xp b) = false
    /\ forall l, level b <= l < L ->
         Qltb (np_exp (params m) (l + 1)) (accumulated_xp b) = true.
Proof.
  intros Hb Hexp. unfold update.
  rewrite (bind_run _ _ _ _ _ (get_bear_run _ _ _ Hb)).
  apply update_loop_staircase; [assumption|assumption|].
  unfold update_fuel. lia.
Qed.

Lemma powers_of_two_dominate (l : Z) : (inject_Z l <= inject_Z (2 ^ l))%Q.
Proof.
  rewrite <- Zle_Qle. destruct (Z.le_gt_cases 0 l) as [H|H].
  - pose proof (Z.pow_gt_lin_r 2 l ltac:(lia) H). lia.
  - rewrite Z.pow_neg_r by lia. lia.
Qed.

Lemma Bear_die_run (m : Model) (self : ref) (b : Bear) :
  heap m !! self = Some b ->
  carer_ok (heap m) b ->
  self ∈ schedule_bears m ->
  Bear_die self m
  = (Ok tt,
     mkModel (params m) (season m) (model_unique_id m)
       (die_heap self b (heap m))
       (List.filter (fun x => negb (Nat.eqb self x)) (schedule_bears m))
       (schedule_sheep m) (rng m) (trace m ++ [EvDie self])).
Proof.
  intros Hb Hok Hin. unfold Bear_die. rewrite log_run.
  rewrite (bind_run _ _ _ _ b) by (apply get_bear_run; exact Hb).
  apply existsb_eqb_elem in Hin.
  unfold die_heap. destruct (does_care_after_cubs b) eqn:Hc.
  - destruct (Hok Hc) as [Hf Hv].
    erewrite bind_run; [|apply chase_all_run; [|exact Hv]].
    + unfold schedule_remove_bear. cbn. now rewrite Hin.
    + cbn. rewrite Hb. cbn. now f_equal.
  - rewrite ret_run. unfold schedule_remove_bear. cbn. now rewrite Hin.
Qed.
(** ** Combat: who wins, who dies, what the winner gains *)



Lemma die_heap_length self b h : length (die_heap self b h) = length h.
Proof.
  unfold die_heap. destruct (does_care_after_cubs b);
    [apply release_all_length | reflexivity].
Qed.







(** ** A bear that dies in its own encounters *)

(** C1, on [last_stand].  The bear at reference 0 attacks the bear at
    reference 1, loses and dies: it is removed from the schedule.  The loop
    of [generate_encounters] goes on all the same: the dead bear attacks the
    bear at reference 2, wins and kills it.  Its energy is below zero at the
    end of [step], which calls [die] on it a second time; the scheduler
    refuses to remove an agent that is not registered. *)
Theorem dead_bear_keeps_fighting :
  let out := Bear_step 0%nat last_stand in
  trace (snd out)
  = [EvAttack 0%nat 1%nat; EvExponential 1; EvExponential 1; EvDie 0%nat;
     EvAttack 0%nat 2%nat; EvExponential 1; EvExponential 1; EvDie 2%nat;
     EvDie 0%nat]
  /\ schedule_bears (snd out) = [1%nat]
  /\ fst out = Raise SchedulerError.
Proof. vm_compute. repeat split; reflexivity. Qed.

(** ** What every operation keeps *)

Create HintDb keeps_db.

Ltac gentle_tac := intros ?; cbn; repeat split; lia.

Section Invariant.
Variable Inv : list Bear -> Prop.
Variable okb : Bear -> Prop.
Hypothesis Inv_lookup :
  forall h r b, Inv h -> h !! r = Some b -> okb b.
Hypothesis Inv_alloc : forall h b, Inv h -> okb b -> Inv (h ++ [b]).
Hypothesis Inv_alter :
  forall h r f, Inv h -> gentle f -> Inv (alter f r h).
Hypothesis okb_founder :
  forall uid e beh mo u, okb (new_bear uid e beh mo None u).
Hypothesis okb_cub :
  forall uid e beh mo f m u,
    okb f -> okb m -> okb (new_bear uid e beh mo (Some (f, m)) u).

Lemma keeps_ret {A} (a : A) : keeps Inv (ret a).
Proof. intros m H. exact H. Qed.

Lemma keeps_raise {A} (e : Error) : keeps Inv (@raise A e).
Proof. intros m H. exact H. Qed.

Lemma keeps_bind {A B} (c : M A) (k : A -> M B) :
  keeps Inv c -> (forall a, keeps Inv (k a)) -> keeps Inv (bind c k).
Proof.
  intros Hc Hk m H. unfold bind. specialize (Hc m H).
  destruct (c m) as [[a|e] m']; cbn in *; [now apply Hk | assumption].
Qed.

(** A computation that leaves the heap alone keeps everything. *)
Lemma keeps_same_heap {A} (c : M A) :
  (forall m, heap (snd (c m)) = heap m) -> keeps Inv c.
Proof. intros E m H. now rewrite E. Qed.

Lemma keeps_bind_get_bear {B} (r : ref) (k : Bear -> M B) :
  (forall b, okb b -> keeps Inv (k b)) -> keeps Inv (bind (get_bear r) k).
Proof.
  intros Hk m H. unfold bind, get_bear.
  destruct (heap m !! r) as [b|] eqn:Hb; cbn; [|assumption].
  apply Hk; [eapply Inv_lookup; eauto | assumption].
Qed.

Lemma keeps_modify_bear (r : ref) (f : Bear -> Bear) :
  gentle f -> keeps Inv (modify_bear r f).
Proof.
  intros Hf m H. unfold modify_bear.
  destruct (heap m !! r); cbn; [now apply Inv_alter | assumption].
Qed.

Lemma keeps_alloc_bear (b : Bear) : okb b -> keeps Inv (alloc_bear b).
Proof. intros Hb m H. cbn. now apply Inv_alloc. Qed.

Lemma keeps_for_each {A} (xs : list A) (body : A -> M unit) :
  (forall x, keeps Inv (body x)) -> keeps Inv (for_each xs body).
Proof.
  intros Hb. induction xs; cbn [for_each];
    [apply keeps_ret | apply keeps_bind; auto].
Qed.

Ltac keeps_tac :=
  repeat (cbn zeta; first
    [ apply keeps_ret
    | apply keeps_raise
    | solve [auto with keeps_db]
    | apply keeps_for_each; intros ?
    | apply keeps_bind_get_bear; intros ? ?
    | apply keeps_bind; [|intros ?]
    | apply keeps_modify_bear; gentle_tac
    | match goal with
      | |- keeps _ (if ?c then _ else _) => destruct c
      | |- keeps _ (match ?x with _ => _ end) => destruct x
      end
    | solve [apply keeps_same_heap; intros; reflexivity] ]).

Lemma keeps_assert (c : bool) : keeps Inv (assert c).
Proof. unfold assert. keeps_tac. Qed.

Lemma keeps_random_choice {A} (xs : list A) : keeps Inv (random_choice xs).
Proof. unfold random_choice. keeps_tac. Qed.

Lemma keeps_random_randrange (n : Z) : keeps Inv (random_randrange n).
Proof. unfold random_randrange. keeps_tac. Qed.

Lemma keeps_rg_integers (low high : Z) : keeps Inv (rg_integers low high).
Proof. unfold rg_integers. keeps_tac. Qed.

Lemma keeps_schedule_remove_bear (r : ref) :
  keeps Inv (schedule_remove_bear r).
Proof.
  apply keeps_same_heap. intros m. unfold schedule_remove_bear.
  now destruct (existsb _ _).
Qed.

Lemma keeps_schedule_remove_sheep (s : Z) :
  keeps Inv (schedule_remove_sheep s).
Proof.
  apply keeps_same_heap. intros m. unfold schedule_remove_sheep.
  now destruct (existsb _ _).
Qed.

Local Hint Resolve keeps_assert keeps_random_choice keeps_random_randrange
  keeps_rg_integers keeps_schedule_remove_bear keeps_schedule_remove_sheep
  : keeps_db.

Lemma keeps_Sheep_step (self : Z) : keeps Inv (Sheep_step self).
Proof. unfold Sheep_step. keeps_tac. Qed.

Lemma keeps_Sheep_die (self : Z) : keeps Inv (Sheep_die self).
Proof. unfold Sheep_die. keeps_tac. Qed.

Lemma keeps_bond_with_cub (mother cub : ref) :
  keeps Inv (bond_with_cub mother cub).
Proof. unfold bond_with_cub. keeps_tac. Qed.

Lemma keeps_chase_cub_away (mother cub : ref) :
  keeps Inv (chase_cub_away mother cub).
Proof. unfold chase_cub_away. keeps_tac. Qed.

Lemma keeps_attempt_to_mate (male female : ref) :
  keeps Inv (attempt_to_mate male female).
Proof. unfold attempt_to_mate. keeps_tac. Qed.

Lemma keeps_Bear__init__ (uid : Z) (e : Q) (beh : Behavior)
    (father mother : option ref) :
  keeps Inv (Bear__init__ uid e beh father mother).
Proof.
  intros m H. unfold Bear__init__, bind, get_bear, ret.
  destruct father as [f|], mother as [mo|]; cbn;
    try (apply Inv_alloc; [assumption | apply okb_founder]).
  destruct (heap m !! f) as [fb|] eqn:Hf; cbn; [|assumption].
  destruct (heap m !! mo) as [mb|] eqn:Hm; cbn; [|assumption].
  apply Inv_alloc; [assumption|].
  apply okb_cub; eapply Inv_lookup; eauto.
Qed.

Lemma keeps_update_loop (fuel : nat) (self : ref) :
  keeps Inv (update_loop fuel self).
Proof. induction fuel; cbn [update_loop]; keeps_tac; auto. Qed.

Local Hint Resolve keeps_Sheep_step keeps_Sheep_die keeps_bond_with_cub
  keeps_chase_cub_away keeps_attempt_to_mate keeps_Bear__init__
  keeps_update_loop : keeps_db.

Lemma keeps_update (self : ref) : keeps Inv (update self).
Proof. unfold update. keeps_tac. Qed.

Lemma keeps_Bear_die (self : ref) : keeps Inv (Bear_die self).
Proof.
  unfold Bear_die. keeps_tac.
Qed.

Local Hint Resolve keeps_update keeps_Bear_die : keeps_db.

Lemma keeps_attack (self other : ref) : keeps Inv (attack self other).
Proof. unfold attack. keeps_tac. Qed.

Lemma keeps_hunt (self : ref) (sheep : Z) (assistant : option ref) :
  keeps Inv (hunt self sheep assistant).
Proof. unfold hunt. keeps_tac. Qed.

Lemma keeps_make_cubs (n : nat) (self father : ref) (cub_cnt : Z) :
  keeps Inv (make_cubs n self father cub_cnt).
Proof. induction n; cbn [make_cubs]; keeps_tac; auto. Qed.

Local Hint Resolve keeps_attack keeps_hunt keeps_make_cubs : keeps_db.

Lemma keeps_give_birth (self father : ref) :
  keeps Inv (give_birth self father).
Proof.
  unfold give_birth. keeps_tac.
Qed.

Local Hint Resolve keeps_give_birth : keeps_db.

Lemma keeps_encounter (self : ref) : keeps Inv (encounter self).
Proof. unfold encounter. keeps_tac. Qed.

Local Hint Resolve keeps_encounter : keeps_db.

Lemma keeps_encounter_loop (n : nat) (self : ref) :
  keeps Inv (encounter_loop n self).
Proof. induction n; cbn [encounter_loop]; keeps_tac; auto. Qed.

Local Hint Resolve keeps_encounter_loop : keeps_db.

Lemma keeps_generate_encounters (self : ref) :
  keeps Inv (generate_encounters self).
Proof. unfold generate_encounters, np_random_poisson. keeps_tac. Qed.

Lemma keeps_care_for_cubs (self : ref) : keeps Inv (care_for_cubs self).
Proof.
  unfold care_for_cubs. keeps_tac.
Qed.

Local Hint Resolve keeps_generate_encounters keeps_care_for_cubs : keeps_db.

Lemma keeps_Bear_step (self : ref) : keeps Inv (Bear_step self).
Proof. unfold Bear_step. keeps_tac. Qed.

Lemma keeps_create_sheep (n : nat) (uid : Z) :
  keeps Inv (create_sheep n uid).
Proof. revert uid. induction n; intros uid; cbn [create_sheep]; keeps_tac; auto. Qed.

Lemma keeps_create_bears (n : nat) (beh : Behavior) (range uid : Z) :
  keeps Inv (create_bears n beh range uid).
Proof.
  revert uid. induction n; intros uid; cbn [create_bears]; keeps_tac; auto.
Qed.

Lemma keeps_run_op (o : Op) : keeps Inv (run_op o).
Proof. destruct o; cbn [run_op]; auto with keeps_db; apply keeps_Bear_step. Qed.
End Invariant.

(** ** Levels never go down *)

Lemma level_le_refl (h : list Bear) : level_le h h.
Proof. intros r b Hb. exists b. split; [assumption|lia]. Qed.

Lemma level_le_alloc (h0 h : list Bear) (b : Bear) :
  level_le h0 h -> level_le h0 (h ++ [b]).
Proof.
  intros H r b0 Hb0. destruct (H r b0 Hb0) as (x & Hx & Hl).
  exists x. split; [now apply lookup_app_l_Some|assumption].
Qed.

Lemma level_le_alter (h0 h : list Bear) (r : ref) (f : Bear -> Bear) :
  level_le h0 h -> gentle f -> level_le h0 (alter f r h).
Proof.
  intros H Hf r' b0 Hb0. destruct (H r' b0 Hb0) as (x & Hx & Hl).
  destruct (decide (r = r')) as [->|Hne].
  - exists (f x). rewrite list_lookup_alter_eq, Hx. split; [reflexivity|].
    destruct (Hf x) as [Hlv _]. lia.
  - exists x. rewrite list_lookup_alter_ne by assumption. now split.
Qed.

(** C6.  Whatever sequence of updates, hunts, combats, births and whole
    steps is run from a state, on whatever bears and with whatever draws,
    and whether it runs to its end or stops at an exception, every bear of
    the initial heap is still there afterwards with a level that is at
    least its initial level. *)
Theorem level_never_decreases (ops : list Op) (m : Model) :
  level_le (heap m) (heap (snd (for_each ops run_op m))).
Proof.
  apply (keeps_for_each (level_le (heap m)) ops run_op).
  - intros o.
    apply (keeps_run_op (level_le (heap m)) (fun _ => True)); auto.
    + intros. now apply level_le_alloc.
    + intros. now apply level_le_alter.
  - apply level_le_refl.
Qed.

(** ** The limits of every bear of a run *)

Lemma limits_ok_alter (h : list Bear) (r : ref) (f : Bear -> Bear) :
  Forall limits_ok h -> gentle f -> Forall limits_ok (alter f r h).
Proof.
  intros H Hf. apply Forall_alter; [assumption|].
  intros x _ Hx. destruct (Hf x) as (_ & E1 & E2 & E3 & E4).
  unfold limits_ok in *. now rewrite E1, E2, E3, E4.
Qed.

Lemma limits_ok_founder uid e beh mo u :
  limits_ok (new_bear uid e beh mo None u).
Proof. destruct beh; cbn; unfold limits_ok; cbn; lia. Qed.

Lemma limits_ok_cub uid e beh mo f m u :
  limits_ok f -> limits_ok m ->
  limits_ok (new_bear uid e beh mo (Some (f, m)) u).
Proof.
  unfold limits_ok. cbn. intros [Hf1 Hf2] [Hm1 Hm2].
  split; split;
    first [apply Z.div_le_lower_bound; lia
          | apply Z.div_lt_upper_bound; [lia|];
            match goal with
            | |- _ < 2 * (?a / 2) =>
                pose proof (Z.mod_pos_bound a 2 ltac:(lia));
                pose proof (Z.div_mod a 2 ltac:(lia)); lia
            end ].
Qed.

Lemma keeps_limits_ok {A} (c : M A) :
  (forall (Inv : list Bear -> Prop) (okb : Bear -> Prop),
      (forall h r b, Inv h -> h !! r = Some b -> okb b) ->
      (forall h b, Inv h -> okb b -> Inv (h ++ [b])) ->
      (forall h r f, Inv h -> gentle f -> Inv (alter f r h)) ->
      (forall uid e beh mo u, okb (new_bear uid e beh mo None u)) ->
      (forall uid e beh mo f m u,
          okb f -> okb m -> okb (new_bear uid e beh mo (Some (f, m)) u)) ->
      keeps Inv c) ->
  keeps (Forall limits_ok) c.
Proof.
  intros H. apply (H (Forall limits_ok) limits_ok).
  - intros h r b Hh Hb. eapply Forall_lookup_1; eauto.
  - intros h b Hh Hb. apply Forall_app. split; [assumption|].
    now apply Forall_singleton.
  - intros. now apply limits_ok_alter.
  - apply limits_ok_founder.
  - apply limits_ok_cub.
Qed.

Lemma init_limits_ok args ns nc na g :
  Forall limits_ok (heap (snd (BearSheepPredation__init__ args ns nc na g))).
Proof.
  unfold BearSheepPredation__init__.
  match goal with |- context [snd (?c ?m0)] =>
    apply (keeps_limits_ok c); [|apply Forall_nil_2] end.
  intros Inv okb H1 H2 H3 H4 H5.
  repeat (apply keeps_bind; [|intros ?]);
    first [ now apply (keeps_create_sheep Inv)
          | now apply (keeps_create_bears Inv okb)
          | apply keeps_same_heap; intros; reflexivity ].
Qed.

Lemma reachable_limits_ok (m : Model) :
  reachable m -> Forall limits_ok (heap m).
Proof.
  induction 1 as [args ns nc na g|m s _ IH|m s _ IH|m r _ IH].
  - apply init_limits_ok.
  - exact IH.
  - revert IH. apply (keeps_limits_ok (Sheep_step s)).
    intros. now apply (keeps_Sheep_step Inv).
  - revert IH. apply (keeps_limits_ok (Bear_step r)).
    intros. now apply (keeps_Bear_step Inv okb).
Qed.

(** C10.  In every state of a run, every bear of the heap, founder or
    descendant, has [lower_cub_limit >= 1] and
    [upper_cub_limit > lower_cub_limit]; so the draw of the litter size in
    [give_birth] does not raise and gives a number of cubs that is at least
    1 and within the limits, and the per-cub division divides by a number
    that is not zero. *)
Theorem litter_limits_of_reachable_bears (m : Model) (r : ref) (b : Bear) :
  reachable m ->
  heap m !! r = Some b ->
  1 <= lower_cub_limit b
  /\ lower_cub_limit b < upper_cub_limit b
  /\ exists cub_cnt,
       fst (rg_integers (lower_cub_limit b) (upper_cub_limit b) m)
       = Ok cub_cnt
       /\ 1 <= cub_cnt
       /\ lower_cub_limit b <= cub_cnt < upper_cub_limit b
       /\ ~ (inject_Z cub_cnt == 0)%Q.
Proof.
  intros Hr Hb.
  pose proof (Forall_lookup_1 _ _ _ _ (reachable_limits_ok m Hr) Hb)
    as [[H1 H2] _].
  split; [assumption|]. split; [assumption|].
  unfold rg_integers. destruct (Z.ltb_spec (lower_cub_limit b)
                                  (upper_cub_limit b)); [|lia].
  eexists. split; [reflexivity|].
  pose proof (Z.mod_pos_bound
                (Z.of_nat (rand_int (rng m) (int_pos (rng m))))
                (upper_cub_limit b - lower_cub_limit b) ltac:(lia)).
  split; [lia|]. split; [lia|].
  unfold Qeq. cbn. lia.
Qed.

Lemma litter_limits_of_reachable_bears_witness :
  1 <= lower_cub_limit (new_bear 1 (inject_Z 0) coward None None 0).
Proof.
  refine (proj1
    (litter_limits_of_reachable_bears
       (snd (BearSheepPredation__init__ default_params 0 1 0 silent))
       0%nat (new_bear 1 (inject_Z 0) coward None None 0)
       (reach_init default_params 0 1 0 silent) eq_refl)).
Defined.

(** ** Giving birth *)

Lemma bonded_step (r mother c : ref) (cs : list ref) (b : Bear) :
  bonded r mother cs
    ((if decide (c = r) then set_is_under_parental_care true else id)
       ((if decide (mother = r) then set_does_care_after_cubs true else id)
          b))
  = bonded r mother (c :: cs) b.
Proof.
  unfold bonded. destruct b as [i e bh under care mo l x lc uc lp up f cu pc].
  assert (Hcons : bool_decide (r = mother ∧ c :: cs ≠ [])
                  = bool_decide (r = mother))
    by (apply bool_decide_ext; split; [tauto|intros ->; split; congruence]).
  assert (Hin : bool_decide (r ∈ c :: cs)
                = bool_decide (r = c) || bool_decide (r ∈ cs)).
  { rewrite (bool_decide_ext _ _ (elem_of_cons cs r c)).
    apply bool_decide_or. }
  rewrite Hcons, Hin.
  destruct (decide (c = r)) as [->|Hc], (decide (mother = r)) as [->|Hm];
    cbn; unfold set_is_under_parental_care, set_does_care_after_cubs; cbn.
  - rewrite !bool_decide_eq_true_2 by reflexivity.
    now rewrite !orb_true_r.
  - rewrite (bool_decide_eq_true_2 (r = r)) by reflexivity.
    rewrite (bool_decide_eq_false_2 (r = mother)) by congruence.
    rewrite (bool_decide_eq_false_2 (r = mother ∧ _)) by (intros []; congruence).
    cbn. now rewrite !orb_false_r, !orb_true_r.
  - rewrite (bool_decide_eq_true_2 (r = r)) by reflexivity.
    rewrite (bool_decide_eq_false_2 (r = c)) by congruence.
    cbn. now rewrite !orb_true_r.
  - rewrite (bool_decide_eq_false_2 (r = c)) by congruence.
    rewrite (bool_decide_eq_false_2 (r = mother)) by congruence.
    rewrite (bool_decide_eq_false_2 (r = mother ∧ _)) by (intros []; congruence).
    reflexivity.
Qed.

Lemma bond_all_lookup mother cs h r :
  bond_all mother cs h !! r = bonded r mother cs <$> h !! r.
Proof.
  revert h. induction cs as [|c cs IH]; intros h.
  - cbn. destruct (h !! r) as [b|]; cbn; [|reflexivity].
    unfold bonded.
    rewrite (bool_decide_eq_false_2 (r ∈ [])) by apply not_elem_of_nil.
    rewrite (bool_decide_eq_false_2 (r = mother ∧ _))
      by (intros [_ H]; now apply H).
    rewrite !orb_false_r. now destruct b.
  - change (bond_all mother (c :: cs) h)
      with (bond_all mother cs
              (alter (set_is_under_parental_care true) c
                 (alter (set_does_care_after_cubs true) mother h))).
    rewrite IH, !list_lookup_alter.
    pose proof (bonded_step r mother c cs) as Hstep.
    destruct (decide (c = r)) as [->|Hc], (decide (mother = r)) as [->|Hm];
      destruct (h !! r) as [b|]; cbn; try reflexivity;
      now rewrite <- Hstep.
Qed.

Lemma bond_all_length mother cs h : length (bond_all mother cs h) = length h.
Proof.
  revert h. induction cs as [|c cs IH]; intros h; cbn; [reflexivity|].
  unfold bond_all in IH. now rewrite IH, !length_alter.
Qed.

Lemma schedule_add_bear_run {B} (r : ref) (k : unit -> M B) (m : Model) :
  bind (schedule_add_bear r) k m
  = k tt (set_schedule_bears (schedule_bears m ++ [r]) m).
Proof. reflexivity. Qed.

Lemma bond_all_run (mother : ref) (cs : list ref) (m : Model) :
  (is_female <$> heap m !! mother) = Some true ->
  Forall (fun c => (c < length (heap m))%nat) cs ->
  for_each cs
    (fun cub => bind (schedule_add_bear cub)
                  (fun _ => bond_with_cub mother cub)) m
  = (Ok tt,
     set_schedule_bears (schedule_bears m ++ cs)
       (set_heap (bond_all mother cs (heap m)) m)).
Proof.
  revert m. induction cs as [|c cs IH]; intros m Hf Hv.
  - cbn. rewrite app_nil_r. now destruct m.
  - apply Forall_cons in Hv as [Hc Hv]. cbn [for_each].
    destruct (heap m !! mother) as [mb|] eqn:Hm; [|discriminate].
    cbn in Hf. injection Hf as Hf.
    assert (Hstep :
      bind (schedule_add_bear c) (fun _ => bond_with_cub mother c) m
      = (Ok tt,
         set_schedule_bears (schedule_bears m ++ [c])
           (set_heap
              (alter (set_is_under_parental_care true) c
                 (alter (set_does_care_after_cubs true) mother (heap m)))
              m))).
    { rewrite schedule_add_bear_run. unfold bond_with_cub.
      rewrite (bind_run _ _ _ _ mb) by (apply get_bear_run; exact Hm).
      rewrite Hf. cbn [assert]. rewrite ret_run.
      erewrite bind_run;
        [|apply modify_bear_run; cbn; eapply lookup_lt_Some; eauto].
      rewrite modify_bear_run by (cbn; now rewrite length_alter).
      reflexivity. }
    rewrite (bind_run _ _ _ _ tt Hstep). rewrite IH.
    + cbn. now rewrite <- app_assoc.
    + cbn. rewrite !alter_preserves by reflexivity.
      rewrite Hm. cbn. now rewrite Hf.
    + cbn. now rewrite !length_alter.
Qed.

Lemma random_choice_pair_run {A B} (a b : A) (k : A -> M B) (m : Model) :
  exists x, (x = a \/ x = b)
    /\ bind (random_choice [a; b]) k m
       = k x (set_rng
                (mkRng (rand_real (rng m)) (real_pos (rng m))
                   (rand_int (rng m)) (S (int_pos (rng m)))) m).
Proof.
  unfold random_choice, next_int, bind. cbn [length].
  pose proof (Nat.mod_upper_bound (rand_int (rng m) (int_pos (rng m))) 2
                ltac:(lia)) as Hlt.
  destruct (rand_int (rng m) (int_pos (rng m)) mod 2)%nat as [|[|n]];
    [exists a | exists b | lia]; cbn; auto.
Qed.

Lemma Bear__init__run (uid : Z) (e : Q) (beh : Behavior) (f mo : ref)
    (fb mb : Bear) (m : Model) :
  heap m !! f = Some fb ->
  heap m !! mo = Some mb ->
  Bear__init__ uid e beh (Some f) (Some mo) m
  = (Ok (length (heap m)),
     set_heap
       (heap m
        ++ [new_bear uid e beh (Some mo) (Some (fb, mb))
              (rand_real (rng m) (real_pos (rng m)))])
       (set_rng
          (mkRng (rand_real (rng m)) (S (real_pos (rng m)))
             (rand_int (rng m)) (int_pos (rng m))) m)).
Proof.
  intros Hf Hm. unfold Bear__init__.
  erewrite bind_run.
  2:{ rewrite (bind_run _ _ _ _ fb) by (apply get_bear_run; exact Hf).
      rewrite (bind_run _ _ _ _ mb) by (apply get_bear_run; exact Hm).
      reflexivity. }
  reflexivity.
Qed.

Lemma generate_id_run {B} (k : Z -> M B) (m : Model) :
  bind generate_id k m
  = k (model_unique_id m + 1)
      (set_model_unique_id (model_unique_id m + 1) m).
Proof. reflexivity. Qed.

Lemma make_cubs_run (self father : ref) (cub_cnt : Z) (sb fb : Bear)
    (n : nat) (m : Model) :
  heap m !! self = Some sb ->
  heap m !! father = Some fb ->
  exists bs m',
    make_cubs n self father cub_cnt m = (Ok (seq (length (heap m)) n), m')
    /\ heap m' = heap m ++ bs
    /\ length bs = n
    /\ Forall (newborn_of self sb fb cub_cnt) bs
    /\ schedule_bears m' = schedule_bears m
    /\ schedule_sheep m' = schedule_sheep m
    /\ trace m' = trace m
    /\ params m' = params m
    /\ season m' = season m
    /\ rand_int (rng m') = rand_int (rng m)
    /\ int_pos (rng m') = (int_pos (rng m) + n)%nat
    /\ model_unique_id m' = model_unique_id m + Z.of_nat n.
Proof.
  revert m. induction n as [|n IH]; intros m Hs Hf.
  - exists [], m. cbn. rewrite app_nil_r, Nat.add_0_r, Z.add_0_r.
    repeat split; auto.
  - cbn [make_cubs]. rewrite generate_id_run.
    rewrite (bind_run _ _ _ _ sb) by (apply get_bear_run; exact Hs).
    rewrite (bind_run _ _ _ _ fb) by (apply get_bear_run; exact Hf).
    match goal with |- context [bind (random_choice ?l) ?k ?st] =>
      destruct (random_choice_pair_run (behavior fb) (behavior sb) k st)
        as (beh & Hbeh & ->) end.
    erewrite bind_run; [|apply (Bear__init__run _ _ _ _ _ fb sb); assumption].
    match goal with |- context [bind (make_cubs n _ _ _) _ ?st] =>
      destruct (IH st) as (bs & m' & Hrun & Hh & Hl & Hall & H1 & H2 & H3
                           & H4 & H5 & H6 & H7 & H8) end.
    { cbn. now apply lookup_app_l_Some. }
    { cbn. now apply lookup_app_l_Some. }
    rewrite (bind_run _ _ _ _ _ Hrun). cbn in *.
    eexists (_ :: bs), m'. rewrite Hh, <- app_assoc. cbn.
    rewrite length_app, Nat.add_1_r in *. cbn.
    split; [reflexivity|]. split; [reflexivity|]. split; [now rewrite Hl|].
    split.
    { constructor; [|assumption]. unfold newborn_of. cbn.
      repeat split; try reflexivity. destruct Hbeh; subst; auto. }
    repeat split; try assumption; lia.
Qed.

Lemma rg_integers_run {B} (low high : Z) (k : Z -> M B) (m : Model) :
  low < high ->
  bind (rg_integers low high) k m
  = k (low + Z.of_nat (rand_int (rng m) (int_pos (rng m))) mod (high - low))
      (set_rng
         (mkRng (rand_real (rng m)) (real_pos (rng m))
            (rand_int (rng m)) (S (int_pos (rng m)))) m).
Proof.
  intros H. unfold rg_integers.
  destruct (Z.ltb_spec low high); [reflexivity | lia].
Qed.


(** The state [give_birth] leaves, and what it returns. *)
Lemma give_birth_run (m : Model) (self father : ref) (sb : Bear) :
  heap m !! self = Some sb ->
  (father < length (heap m))%nat ->
  is_female sb = true ->
  lower_cub_limit sb < upper_cub_limit sb ->
  lower_parental_care_limit sb < upper_parental_care_limit sb ->
  let cub_cnt :=
    lower_cub_limit sb
    + Z.of_nat (rand_int (rng m) (int_pos (rng m)))
      mod (upper_cub_limit sb - lower_cub_limit sb) in
  let n := Z.to_nat cub_cnt in
  let new_cubs := seq (length (heap m)) n in
  let countdown :=
    lower_parental_care_limit sb
    + Z.of_nat (rand_int (rng m) (S (int_pos (rng m)) + n))
      mod (upper_parental_care_limit sb - lower_parental_care_limit sb) in
  let mum :=
    set_parental_care_countdown countdown
      (set_cubs new_cubs (set_energy (energy sb / 2)%Q sb)) in
  exists bs fb m',
    give_birth self father m = (Ok tt, m')
    /\ length bs = n
    /\ Forall (newborn_of self (set_energy (energy sb / 2)%Q sb) fb cub_cnt)
         bs
    /\ heap m'
       = bond_all self new_cubs (<[self := mum]> (heap m) ++ bs)
    /\ schedule_bears m' = schedule_bears m ++ new_cubs
    /\ schedule_sheep m' = schedule_sheep m
    /\ trace m' = trace m
    /\ model_unique_id m' = model_unique_id m + Z.of_nat n.
Proof.
  intros Hs Hfa Hfem Hc Hp. cbn zeta.
  assert (Hslt : (self < length (heap m))%nat)
    by (eapply lookup_lt_Some; eauto).
  unfold give_birth.
  rewrite (bind_run _ _ _ _ sb) by (apply get_bear_run; exact Hs).
  rewrite rg_integers_run by assumption.
  set (cub_cnt := lower_cub_limit sb + _).
  rewrite modify_bear_bind_run by exact Hslt.
  set (m2 := set_heap _ _).
  assert (Hs2 : heap m2 !! self = Some (set_energy (energy sb / 2)%Q sb))
    by (cbn; now rewrite list_lookup_alter_eq, Hs).
  destruct (lookup_lt_is_Some_2 (heap m2) father) as [fb Hf2];
    [cbn; now rewrite length_alter|].
  destruct (make_cubs_run self father cub_cnt _ fb (Z.to_nat cub_cnt) m2
              Hs2 Hf2)
    as (bs & m3 & Hrun & Hh & Hl & Hall & H1 & H2 & H3 & H4 & H5 & H6 & H7
        & H8).
  rewrite (bind_run _ _ _ _ _ Hrun).
  assert (Hlen2 : length (heap m2) = length (heap m))
    by (cbn; apply length_alter).
  rewrite Hlen2 in *.
  set (new_cubs := seq (length (heap m)) (Z.to_nat cub_cnt)).
  assert (Hslt3 : (self < length (heap m3))%nat)
    by (rewrite Hh, length_app; lia).
  rewrite modify_bear_bind_run by exact Hslt3.
  set (m4 := set_heap _ m3).
  assert (Hs4 : heap m4 !! self
                = Some (set_cubs new_cubs (set_energy (energy sb / 2)%Q sb))).
  { cbn. rewrite list_lookup_alter_eq, Hh, lookup_app_l by lia.
    now rewrite Hs2. }
  rewrite (bind_run _ _ _ _ _ (get_bear_run _ _ _ Hs4)).
  rewrite rg_integers_run by exact Hp.
  rewrite modify_bear_bind_run by (cbn; now rewrite length_alter).
  match goal with |- context [for_each _ _ ?st] => set (m5 := st) end.
  assert (Hh5 : heap m5
                = <[self := set_parental_care_countdown
                      (lower_parental_care_limit sb
                       + Z.of_nat (rand_int (rng m3) (int_pos (rng m3)))
                         mod (upper_parental_care_limit sb
                              - lower_parental_care_limit sb))
                      (set_cubs new_cubs (set_energy (energy sb / 2)%Q sb))]>
                    (heap m) ++ bs).
  { cbn. rewrite Hh. cbn.
    rewrite !alter_app_l by (rewrite ?length_alter; lia).
    f_equal. apply list_eq. intros i.
    destruct (decide (i = self)) as [->|Hne].
    - rewrite !list_lookup_alter_eq, list_lookup_insert_eq by lia.
      now rewrite Hs.
    - rewrite !list_lookup_alter_ne, list_lookup_insert_ne by congruence.
      reflexivity. }
  rewrite bond_all_run.
  - exists bs, fb, (set_schedule_bears (schedule_bears m5 ++ new_cubs)
                      (set_heap (bond_all self new_cubs (heap m5)) m5)).
    split; [reflexivity|]. split; [exact Hl|]. split; [exact Hall|].
    cbn [heap set_heap set_schedule_bears schedule_bears schedule_sheep
         trace model_unique_id].
    rewrite Hh5, H6, H7. cbn in H7 |- *.
    replace (S (int_pos (rng m)) + Z.to_nat cub_cnt)%nat
      with (S (int_pos (rng m) + Z.to_nat cub_cnt)) by lia.
    split; [reflexivity|].
    cbn. rewrite H1, H2, H3, H8. cbn. repeat split; reflexivity.
  - rewrite Hh5, lookup_app_l, list_lookup_insert_eq
      by (rewrite ?length_insert; lia).
    cbn. now rewrite Hfem.
  - apply Forall_forall. intros c Hc'. apply list_elem_of_In, in_seq in Hc'.
    rewrite Hh5, length_app, length_insert. lia.
Qed.

(** C8.  [give_birth] on a female whose two intervals are not empty and
    whose litters start at 1.  It does not raise.  The litter size is the
    integer the oracle picks in [[lower_cub_limit, upper_cub_limit)]; the
    mother's energy is halved; the cubs are new objects, as many as the
    litter size, each with the halved energy divided by the litter size and
    the mother as [mother]; they are appended to the schedule and recorded
    in the mother's [cubs]; afterwards the mother cares for cubs and every
    cub is under parental care. *)
Theorem give_birth_spec (m : Model) (self father : ref) (sb : Bear) :
  heap m !! self = Some sb ->
  (father < length (heap m))%nat ->
  is_female sb = true ->
  1 <= lower_cub_limit sb < upper_cub_limit sb ->
  lower_parental_care_limit sb < upper_parental_care_limit sb ->
  let cub_cnt :=
    lower_cub_limit sb
    + Z.of_nat (rand_int (rng m) (int_pos (rng m)))
      mod (upper_cub_limit sb - lower_cub_limit sb) in
  let new_cubs := seq (length (heap m)) (Z.to_nat cub_cnt) in
  let out := give_birth self father m in
  let after := fun {A} (field : Bear -> A) (r : ref) =>
                 field <$> heap (snd out) !! r in
  fst out = Ok tt
  /\ lower_cub_limit sb <= cub_cnt < upper_cub_limit sb
  /\ length new_cubs = Z.to_nat cub_cnt
  /\ after energy self = Some (energy sb / 2)%Q
  /\ after does_care_after_cubs self = Some true
  /\ after cubs self = Some new_cubs
  /\ schedule_bears (snd out) = schedule_bears m ++ new_cubs
  /\ Forall
       (fun c =>
          exists cb, heap (snd out) !! c = Some cb
            /\ energy cb = (energy sb / 2 / inject_Z cub_cnt)%Q
            /\ is_under_parental_care cb = true
            /\ mother cb = Some self)
       new_cubs.
Proof.
  intros Hs Hfa Hfem [Hc1 Hc2] Hp. cbn zeta.
  destruct (give_birth_run m self father sb Hs Hfa Hfem Hc2 Hp)
    as (bs & fb & m' & Hrun & Hl & Hall & Hh & Hsch & _).
  cbn zeta in *. rewrite Hrun. cbn [fst snd]. rewrite Hh, Hsch.
  set (cub_cnt := lower_cub_limit sb + _) in *.
  set (new_cubs := seq _ _) in *.
  assert (Hslt : (self < length (heap m))%nat)
    by (eapply lookup_lt_Some; eauto).
  pose proof (Z.mod_pos_bound
                (Z.of_nat (rand_int (rng m) (int_pos (rng m))))
                (upper_cub_limit sb - lower_cub_limit sb) ltac:(lia)) as Hmod.
  assert (Hcnt : lower_cub_limit sb <= cub_cnt < upper_cub_limit sb)
    by (unfold cub_cnt; lia).
  assert (Hne : new_cubs ≠ []).
  { unfold new_cubs. destruct (Z.to_nat cub_cnt) eqn:E; [lia|]. discriminate. }
  split; [reflexivity|]. split; [exact Hcnt|].
  split; [apply length_seq|].
  rewrite !bond_all_lookup, !lookup_app_l, !list_lookup_insert_eq
    by (rewrite ?length_insert; lia).
  cbn. split; [reflexivity|].
  split; [rewrite bool_decide_eq_true_2 by (split; auto);
          now rewrite orb_true_r|].
  split; [reflexivity|]. split; [reflexivity|].
  apply Forall_forall. intros c Hin.
  pose proof Hin as Hin'. apply list_elem_of_In, in_seq in Hin'.
  rewrite bond_all_lookup, lookup_app_r by (rewrite length_insert; lia).
  rewrite length_insert.
  destruct (lookup_lt_is_Some_2 bs (c - length (heap m))) as [cb Hcb];
    [lia|].
  rewrite Hcb. cbn.
  destruct (Forall_lookup_1 _ _ _ _ Hall Hcb) as (E1 & E2 & E3 & E4 & _).
  eexists. split; [reflexivity|]. cbn.
  split; [exact E1|]. split; [|exact E4].
  rewrite (bool_decide_eq_true_2 _ Hin). apply orb_true_r.
Qed.

Lemma give_birth_spec_witness : fst (give_birth 0%nat 1%nat couple) = Ok tt.
Proof.
  refine (proj1
    (give_birth_spec couple 0%nat 1%nat
       (mkBear 1 12 coward false false None 1 0 1 5 8 17 true [] 0)
       eq_refl _ eq_refl _ _)).
  - cbn. lia.
  - cbn. lia.
  - cbn. lia.
Defined.

(** * Further properties of the code *)

(** ** The staircase of levels *)

(** X1.  When the threshold function dominates the identity, as the
    exponential does, [update] leaves its loop by the loop's condition: it
    never raises, it changes nothing but the level of the bear, and the new
    level is the first level, from the old one upwards, whose threshold
    [np_exp (level + 1)] the experience does not exceed. *)
Theorem update_stops_at_the_first_step (m : Model) (self : ref) (b : Bear) :
  heap m !! self = Some b ->
  (forall l, inject_Z l <= np_exp (params m) l)%Q ->
  exists L,
    update self m = (Ok tt, set_heap (alter (set_level L) self (heap m)) m)
    /\ level b <= L
    /\ Qltb (np_exp (params m) (L + 1)) (accumulated_xp b) = false
    /\ forall l, level b <= l < L ->
         Qltb (np_exp (params m) (l + 1)) (accumulated_xp b) = true.
Proof. exact (update_reaches_the_staircase m self b). Qed.


Lemma update_stops_at_the_first_step_witness :
  exists L,
    update 0%nat veteran
    = (Ok tt, set_heap (alter (set_level L) 0%nat (heap veteran)) veteran)
    /\ 1 <= L.
Proof.
  destruct (update_stops_at_the_first_step veteran 0%nat
              (adult coward 5 false 1 100) eq_refl powers_of_two_dominate)
    as (L & H1 & H2 & _).
  exists L. split; [exact H1 | exact H2].
Defined.

(** X2.  A second [update] right after the first changes nothing: the level
    is already on its step. *)
Theorem update_twice (m : Model) (self : ref) (b : Bear) :
  heap m !! self = Some b ->
  (forall l, inject_Z l <= np_exp (params m) l)%Q ->
  update self (snd (update self m)) = (Ok tt, snd (update self m)).
Proof.
  intros Hb Hexp.
  destruct (update_reaches_the_staircase m self b Hb Hexp)
    as (L & Hrun & HL & Hstop & _).
  rewrite Hrun. cbn [snd].
  destruct (update_reaches_the_staircase
              (set_heap (alter (set_level L) self (heap m)) m) self
              (set_level L b))
    as (L' & Hrun' & HL' & _ & Hbelow').
  { cbn. now rewrite list_lookup_alter_eq, Hb. }
  { exact Hexp. }
  cbn in HL', Hbelow'.
  assert (L' = L) as ->.
  { destruct (Z.eq_dec L' L) as [|Hne]; [assumption|].
    specialize (Hbelow' L ltac:(lia)). congruence. }
  rewrite Hrun'. cbn [heap set_heap]. rewrite list_alter_alter_eq.
  reflexivity.
Qed.

Lemma update_twice_witness :
  update 0%nat (snd (update 0%nat veteran))
  = (Ok tt, snd (update 0%nat veteran)).
Proof.
  exact (update_twice veteran 0%nat (adult coward 5 false 1 100) eq_refl
           powers_of_two_dominate).
Defined.

(** ** What the operations leave alone *)

Lemma keeps_get_bear (Inv : list Bear -> Prop) (r : ref) :
  keeps Inv (get_bear r).
Proof.
  apply keeps_same_heap. intros m. unfold get_bear.
  now destruct (heap m !! r).
Qed.

Lemma kept_refl {X} (proj : Bear -> X) (h : list Bear) : kept proj h h.
Proof. intros r b Hb. now exists b. Qed.

Section Frame.
Context {X : Type}.
Variable proj : Bear -> X.
Variable h0 : list Bear.
Hypothesis proj_energy : forall v b, proj (set_energy v b) = proj b.
Hypothesis proj_under :
  forall v b, proj (set_is_under_parental_care v b) = proj b.
Hypothesis proj_care :
  forall v b, proj (set_does_care_after_cubs v b) = proj b.
Hypothesis proj_level : forall v b, proj (set_level v b) = proj b.
Hypothesis proj_xp : forall v b, proj (set_accumulated_xp v b) = proj b.
Hypothesis proj_cubs : forall v b, proj (set_cubs v b) = proj b.
Hypothesis proj_countdown :
  forall v b, proj (set_parental_care_countdown v b) = proj b.

Lemma frame_modify_bear (r : ref) (f : Bear -> Bear) :
  (forall b, proj (f b) = proj b) ->
  keeps (kept proj h0) (modify_bear r f).
Proof.
  intros Hf m H. unfold modify_bear.
  destruct (heap m !! r); cbn; [|assumption].
  intros r' b0 Hb0. destruct (H r' b0 Hb0) as (x & Hx & E).
  destruct (decide (r' = r)) as [->|Hne].
  - exists (f x). rewrite list_lookup_alter_eq, Hx. cbn.
    split; [reflexivity|]. now rewrite Hf.
  - exists x. rewrite list_lookup_alter_ne by congruence. now split.
Qed.

Lemma frame_alloc_bear (b : Bear) : keeps (kept proj h0) (alloc_bear b).
Proof.
  intros m H r b0 Hb0. destruct (H r b0 Hb0) as (x & Hx & E).
  exists x. cbn. split; [now apply lookup_app_l_Some|assumption].
Qed.

Ltac frame_tac :=
  repeat (cbn zeta; first
    [ apply keeps_ret
    | apply keeps_raise
    | apply keeps_get_bear
    | solve [auto with keeps_db]
    | apply keeps_for_each; intros ?
    | apply keeps_bind; [|intros ?]
    | apply frame_modify_bear; intros ?; solve [auto]
    | apply frame_alloc_bear
    | match goal with
      | |- keeps _ (if ?c then _ else _) => destruct c
      | |- keeps _ (match ?x with _ => _ end) => destruct x
      end
    | solve [apply keeps_same_heap; intros; reflexivity] ]).

Local Hint Resolve keeps_assert keeps_random_choice keeps_random_randrange
  keeps_rg_integers keeps_schedule_remove_bear keeps_schedule_remove_sheep
  keeps_Sheep_step keeps_Sheep_die : keeps_db.

Lemma frame_bond_with_cub (mother cub : ref) :
  keeps (kept proj h0) (bond_with_cub mother cub).
Proof. unfold bond_with_cub. frame_tac. Qed.

Lemma frame_chase_cub_away (mother cub : ref) :
  keeps (kept proj h0) (chase_cub_away mother cub).
Proof. unfold chase_cub_away. frame_tac. Qed.

Lemma frame_attempt_to_mate (male female : ref) :
  keeps (kept proj h0) (attempt_to_mate male female).
Proof. unfold attempt_to_mate. frame_tac. Qed.

Lemma frame_Bear__init__ (uid : Z) (e : Q) (beh : Behavior)
    (father mother : option ref) :
  keeps (kept proj h0) (Bear__init__ uid e beh father mother).
Proof. unfold Bear__init__. frame_tac. Qed.

Lemma frame_update_loop (fuel : nat) (self : ref) :
  keeps (kept proj h0) (update_loop fuel self).
Proof. induction fuel; cbn [update_loop]; frame_tac; auto. Qed.

Local Hint Resolve frame_bond_with_cub frame_chase_cub_away
  frame_attempt_to_mate frame_Bear__init__ frame_update_loop : keeps_db.

Lemma frame_update (self : ref) : keeps (kept proj h0) (update self).
Proof. unfold update. frame_tac. Qed.

Lemma frame_Bear_die (self : ref) : keeps (kept proj h0) (Bear_die self).
Proof. unfold Bear_die. frame_tac. Qed.

Local Hint Resolve frame_update frame_Bear_die : keeps_db.

Lemma frame_attack (self other : ref) :
  keeps (kept proj h0) (attack self other).
Proof. unfold attack, rg_exponential. frame_tac. Qed.

Lemma frame_hunt (self : ref) (sheep : Z) (assistant : option ref) :
  keeps (kept proj h0) (hunt self sheep assistant).
Proof. unfold hunt. frame_tac. Qed.

Lemma frame_make_cubs (n : nat) (self father : ref) (cub_cnt : Z) :
  keeps (kept proj h0) (make_cubs n self father cub_cnt).
Proof. induction n; cbn [make_cubs]; frame_tac; auto. Qed.

Local Hint Resolve frame_attack frame_hunt frame_make_cubs : keeps_db.

Lemma frame_give_birth (self father : ref) :
  keeps (kept proj h0) (give_birth self father).
Proof. unfold give_birth. frame_tac. Qed.

Local Hint Resolve frame_give_birth : keeps_db.

Lemma frame_encounter (self : ref) : keeps (kept proj h0) (encounter self).
Proof. unfold encounter. frame_tac. Qed.

Local Hint Resolve frame_encounter : keeps_db.

Lemma frame_encounter_loop (n : nat) (self : ref) :
  keeps (kept proj h0) (encounter_loop n self).
Proof. induction n; cbn [encounter_loop]; frame_tac; auto. Qed.

Local Hint Resolve frame_encounter_loop : keeps_db.

Lemma frame_generate_encounters (self : ref) :
  keeps (kept proj h0) (generate_encounters self).
Proof. unfold generate_encounters, np_random_poisson. frame_tac. Qed.

Lemma frame_care_for_cubs (self : ref) :
  keeps (kept proj h0) (care_for_cubs self).
Proof. unfold care_for_cubs. frame_tac. Qed.

Local Hint Resolve frame_generate_encounters frame_care_for_cubs : keeps_db.

Lemma frame_Bear_step (self : ref) : keeps (kept proj h0) (Bear_step self).
Proof. unfold Bear_step. frame_tac. Qed.

Lemma frame_run_op (o : Op) : keeps (kept proj h0) (run_op o).
Proof.
  destruct o; cbn [run_op]; auto with keeps_db; apply frame_Bear_step.
Qed.
End Frame.

(** X3.  Whatever operations run, in whatever order, every bear stays in
    the heap and keeps the attributes it was created with: its id, its
    behavior, its sex, its mother and its four limits. *)
Theorem birthmarks_never_change (ops : list Op) (m : Model) :
  kept birthmarks (heap m) (heap (snd (for_each ops run_op m))).
Proof.
  apply (keeps_for_each (kept birthmarks (heap m)) ops run_op).
  - intros o. apply frame_run_op; reflexivity.
  - apply kept_refl.
Qed.

(** X4.  Neither a hunt nor a fight changes the energy of any bear,
    whatever their outcome: catching a sheep brings experience, the
    parameter [bear_gain_from_food] is not credited. *)
Theorem hunting_and_fighting_leave_the_energy (m : Model) (self other : ref)
    (sheep : Z) (assistant : option ref) :
  kept energy (heap m) (heap (snd (hunt self sheep assistant m)))
  /\ kept energy (heap m) (heap (snd (attack self other m))).
Proof.
  split.
  - apply (frame_hunt energy (heap m)); try reflexivity. apply kept_refl.
  - apply (frame_attack energy (heap m)); try reflexivity. apply kept_refl.
Qed.

(** ** The limits of the bears of a run *)

Lemma limits_tight_alter (h : list Bear) (r : ref) (f : Bear -> Bear) :
  Forall limits_tight h -> gentle f -> Forall limits_tight (alter f r h).
Proof.
  intros H Hf. apply Forall_alter; [assumption|].
  intros x _ Hx. destruct (Hf x) as (_ & E1 & E2 & E3 & E4).
  unfold limits_tight in *. now rewrite E1, E2, E3, E4.
Qed.

Lemma limits_tight_founder uid e beh mo u :
  limits_tight (new_bear uid e beh mo None u).
Proof. destruct beh; cbn; unfold limits_tight; cbn; lia. Qed.

Lemma limits_tight_cub uid e beh mo f m u :
  limits_tight f -> limits_tight m ->
  limits_tight (new_bear uid e beh mo (Some (f, m)) u).
Proof.
  unfold limits_tight. cbn. intros (F1 & F2 & F3 & F4) (M1 & M2 & M3 & M4).
  rewrite F1, M1. split; [reflexivity|].
  repeat split;
    first [apply Z.div_le_lower_bound; lia
          | apply Z.div_le_upper_bound; lia].
Qed.

Lemma keeps_limits_tight {A} (c : M A) :
  (forall (Inv : list Bear -> Prop) (okb : Bear -> Prop),
      (forall h r b, Inv h -> h !! r = Some b -> okb b) ->
      (forall h b, Inv h -> okb b -> Inv (h ++ [b])) ->
      (forall h r f, Inv h -> gentle f -> Inv (alter f r h)) ->
      (forall uid e beh mo u, okb (new_bear uid e beh mo None u)) ->
      (forall uid e beh mo f m u,
          okb f -> okb m -> okb (new_bear uid e beh mo (Some (f, m)) u)) ->
      keeps Inv c) ->
  keeps (Forall limits_tight) c.
Proof.
  intros H. apply (H (Forall limits_tight) limits_tight).
  - intros h r b Hh Hb. eapply Forall_lookup_1; eauto.
  - intros h b Hh Hb. apply Forall_app. split; [assumption|].
    now apply Forall_singleton.
  - intros. now apply limits_tight_alter.
  - apply limits_tight_founder.
  - apply limits_tight_cub.
Qed.

Lemma reachable_limits_tight (m : Model) :
  reachable m -> Forall limits_tight (heap m).
Proof.
  induction 1 as [args ns nc na g|m s _ IH|m s _ IH|m r _ IH].
  - unfold BearSheepPredation__init__.
    match goal with |- context [snd (?c ?m0)] =>
      apply (keeps_limits_tight c); [|apply Forall_nil_2] end.
    intros Inv okb H1 H2 H3 H4 H5.
    repeat (apply keeps_bind; [|intros ?]);
      first [ now apply (keeps_create_sheep Inv)
            | now apply (keeps_create_bears Inv okb)
            | apply keeps_same_heap; intros; reflexivity ].
  - exact IH.
  - revert IH. apply (keeps_limits_tight (Sheep_step s)).
    intros. now apply (keeps_Sheep_step Inv).
  - revert IH. apply (keeps_limits_tight (Bear_step r)).
    intros. now apply (keeps_Bear_step Inv okb).
Qed.

(** X5.  In every state of a run the limits of every bear lie in the
    ranges of the two default rows: [lower_cub_limit] is 1,
    [upper_cub_limit] is between 5 and 7, [lower_parental_care_limit]
    between 1 and 8 and [upper_parental_care_limit] between 9 and 17.  So
    neither draw of [give_birth] raises, whatever the generator answers: a
    litter has between 1 and 6 cubs and the countdown of the parental care
    starts between 1 and 16. *)
Theorem litters_and_countdowns_of_a_run (m g : Model) (r : ref) (b : Bear) :
  reachable m ->
  heap m !! r = Some b ->
  lower_cub_limit b = 1
  /\ 5 <= upper_cub_limit b <= 7
  /\ 1 <= lower_parental_care_limit b <= 8
  /\ 9 <= upper_parental_care_limit b <= 17
  /\ (exists cub_cnt,
         fst (rg_integers (lower_cub_limit b) (upper_cub_limit b) g)
         = Ok cub_cnt
         /\ 1 <= cub_cnt <= 6)
  /\ (exists countdown,
         fst (rg_integers (lower_parental_care_limit b)
                (upper_parental_care_limit b) g)
         = Ok countdown
         /\ 1 <= countdown <= 16).
Proof.
  intros Hr Hb.
  pose proof (Forall_lookup_1 _ _ _ _ (reachable_limits_tight m Hr) Hb)
    as (H1 & H2 & H3 & H4).
  split; [exact H1|]. split; [exact H2|]. split; [exact H3|].
  split; [exact H4|].
  unfold rg_integers. split.
  - destruct (Z.ltb_spec (lower_cub_limit b) (upper_cub_limit b)); [|lia].
    eexists. split; [reflexivity|].
    pose proof (Z.mod_pos_bound
                  (Z.of_nat (rand_int (rng g) (int_pos (rng g))))
                  (upper_cub_limit b - lower_cub_limit b) ltac:(lia)).
    lia.
  - destruct (Z.ltb_spec (lower_parental_care_limit b)
                (upper_parental_care_limit b)); [|lia].
    eexists. split; [reflexivity|].
    pose proof (Z.mod_pos_bound
                  (Z.of_nat (rand_int (rng g) (int_pos (rng g))))
                  (upper_parental_care_limit b
                   - lower_parental_care_limit b) ltac:(lia)).
    lia.
Qed.

Lemma litters_and_countdowns_of_a_run_witness :
  5 <= upper_cub_limit (new_bear 1 (inject_Z 0) coward None None 0) <= 7.
Proof.
  refine (proj1 (proj2
    (litters_and_countdowns_of_a_run
       (snd (BearSheepPredation__init__ default_params 0 1 0 silent))
       couple 0%nat (new_bear 1 (inject_Z 0) coward None None 0)
       (reach_init default_params 0 1 0 silent) eq_refl))).
Defined.

(** ** Hunting and dying *)
Lemma next_real_run {B} (k : Q -> M B) (m : Model) :
  bind random_random k m
  = k (rand_real (rng m) (real_pos (rng m)))
      (set_rng
         (mkRng (rand_real (rng m)) (S (real_pos (rng m)))
            (rand_int (rng m)) (int_pos (rng m))) m).
Proof. reflexivity. Qed.

Lemma Sheep_die_run (m : Model) (sheep : Z) :
  sheep ∈ schedule_sheep m ->
  Sheep_die sheep m
  = (Ok tt,
     set_schedule_sheep
       (List.filter (fun x => negb (Z.eqb sheep x)) (schedule_sheep m)) m).
Proof.
  intros H. unfold Sheep_die, schedule_remove_sheep.
  assert (existsb (Z.eqb sheep) (schedule_sheep m) = true) as ->;
    [|reflexivity].
  apply existsb_exists. exists sheep. split; [|apply Z.eqb_refl].
  now apply list_elem_of_In.
Qed.

Lemma hunt_run (m : Model) (self : ref) (sheep : Z)
    (assistant : option ref) (sb : Bear) (ab : option Bear) :
  heap m !! self = Some sb ->
  match assistant with
  | Some a => Some <$> heap m !! a
  | None => Some None
  end = Some ab ->
  sheep ∈ schedule_sheep m ->
  let caught :=
    Qltb (rand_real (rng m) (real_pos (rng m)))
      (hunt_success_chance (params m) * inject_Z (hunt_level sb ab))%Q in
  exists L,
    level sb <= L
    /\ hunt self sheep assistant m
       = (Ok tt,
          mkModel (params m) (season m) (model_unique_id m)
            (alter
               (fun b =>
                  set_level L
                    (if caught
                     then set_accumulated_xp
                            (accumulated_xp b + xp_for_sheep (params m))%Q b
                     else b))
               self (heap m))
            (schedule_bears m)
            (if caught
             then List.filter (fun x => negb (Z.eqb sheep x))
                    (schedule_sheep m)
             else schedule_sheep m)
            (mkRng (rand_real (rng m)) (S (real_pos (rng m)))
               (rand_int (rng m)) (int_pos (rng m)))
            (trace m)).
Proof.
  intros Hb Hab Hs caught. unfold hunt.
  rewrite (bind_run _ _ _ _ _ (get_bear_run _ _ _ Hb)).
  assert ((match assistant with
           | Some a => let* x := get_bear a in ret (Some x)
           | None => ret None
           end) m = (Ok ab, m)) as Ha.
  { destruct assistant as [a|].
    - destruct (heap m !! a) as [x|] eqn:Hx; [|discriminate].
      injection Hab as <-. unfold bind. now rewrite (get_bear_run _ _ _ Hx).
    - now injection Hab as <-. }
  rewrite (bind_run _ _ _ _ _ Ha), get_model_run, next_real_run.
  fold caught. destruct caught eqn:Hc.
  - unfold bind at 1. unfold bind at 1.
    rewrite modify_bear_run by (eapply lookup_lt_Some; eauto).
    rewrite Sheep_die_run by exact Hs.
    cbn [set_heap set_rng set_schedule_sheep heap rng params season
           model_unique_id schedule_bears schedule_sheep trace].
    match goal with |- context [update self ?st] =>
      destruct (update_run st self
                  (set_accumulated_xp
                     (accumulated_xp sb + xp_for_sheep (params m))%Q sb))
        as (L & HL & Hrun) end.
    { cbn. now rewrite list_lookup_alter_eq, Hb. }
    exists L. split; [exact HL|]. rewrite Hrun. cbn.
    now rewrite list_alter_alter_eq.
  - unfold bind at 1. cbn [ret].
    match goal with |- context [update self ?st] =>
      destruct (update_run st self sb) as (L & HL & Hrun) end.
    { exact Hb. }
    exists L. split; [exact HL|]. rewrite Hrun. reflexivity.
Qed.

(** X6.  A hunt of a registered sheep by a bear of the heap, alone or with
    an assistant of the heap, returns.  When the draw is below
    [hunt_success_chance] times the level of the party, the hunter gains
    exactly [xp_for_sheep] and the sheep leaves the registry; otherwise
    experience and registry stay as they are.  In both cases [update] then
    brings the hunter to the first level, from its old one upwards, whose
    threshold the experience it now has does not exceed (for thresholds
    that dominate the identity, as the exponential does); nothing else
    changes and one uniform draw is consumed. *)
Theorem hunt_outcome (m : Model) (self : ref) (sheep : Z)
    (assistant : option ref) (sb : Bear) (ab : option Bear) :
  heap m !! self = Some sb ->
  match assistant with
  | Some a => Some <$> heap m !! a
  | None => Some None
  end = Some ab ->
  sheep ∈ schedule_sheep m ->
  (forall l, inject_Z l <= np_exp (params m) l)%Q ->
  let caught :=
    Qltb (rand_real (rng m) (real_pos (rng m)))
      (hunt_success_chance (params m) * inject_Z (hunt_level sb ab))%Q in
  let xp :=
    if caught then (accumulated_xp sb + xp_for_sheep (params m))%Q
    else accumulated_xp sb in
  exists L,
    hunt self sheep assistant m
    = (Ok tt,
       mkModel (params m) (season m) (model_unique_id m)
         (alter
            (fun b =>
               set_level L
                 (if caught
                  then set_accumulated_xp
                         (accumulated_xp b + xp_for_sheep (params m))%Q b
                  else b))
            self (heap m))
         (schedule_bears m)
         (if caught
          then List.filter (fun x => negb (Z.eqb sheep x))
                 (schedule_sheep m)
          else schedule_sheep m)
         (mkRng (rand_real (rng m)) (S (real_pos (rng m)))
            (rand_int (rng m)) (int_pos (rng m)))
         (trace m))
    /\ level sb <= L
    /\ Qltb (np_exp (params m) (L + 1)) xp = false
    /\ forall l, level sb <= l < L ->
         Qltb (np_exp (params m) (l + 1)) xp = true.
Proof.
  intros Hb Hab Hs Hexp caught xp. unfold hunt.
  rewrite (bind_run _ _ _ _ _ (get_bear_run _ _ _ Hb)).
  assert ((match assistant with
           | Some a => let* x := get_bear a in ret (Some x)
           | None => ret None
           end) m = (Ok ab, m)) as Ha.
  { destruct assistant as [a|].
    - destruct (heap m !! a) as [x|] eqn:Hx; [|discriminate].
      injection Hab as <-. unfold bind. now rewrite (get_bear_run _ _ _ Hx).
    - now injection Hab as <-. }
  rewrite (bind_run _ _ _ _ _ Ha), get_model_run, next_real_run.
  subst xp. fold caught. destruct caught eqn:Hc.
  - unfold bind at 1. unfold bind at 1.
    rewrite modify_bear_run by (eapply lookup_lt_Some; eauto).
    rewrite Sheep_die_run by exact Hs.
    cbn [set_heap set_rng set_schedule_sheep heap rng params season
           model_unique_id schedule_bears schedule_sheep trace].
    match goal with |- context [update self ?st] =>
      destruct (update_reaches_the_staircase st self
                  (set_accumulated_xp
                     (accumulated_xp sb + xp_for_sheep (params m))%Q sb))
        as (L & Hrun & HL & Hstop & Hbelow) end.
    { cbn. now rewrite list_lookup_alter_eq, Hb. }
    { exact Hexp. }
    exists L. rewrite Hrun. cbn in HL, Hstop, Hbelow |- *.
    rewrite list_alter_alter_eq. repeat split; assumption.
  - unfold bind at 1. cbn [ret].
    match goal with |- context [update self ?st] =>
      destruct (update_reaches_the_staircase st self sb)
        as (L & Hrun & HL & Hstop & Hbelow) end.
    { exact Hb. }
    { exact Hexp. }
    exists L. rewrite Hrun. cbn in HL, Hstop, Hbelow |- *.
    repeat split; assumption.
Qed.

Lemma hunt_outcome_witness :
  exists L,
    2 <= L /\ fst (hunt 0%nat 7 (Some 1%nat) binary_hunting_party) = Ok tt.
Proof.
  destruct (hunt_outcome binary_hunting_party 0%nat 7 (Some 1%nat)
              (mkBear 3 5 coward true false (Some 1%nat) 2 0 1 5 8 17 false
                 [] 0)
              (Some (mkBear 2 5 coward false true None 2 0 1 5 8 17 true
                       [0%nat] 3))
              eq_refl eq_refl ltac:(apply list_elem_of_here)
              powers_of_two_dominate)
    as (L & Hrun & HL & _).
  exists L. split; [exact HL|]. rewrite Hrun. reflexivity.
Defined.
Lemma filter_out_iff (r x : ref) (l : list ref) :
  x ∈ List.filter (fun y => negb (Nat.eqb r y)) l <-> x ≠ r /\ x ∈ l.
Proof.
  rewrite list_elem_of_In, filter_In, <- list_elem_of_In.
  rewrite negb_true_iff, Nat.eqb_neq. intuition congruence.
Qed.

(** X7.  [die] of a registered bear returns and removes that bear, and only
    that bear, from the registry; its object stays in the heap.  When the
    bear cares for cubs, every cub of its list is released from parental
    care and the bear stops caring; a bear that does not care leaves the
    heap as it is. *)
Theorem Bear_die_spec (m : Model) (self : ref) (b : Bear) :
  heap m !! self = Some b ->
  carer_ok (heap m) b ->
  self ∈ schedule_bears m ->
  let final := snd (Bear_die self m) in
  fst (Bear_die self m) = Ok tt
  /\ (forall r, r ∈ schedule_bears final <-> r ≠ self /\ r ∈ schedule_bears m)
  /\ schedule_sheep final = schedule_sheep m
  /\ trace final = trace m ++ [EvDie self]
  /\ kept birthmarks (heap m) (heap final)
  /\ (does_care_after_cubs b = true ->
      forall cub, cub ∈ cubs b ->
        (is_under_parental_care <$> heap final !! cub) = Some false
        /\ (does_care_after_cubs <$> heap final !! self) = Some false)
  /\ (does_care_after_cubs b = false -> heap final = heap m).
Proof.
  intros Hb Hok Hin final. subst final.
  rewrite (Bear_die_run m self b Hb Hok Hin). cbn [fst snd].
  cbn [schedule_bears schedule_sheep trace heap].
  split; [reflexivity|]. split; [intros r; apply filter_out_iff|].
  split; [reflexivity|]. split; [reflexivity|].
  split; [|split].
  - intros r b0 Hb0. destruct (die_heap_lookup self b (heap m) r)
      as (under & care & E).
    rewrite E, Hb0. cbn. eexists. split; reflexivity.
  - intros Hc cub Hcub. unfold die_heap. rewrite Hc.
    rewrite !release_all_lookup, Hb.
    destruct (Hok Hc) as [_ Hall].
    rewrite Forall_forall in Hall.
    destruct (lookup_lt_is_Some_2 (heap m) cub (Hall cub Hcub)) as [x Hx].
    rewrite Hx. cbn. split.
    + rewrite bool_decide_eq_true_2 by assumption.
      now rewrite andb_false_r.
    + rewrite bool_decide_eq_true_2; [now rewrite andb_false_r|].
      split; [reflexivity|]. intros E. rewrite E in Hcub.
      now apply not_elem_of_nil in Hcub.
  - intros Hc. unfold die_heap. now rewrite Hc.
Qed.

Lemma Bear_die_spec_witness : fst (Bear_die 0%nat nursery) = Ok tt.
Proof.
  refine (proj1
    (Bear_die_spec nursery 0%nat
       (mkBear 2 5 coward false true None 1 0 1 5 8 17 true [1%nat] 0)
       eq_refl _ _)).
  - intros _. split; [reflexivity | repeat constructor].
  - apply list_elem_of_here.
Defined.

(** ** A step without encounters *)

Lemma random_choice_run {A B} (xs : list A) (k : A -> M B) (m : Model) :
  xs ≠ [] ->
  exists x, x ∈ xs
    /\ bind (random_choice xs) k m
       = k x (set_rng
                (mkRng (rand_real (rng m)) (real_pos (rng m))
                   (rand_int (rng m)) (S (int_pos (rng m)))) m).
Proof.
  intros Hne.
  assert (0 < length xs)%nat as Hlen
    by (destruct xs; [congruence | cbn; lia]).
  destruct (lookup_lt_is_Some_2 xs
              (rand_int (rng m) (int_pos (rng m)) mod length xs)%nat)
    as [x Hx].
  { apply Nat.mod_upper_bound. lia. }
  exists x. split; [eapply list_elem_of_lookup_2; eauto|].
  unfold random_choice, bind, next_int. cbn. now rewrite Hx.
Qed.

Lemma quiet_tail (m : Model) (self : ref) (sb : Bear) :
  heap m !! self = Some sb ->
  behavior sb = coward ->
  season m = normal ->
  is_under_parental_care sb = false ->
  does_care_after_cubs sb = false ->
  self ∈ schedule_bears m ->
  (do care_for_cubs self then
   let* sb := get_bear self in
   do (if negb (is_under_parental_care sb) then generate_encounters self
       else ret tt) then
   let* sb := get_bear self in
   if Qltb (energy sb) 0 then Bear_die self else ret tt) m
  = (Ok tt,
     if Qltb (energy sb) 0
     then mkModel (params m) (season m) (model_unique_id m) (heap m)
            (List.filter (fun x => negb (Nat.eqb self x)) (schedule_bears m))
            (schedule_sheep m) (rng m) (trace m ++ [EvDie self])
     else m).
Proof.
  intros Hb Hbeh Hseason Hu Hc Hin.
  assert (care_for_cubs self m = (Ok tt, m)) as E1.
  { unfold care_for_cubs.
    rewrite (bind_run _ _ _ _ _ (get_bear_run _ _ _ Hb)). now rewrite Hc. }
  assert (generate_encounters self m = (Ok tt, m)) as E2.
  { unfold generate_encounters.
    rewrite (bind_run _ _ _ _ _ (get_bear_run _ _ _ Hb)).
    rewrite Hu, Hbeh. cbn [negb assert]. rewrite ret_run, get_model_run.
    now rewrite Hseason. }
  rewrite (bind_run _ _ _ _ _ E1).
  rewrite (bind_run _ _ _ _ _ (get_bear_run _ _ _ Hb)).
  rewrite Hu. cbn [negb].
  rewrite (bind_run _ _ _ _ _ E2).
  rewrite (bind_run _ _ _ _ _ (get_bear_run _ _ _ Hb)).
  destruct (Qltb (energy sb) 0); [|reflexivity].
  rewrite (Bear_die_run m self sb Hb); [|intros ?; congruence|assumption].
  unfold die_heap. now rewrite Hc.
Qed.
Lemma get_sheep_run {B} (k : list Z -> M B) (m : Model) :
  bind get_agents_by_breed_Sheep k m = k (schedule_sheep m) m.
Proof. reflexivity. Qed.

Lemma elem_of_filter_l {A} (f : A -> bool) (x : A) (l : list A) :
  x ∈ List.filter f l -> x ∈ l.
Proof. rewrite !list_elem_of_In, filter_In. tauto. Qed.

Lemma coward_step_run (m : Model) (self : ref) (sb : Bear) :
  heap m !! self = Some sb ->
  behavior sb = coward ->
  season m = normal ->
  is_under_parental_care sb = false ->
  does_care_after_cubs sb = false ->
  self ∈ schedule_bears m ->
  exists mid sb',
    Bear_step self m
    = (Ok tt,
       if Qltb (energy sb - 1) 0
       then mkModel (params mid) (season mid) (model_unique_id mid)
              (heap mid)
              (List.filter (fun x => negb (Nat.eqb self x))
                 (schedule_bears mid))
              (schedule_sheep mid) (rng mid) (trace mid ++ [EvDie self])
       else mid)
    /\ heap mid !! self = Some sb'
    /\ energy sb' = (energy sb - 1)%Q
    /\ level sb <= level sb'
    /\ (forall r, r ≠ self -> heap mid !! r = heap m !! r)
    /\ schedule_bears mid = schedule_bears m
    /\ trace mid = trace m
    /\ (forall s, s ∈ schedule_sheep mid -> s ∈ schedule_sheep m).
Proof.
  intros Hb Hbeh Hseason Hu Hc Hin. unfold Bear_step.
  rewrite modify_bear_bind_run by (eapply lookup_lt_Some; eauto).
  rewrite get_sheep_run.
  set (m1 := set_heap _ m).
  set (sb1 := set_energy (energy sb - 1) sb).
  assert (heap m1 !! self = Some sb1) as Hb1.
  { subst m1 sb1. cbn. now rewrite list_lookup_alter_eq, Hb. }
  assert (exists mid sb',
    (if (0 <? length (schedule_sheep m1))%nat then
       let* sheep_to_eat := random_choice (schedule_sheep m1) in
       let* sb := get_bear self in
       if is_under_parental_care sb then hunt self sheep_to_eat (mother sb)
       else hunt self sheep_to_eat None
     else ret tt) m1 = (Ok tt, mid)
    /\ heap mid !! self = Some sb'
    /\ energy sb' = (energy sb - 1)%Q
    /\ level sb <= level sb'
    /\ behavior sb' = coward
    /\ is_under_parental_care sb' = false
    /\ does_care_after_cubs sb' = false
    /\ season mid = normal
    /\ (forall r, r ≠ self -> heap mid !! r = heap m !! r)
    /\ schedule_bears mid = schedule_bears m
    /\ trace mid = trace m
    /\ (forall s, s ∈ schedule_sheep mid -> s ∈ schedule_sheep m))
    as (mid & sb' & Hrun & Hmid & He & Hl & Hbeh' & Hu' & Hc' & Hs' & Hothers
        & Hsched & Htrace & Hsheep).
  { destruct (schedule_sheep m1) as [|s l] eqn:Hsh.
    - exists m1, sb1. cbn [length Nat.ltb Nat.leb].
      split; [reflexivity|]. split; [exact Hb1|].
      subst sb1. cbn. repeat split; try assumption; try lia.
      + intros r Hr. now rewrite list_lookup_alter_ne by congruence.
      + intros s Hs. cbn in Hsh. rewrite Hsh in Hs.
        now apply not_elem_of_nil in Hs.
    - rewrite <- Hsh.
      assert ((0 <? length (schedule_sheep m1))%nat = true) as ->
        by (rewrite Hsh; reflexivity).
      destruct (random_choice_run (schedule_sheep m1)
                  (fun sheep_to_eat =>
                     let* sb := get_bear self in
                     if is_under_parental_care sb
                     then hunt self sheep_to_eat (mother sb)
                     else hunt self sheep_to_eat None) m1)
        as (x & Hx & Hrun); [rewrite Hsh; discriminate|].
      rewrite Hrun. clear Hrun.
      set (m2 := set_rng _ m1).
      rewrite (bind_run _ _ _ _ _ (get_bear_run m2 self sb1 Hb1)).
      assert (is_under_parental_care sb1 = false) as -> by exact Hu.
      assert (heap m2 !! self = Some sb1) as Hb2 by exact Hb1.
      destruct (hunt_run m2 self x None sb1 None Hb2 eq_refl Hx)
        as (L & HL & Hrun).
      rewrite Hrun. clear Hrun. eexists. eexists.
      split; [reflexivity|]. cbn [heap season schedule_bears trace
                                   schedule_sheep].
      split; [rewrite list_lookup_alter_eq, Hb2; reflexivity|].
      subst m2 m1 sb1. cbn in HL. cbn [heap set_heap set_rng schedule_sheep
                             schedule_bears trace season].
      repeat split; try assumption;
        try (destruct (Qltb _ _); cbn;
             first [assumption | reflexivity | lia]).
      + intros r Hr. now rewrite !list_lookup_alter_ne by congruence.
      + intros s0 Hs0. destruct (Qltb _ _); [|exact Hs0].
        eapply elem_of_filter_l; eauto. }
  rewrite (bind_run _ _ _ _ _ Hrun).
  rewrite (quiet_tail mid self sb' Hmid Hbeh' Hs' Hu' Hc')
    by (rewrite Hsched; exact Hin).
  exists mid, sb'. rewrite He.
  repeat split; assumption.
Qed.

(** X8.  The step of a registered coward outside the mating season, free
    and without cubs: it returns, whether there are sheep or not; the bear
    has lost exactly one unit of energy, whatever the hunt gave; it is
    removed from the registry, with a [die], exactly when that energy is
    below zero; no other bear is touched and no sheep appears. *)
Theorem coward_step_off_season (m : Model) (self : ref) (sb : Bear) :
  heap m !! self = Some sb ->
  behavior sb = coward ->
  season m = normal ->
  is_under_parental_care sb = false ->
  does_care_after_cubs sb = false ->
  self ∈ schedule_bears m ->
  let final := snd (Bear_step self m) in
  let starved := Qltb (energy sb - 1) 0 in
  fst (Bear_step self m) = Ok tt
  /\ (energy <$> heap final !! self) = Some (energy sb - 1)%Q
  /\ (forall r, r ∈ schedule_bears final
                <-> r ∈ schedule_bears m /\ (r = self -> starved = false))
  /\ trace final = trace m ++ (if starved then [EvDie self] else [])
  /\ (forall r, r ≠ self -> heap final !! r = heap m !! r)
  /\ (forall s, s ∈ schedule_sheep final -> s ∈ schedule_sheep m).
Proof.
  intros Hb Hbeh Hseason Hu Hc Hin final starved. subst final.
  destruct (coward_step_run m self sb Hb Hbeh Hseason Hu Hc Hin)
    as (mid & sb' & Hrun & Hmid & He & _ & Hothers & Hsched & Htrace
        & Hsheep).
  rewrite Hrun. fold starved. cbn [fst snd].
  split; [reflexivity|].
  destruct starved;
    cbn [heap schedule_bears schedule_sheep trace].
  - rewrite Hmid, Hsched, Htrace. cbn. rewrite He.
    split; [reflexivity|]. split; [|repeat split; assumption].
    intros r. rewrite filter_out_iff. split.
    + intros [Hne Hr]. split; [assumption|]. intros E. congruence.
    + intros [Hr Hne]. split; [|assumption]. intros ->.
      specialize (Hne eq_refl). discriminate.
  - rewrite Hmid, Hsched, Htrace, app_nil_r. cbn. rewrite He.
    split; [reflexivity|]. split; [|repeat split; assumption].
    intros r. tauto.
Qed.

Lemma coward_step_off_season_witness : fst (Bear_step 1%nat arena) = Ok tt.
Proof.
  refine (proj1
    (coward_step_off_season arena 1%nat (adult coward 5 false 1 30)
       eq_refl eq_refl eq_refl eq_refl eq_refl _)).
  apply list_elem_of_further, list_elem_of_here.
Defined.

Lemma filter_nil {A} (f : A -> bool) (l : list A) :
  (forall x, x ∈ l -> f x = false) -> List.filter f l = [].
Proof.
  induction l as [|a l IH]; intros H; [reflexivity|]. cbn.
  rewrite (H a) by apply list_elem_of_here.
  apply IH. intros x Hx. apply H. now apply list_elem_of_further.
Qed.

Lemma next_int_run {B} (k : nat -> M B) (m : Model) :
  bind next_int k m
  = k (rand_int (rng m) (int_pos (rng m)))
      (set_rng
         (mkRng (rand_real (rng m)) (real_pos (rng m))
            (rand_int (rng m)) (S (int_pos (rng m)))) m).
Proof. reflexivity. Qed.

Lemma poisson_guard (rate : Q) :
  (0 <= rate <= poisson_lam_max)%Q ->
  Qltb rate 0 || Qltb poisson_lam_max rate = false.
Proof.
  intros [H1 H2].
  now rewrite (proj2 (Qltb_ge _ _) H1), (proj2 (Qltb_ge _ _) H2).
Qed.

Lemma bind_bind {A B C} (c : M A) (f : A -> M B) (g : B -> M C)
    (m : Model) :
  bind (bind c f) g m = bind c (fun x => bind (f x) g) m.
Proof. unfold bind. now destruct (c m) as [[a|e] m']. Qed.

Lemma encounter_loop_alone (n : nat) (self : ref) (m : Model) :
  filtered_bears self m = [] -> encounter_loop n self m = (Ok tt, m).
Proof.
  intros H. induction n as [|k IH]; [reflexivity|].
  cbn [encounter_loop].
  assert (encounter self m = (Ok tt, m)) as E.
  { unfold encounter. rewrite get_model_run, H. reflexivity. }
  now rewrite (bind_run _ _ _ _ _ E).
Qed.

(** X9.  A free bear that has nobody to meet, every other registered bear
    being under parental care, goes through [generate_encounters] without
    an error and without any effect but on the generator, however many
    encounters are drawn, when the encounter rate is one that
    [np.random.poisson] accepts: the choice among no candidates is never
    made. *)
Theorem lone_bear_meets_nobody (m : Model) (self : ref) (sb : Bear) :
  heap m !! self = Some sb ->
  is_under_parental_care sb = false ->
  (0 <= encounter_rate (params m) <= poisson_lam_max)%Q ->
  (forall r b, r ∈ schedule_bears m -> r ≠ self -> heap m !! r = Some b ->
               is_under_parental_care b = true) ->
  let final := snd (generate_encounters self m) in
  fst (generate_encounters self m) = Ok tt
  /\ heap final = heap m
  /\ schedule_bears final = schedule_bears m
  /\ schedule_sheep final = schedule_sheep m
  /\ trace final = trace m
  /\ model_unique_id final = model_unique_id m.
Proof.
  intros Hb Hu Hrate Halone final. subst final.
  assert (forall g, filtered_bears self (set_rng g m) = []) as Hnil.
  { intros g. unfold filtered_bears. apply filter_nil. intros r Hr. cbn in *.
    destruct (Nat.eqb_spec r self) as [->|Hne]; [reflexivity|]. cbn.
    destruct (heap m !! r) as [b|] eqn:Hrb; [|reflexivity].
    now rewrite (Halone r b Hr Hne Hrb). }
  unfold generate_encounters.
  rewrite (bind_run _ _ _ _ _ (get_bear_run _ _ _ Hb)), Hu.
  cbn [negb assert]. rewrite ret_run, get_model_run.
  destruct (Behavior_eqb (behavior sb) coward
            && negb (Season_eqb (season m) mating)).
  - repeat split; reflexivity.
  - unfold np_random_poisson.
    rewrite (poisson_guard _ Hrate).
    rewrite bind_bind, next_int_run, ret_run.
    rewrite encounter_loop_alone by apply Hnil.
    repeat split; reflexivity.
Qed.

Lemma lone_bear_meets_nobody_witness :
  fst (generate_encounters 0%nat hermit) = Ok tt.
Proof.
  refine (proj1
    (lone_bear_meets_nobody hermit 0%nat
       (mkBear 2 5 coward false true None 1 0 1 5 8 17 true [1%nat] 3)
       eq_refl eq_refl _ _)).
  - split; discriminate.
  - intros r b Hr Hne Hb.
    apply elem_of_cons in Hr as [->|Hr]; [contradiction|].
    apply list_elem_of_singleton in Hr. subst r.
    injection Hb as <-. reflexivity.
Defined.

(** ** The constructor of the model *)

Lemma fmap_seq_S {A} (f : nat -> A) (a k : nat) :
  f <$> seq (S a) k = (fun i => f (S i)) <$> seq a k.
Proof.
  revert a. induction k as [|k IH]; intros a; [reflexivity|].
  cbn. f_equal. apply IH.
Qed.

Lemma create_sheep_run (n : nat) (uid : Z) (m : Model) :
  create_sheep n uid m
  = (Ok (uid + Z.of_nat n),
     set_schedule_sheep
       (schedule_sheep m ++ ((fun i => uid + Z.of_nat i) <$> seq 0 n)) m).
Proof.
  revert uid m. induction n as [|k IH]; intros uid m.
  - cbn. rewrite Z.add_0_r, app_nil_r. now destruct m.
  - cbn [create_sheep]. unfold bind at 1, schedule_add_sheep.
    rewrite IH. cbn [schedule_sheep set_schedule_sheep].
    replace (uid + 1 + Z.of_nat k) with (uid + Z.of_nat (S k)) by lia.
    f_equal. unfold set_schedule_sheep. cbn. f_equal.
    rewrite <- app_assoc. f_equal. cbn. f_equal; [f_equal; lia|].
    rewrite fmap_seq_S. apply list_fmap_ext. intros _ i _. lia.
Qed.

Lemma random_randrange_run {B} (n : Z) (k : Z -> M B) (m : Model) :
  0 < n ->
  bind (random_randrange n) k m
  = k (Z.of_nat (rand_int (rng m) (int_pos (rng m))) mod n)
      (set_rng
         (mkRng (rand_real (rng m)) (real_pos (rng m))
            (rand_int (rng m)) (S (int_pos (rng m)))) m).
Proof.
  intros H. unfold random_randrange.
  destruct (Z.ltb_spec 0 n); [reflexivity|lia].
Qed.

Lemma founder__init__run {B} (uid : Z) (e : Q) (beh : Behavior)
    (k : ref -> M B) (m : Model) :
  bind (Bear__init__ uid e beh None None) k m
  = k (length (heap m))
      (set_heap
         (heap m
          ++ [new_bear uid e beh None None
                (rand_real (rng m) (real_pos (rng m)))])
         (set_rng
            (mkRng (rand_real (rng m)) (S (real_pos (rng m)))
               (rand_int (rng m)) (int_pos (rng m))) m)).
Proof. reflexivity. Qed.

Lemma create_bears_run (n : nat) (beh : Behavior) (range uid : Z)
    (m : Model) :
  0 < range ->
  exists bs m',
    create_bears n beh range uid m = (Ok (uid + Z.of_nat n), m')
    /\ heap m' = heap m ++ bs
    /\ length bs = n
    /\ (forall i b, bs !! i = Some b ->
          founder (uid + Z.of_nat i) beh range b)
    /\ schedule_bears m' = schedule_bears m ++ seq (length (heap m)) n
    /\ schedule_sheep m' = schedule_sheep m
    /\ params m' = params m
    /\ season m' = season m
    /\ trace m' = trace m
    /\ model_unique_id m' = model_unique_id m.
Proof.
  intros Hr. revert uid m. induction n as [|k IH]; intros uid m.
  - exists [], m. cbn. rewrite Z.add_0_r, !app_nil_r.
    repeat split; try reflexivity. intros i b Hb. discriminate.
  - cbn [create_bears].
    rewrite random_randrange_run by exact Hr.
    rewrite founder__init__run, schedule_add_bear_run.
    match goal with |- context [create_bears k beh range (uid + 1) ?st] =>
      destruct (IH (uid + 1) st)
        as (bs & m' & Hrun & Hh & Hl & Hall & H1 & H2 & H3 & H4 & H5 & H6)
    end.
    rewrite Hrun. cbn in Hh, H1, H2, H3, H4, H5, H6.
    eexists (_ :: bs), m'.
    replace (uid + 1 + Z.of_nat k) with (uid + Z.of_nat (S k)) by lia.
    split; [reflexivity|]. rewrite Hh, <- app_assoc.
    split; [reflexivity|]. split; [cbn; now rewrite Hl|].
    split.
    { intros [|i] b Hb.
      - injection Hb as <-. rewrite Z.add_0_r. eexists _, _.
        split; [|reflexivity]. apply Z.mod_pos_bound. exact Hr.
      - replace (uid + Z.of_nat (S i)) with (uid + 1 + Z.of_nat i) by lia.
        now apply Hall. }
    rewrite H1, length_app, <- app_assoc. cbn.
    rewrite Nat.add_1_r. repeat split; assumption.
Qed.

Lemma create_bears_raises (n : nat) (beh : Behavior) (range uid : Z)
    (m : Model) :
  range <= 0 -> (0 < n)%nat ->
  create_bears n beh range uid m = (Raise ValueError, m).
Proof.
  intros Hr Hn. destruct n as [|k]; [lia|]. cbn [create_bears].
  unfold random_randrange. destruct (Z.ltb_spec 0 range); [lia|reflexivity].
Qed.

Lemma constructor_run (args : Params) (ns nc na : nat) (g : Rng) :
  0 < bear_gain_from_food args ->
  let out := BearSheepPredation__init__ args ns nc na g in
  let m := snd out in
  fst out = Ok tt
  /\ sheep_limit (params m) = 2000
  /\ season m = normal
  /\ schedule_sheep m = (fun i => 1 + Z.of_nat i) <$> seq 0 ns
  /\ length (heap m) = (nc + na)%nat
  /\ schedule_bears m = seq 0 (nc + na)
  /\ model_unique_id m = 1 + Z.of_nat ns + Z.of_nat nc + Z.of_nat na
  /\ forall i b, heap m !! i = Some b ->
       if (i <? nc)%nat
       then founder (1 + Z.of_nat ns + Z.of_nat i) coward
              (10 * bear_gain_from_food args) b
       else founder (1 + Z.of_nat ns + Z.of_nat i) aggressive
              (2 * bear_gain_from_food args) b.
Proof.
  intros Hgain out m. subst m out. unfold BearSheepPredation__init__.
  cbn [bear_gain_from_food].
  match goal with |- context [mkModel ?p normal 0 [] [] [] g []] =>
    set (m0 := mkModel p normal 0 [] [] [] g []) end.
  rewrite (bind_run _ _ _ _ _ (create_sheep_run ns 1 m0)).
  cbn beta.
  match goal with |- context [bind (create_bears nc coward ?r ?u) _ ?st] =>
    destruct (create_bears_run nc coward r u st ltac:(lia))
      as (bs1 & m1 & Hrun1 & Hh1 & Hl1 & Hall1 & Hb1 & Hs1 & Hp1 & He1 & _
          & _) end.
  rewrite (bind_run _ _ _ _ _ Hrun1).
  cbn beta.
  match goal with
  | |- context [bind (create_bears na aggressive ?r ?u) _ ?st] =>
    destruct (create_bears_run na aggressive r u st ltac:(lia))
      as (bs2 & m2 & Hrun2 & Hh2 & Hl2 & Hall2 & Hb2 & Hs2 & Hp2 & He2 & _
          & _) end.
  rewrite (bind_run _ _ _ _ _ Hrun2).
  cbn [fst snd params season schedule_sheep heap schedule_bears
         model_unique_id set_model_unique_id].
  cbn in Hh1, Hb1, Hs1, Hp1, He1.
  rewrite Hp2, Hp1, He2, He1, Hs2, Hs1, Hh2, Hh1, Hb2, Hb1, Hh1.
  rewrite !length_app, Hl1, Hl2. cbn [length app Nat.add].
  split; [reflexivity|]. split; [reflexivity|]. split; [reflexivity|].
  split; [reflexivity|]. split; [reflexivity|].
  split; [now rewrite seq_app|]. split; [lia|].
  intros i b Hb. destruct (Nat.ltb_spec i nc) as [Hlt|Hge].
  - rewrite lookup_app_l in Hb by lia. now apply Hall1.
  - rewrite lookup_app_r in Hb by lia. rewrite Hl1 in Hb.
    apply Hall2 in Hb.
    replace (1 + Z.of_nat ns + Z.of_nat i)
      with (1 + Z.of_nat ns + Z.of_nat nc + Z.of_nat (i - nc)) by lia.
    exact Hb.
Qed.

(** X10.  With a positive [bear_gain_from_food] the constructor returns.
    It registers the sheep with the ids 1, 2, ... and then the bears, the
    cowards before the aggressive ones, with the ids that follow; every
    bear is a founder of its behavior whose energy is an integer below 10
    times (cowards) or 2 times (aggressive) the gain; the id counter is
    left one above the last id, the season is normal and [sheep_limit] is
    2000 whatever the arguments. *)
Theorem constructor_spec (args : Params) (ns nc na : nat) (g : Rng) :
  0 < bear_gain_from_food args ->
  let out := BearSheepPredation__init__ args ns nc na g in
  let m := snd out in
  fst out = Ok tt
  /\ sheep_limit (params m) = 2000
  /\ season m = normal
  /\ schedule_sheep m = (fun i => 1 + Z.of_nat i) <$> seq 0 ns
  /\ length (heap m) = (nc + na)%nat
  /\ schedule_bears m = seq 0 (nc + na)
  /\ model_unique_id m = 1 + Z.of_nat ns + Z.of_nat nc + Z.of_nat na
  /\ forall i b, heap m !! i = Some b ->
       if (i <? nc)%nat
       then founder (1 + Z.of_nat ns + Z.of_nat i) coward
              (10 * bear_gain_from_food args) b
       else founder (1 + Z.of_nat ns + Z.of_nat i) aggressive
              (2 * bear_gain_from_food args) b.
Proof. exact (constructor_run args ns nc na g). Qed.

Lemma constructor_spec_witness :
  fst (BearSheepPredation__init__ default_params 3 2 1 silent) = Ok tt.
Proof.
  refine (proj1 (constructor_spec default_params 3 2 1 silent _)).
  cbn. lia.
Defined.

Lemma bind_raise {A B} (c : M A) (k : A -> M B) (m m' : Model) (e : Error) :
  c m = (Raise e, m') -> bind c k m = (Raise e, m').
Proof. intros H. unfold bind. now rewrite H. Qed.

(** X11.  With a [bear_gain_from_food] that is not positive, a constructor
    asked for at least one bear raises [ValueError], the error of
    [random.randrange] on an empty range, before any bear is created. *)
Theorem constructor_needs_food (args : Params) (ns nc na : nat) (g : Rng) :
  bear_gain_from_food args <= 0 ->
  (0 < nc + na)%nat ->
  let out := BearSheepPredation__init__ args ns nc na g in
  fst out = Raise ValueError
  /\ heap (snd out) = []
  /\ schedule_bears (snd out) = [].
Proof.
  intros Hgain Hn out. subst out. unfold BearSheepPredation__init__.
  cbn [bear_gain_from_food].
  match goal with |- context [mkModel ?p normal 0 [] [] [] g []] =>
    set (m0 := mkModel p normal 0 [] [] [] g []) end.
  rewrite (bind_run _ _ _ _ _ (create_sheep_run ns 1 m0)).
  destruct nc as [|k].
  - cbn [create_bears]. rewrite ret_run.
    erewrite bind_raise; [|apply create_bears_raises; lia].
    repeat split; reflexivity.
  - erewrite bind_raise; [|apply create_bears_raises; lia].
    repeat split; reflexivity.
Qed.

Lemma constructor_needs_food_witness :
  fst (BearSheepPredation__init__
         (mkParams (8 # 100) (5 # 100) 2000 0 (6 # 100) 100 500 1
            (fun n => inject_Z (2 ^ n))) 3 2 1 silent)
  = Raise ValueError.
Proof.
  refine (proj1 (constructor_needs_food _ 3 2 1 silent _ _)).
  - cbn. lia.
  - lia.
Defined.

(** ** Inheritance *)

Lemma make_cubs_exact (self father : ref) (cub_cnt : Z) (sb fb : Bear)
    (n : nat) (m : Model) :
  heap m !! self = Some sb ->
  heap m !! father = Some fb ->
  exists bs m',
    make_cubs n self father cub_cnt m = (Ok (seq (length (heap m)) n), m')
    /\ heap m' = heap m ++ bs
    /\ length bs = n
    /\ (forall i cb, bs !! i = Some cb ->
          cub_of self sb fb cub_cnt (model_unique_id m + 1 + Z.of_nat i) cb)
    /\ schedule_bears m' = schedule_bears m
    /\ schedule_sheep m' = schedule_sheep m
    /\ trace m' = trace m
    /\ params m' = params m
    /\ season m' = season m
    /\ rand_int (rng m') = rand_int (rng m)
    /\ int_pos (rng m') = (int_pos (rng m) + n)%nat
    /\ model_unique_id m' = model_unique_id m + Z.of_nat n.
Proof.
  revert m. induction n as [|n IH]; intros m Hs Hf.
  - exists [], m. cbn. rewrite app_nil_r, Nat.add_0_r, Z.add_0_r.
    repeat split; auto. intros i cb Hcb. discriminate.
  - cbn [make_cubs]. rewrite generate_id_run.
    rewrite (bind_run _ _ _ _ sb) by (apply get_bear_run; exact Hs).
    rewrite (bind_run _ _ _ _ fb) by (apply get_bear_run; exact Hf).
    match goal with |- context [bind (random_choice ?l) ?k ?st] =>
      destruct (random_choice_pair_run (behavior fb) (behavior sb) k st)
        as (beh & Hbeh & ->) end.
    erewrite bind_run; [|apply (Bear__init__run _ _ _ _ _ fb sb); assumption].
    match goal with |- context [bind (make_cubs n _ _ _) _ ?st] =>
      destruct (IH st) as (bs & m' & Hrun & Hh & Hl & Hall & H1 & H2 & H3
                           & H4 & H5 & H6 & H7 & H8) end.
    { cbn. now apply lookup_app_l_Some. }
    { cbn. now apply lookup_app_l_Some. }
    rewrite (bind_run _ _ _ _ _ Hrun). cbn in *.
    eexists (_ :: bs), m'. rewrite Hh, <- app_assoc. cbn.
    rewrite length_app, Nat.add_1_r in *. cbn.
    split; [reflexivity|]. split; [reflexivity|]. split; [now rewrite Hl|].
    split.
    { intros [|i] cb Hcb.
      - injection Hcb as <-. rewrite Z.add_0_r. exists beh. eexists.
        split; [|reflexivity]. destruct Hbeh; subst; auto.
      - replace (model_unique_id m + 1 + Z.of_nat (S i))
          with (model_unique_id m + 1 + 1 + Z.of_nat i) by lia.
        now apply Hall. }
    repeat split; try assumption; lia.
Qed.

Lemma give_birth_exact (m : Model) (self father : ref) (sb fb : Bear) :
  heap m !! self = Some sb ->
  heap m !! father = Some fb ->
  is_female sb = true ->
  is_female fb = false ->
  lower_cub_limit sb < upper_cub_limit sb ->
  lower_parental_care_limit sb < upper_parental_care_limit sb ->
  let cub_cnt :=
    lower_cub_limit sb
    + Z.of_nat (rand_int (rng m) (int_pos (rng m)))
      mod (upper_cub_limit sb - lower_cub_limit sb) in
  let n := Z.to_nat cub_cnt in
  let new_cubs := seq (length (heap m)) n in
  exists bs mum m',
    give_birth self father m = (Ok tt, m')
    /\ length bs = n
    /\ (forall i cb, bs !! i = Some cb ->
          cub_of self (set_energy (energy sb / 2)%Q sb) fb cub_cnt
            (model_unique_id m + 1 + Z.of_nat i) cb)
    /\ heap m' = bond_all self new_cubs (<[self := mum]> (heap m) ++ bs)
    /\ lower_parental_care_limit sb <= parental_care_countdown mum
       < upper_parental_care_limit sb
    /\ model_unique_id m' = model_unique_id m + Z.of_nat n.
Proof.
  intros Hs Hf Hfem Hmale Hc Hp. cbn zeta.
  assert (Hne : father ≠ self) by (intros ->; congruence).
  assert (Hslt : (self < length (heap m))%nat)
    by (eapply lookup_lt_Some; eauto).
  unfold give_birth.
  rewrite (bind_run _ _ _ _ sb) by (apply get_bear_run; exact Hs).
  rewrite rg_integers_run by assumption.
  set (cub_cnt := lower_cub_limit sb + _).
  rewrite modify_bear_bind_run by exact Hslt.
  set (m2 := set_heap _ _).
  assert (Hs2 : heap m2 !! self = Some (set_energy (energy sb / 2)%Q sb))
    by (cbn; now rewrite list_lookup_alter_eq, Hs).
  assert (Hf2 : heap m2 !! father = Some fb)
    by (cbn; now rewrite list_lookup_alter_ne by congruence).
  destruct (make_cubs_exact self father cub_cnt _ fb (Z.to_nat cub_cnt) m2
              Hs2 Hf2)
    as (bs & m3 & Hrun & Hh & Hl & Hall & H1 & H2 & H3 & H4 & H5 & H6 & H7
        & H8).
  rewrite (bind_run _ _ _ _ _ Hrun).
  assert (Hlen2 : length (heap m2) = length (heap m))
    by (cbn; apply length_alter).
  rewrite Hlen2 in *.
  set (new_cubs := seq (length (heap m)) (Z.to_nat cub_cnt)).
  assert (Hslt3 : (self < length (heap m3))%nat)
    by (rewrite Hh, length_app; lia).
  rewrite modify_bear_bind_run by exact Hslt3.
  set (m4 := set_heap _ m3).
  assert (Hs4 : heap m4 !! self
                = Some (set_cubs new_cubs (set_energy (energy sb / 2)%Q sb))).
  { cbn. rewrite list_lookup_alter_eq, Hh, lookup_app_l by lia.
    now rewrite Hs2. }
  rewrite (bind_run _ _ _ _ _ (get_bear_run _ _ _ Hs4)).
  rewrite rg_integers_run by exact Hp.
  rewrite modify_bear_bind_run by (cbn; now rewrite length_alter).
  match goal with |- context [for_each _ _ ?st] => set (m5 := st) end.
  assert (Hh5 : heap m5
                = <[self := set_parental_care_countdown
                      (lower_parental_care_limit sb
                       + Z.of_nat (rand_int (rng m3) (int_pos (rng m3)))
                         mod (upper_parental_care_limit sb
                              - lower_parental_care_limit sb))
                      (set_cubs new_cubs (set_energy (energy sb / 2)%Q sb))]>
                    (heap m) ++ bs).
  { cbn. rewrite Hh. cbn.
    rewrite !alter_app_l by (rewrite ?length_alter; lia).
    f_equal. apply list_eq. intros i.
    destruct (decide (i = self)) as [->|Hne'].
    - rewrite !list_lookup_alter_eq, list_lookup_insert_eq by lia.
      now rewrite Hs.
    - rewrite !list_lookup_alter_ne, list_lookup_insert_ne by congruence.
      reflexivity. }
  rewrite bond_all_run.
  - exists bs. eexists. eexists.
    split; [reflexivity|]. split; [exact Hl|].
    split; [exact Hall|].
    cbn [heap set_heap set_schedule_bears model_unique_id].
    split; [rewrite Hh5; reflexivity|]. split.
    + cbn.
      pose proof (Z.mod_pos_bound
                    (Z.of_nat (rand_int (rng m3) (int_pos (rng m3))))
                    (upper_parental_care_limit sb
                     - lower_parental_care_limit sb) ltac:(lia)).
      lia.
    + cbn. rewrite H8. reflexivity.
  - rewrite Hh5, lookup_app_l, list_lookup_insert_eq
      by (rewrite ?length_insert; lia).
    cbn. now rewrite Hfem.
  - apply Forall_forall. intros c Hc'. apply list_elem_of_In, in_seq in Hc'.
    rewrite Hh5, length_app, length_insert. lia.
Qed.

(** X12.  What a litter inherits.  After [give_birth] of a female with a
    male of the heap, the cubs have the ids that follow the model's
    counter, which is advanced by the size of the litter; each cub has the
    behavior of one of its parents, level 1, no experience, no cubs of its
    own, and for each of its four limits the floored mean of the father's
    and the mother's; the mother's countdown lies in her parental care
    interval. *)
Theorem cubs_inherit (m : Model) (self father : ref) (sb fb : Bear) :
  heap m !! self = Some sb ->
  heap m !! father = Some fb ->
  is_female sb = true ->
  is_female fb = false ->
  lower_cub_limit sb < upper_cub_limit sb ->
  lower_parental_care_limit sb < upper_parental_care_limit sb ->
  let cub_cnt :=
    lower_cub_limit sb
    + Z.of_nat (rand_int (rng m) (int_pos (rng m)))
      mod (upper_cub_limit sb - lower_cub_limit sb) in
  let new_cubs := seq (length (heap m)) (Z.to_nat cub_cnt) in
  let final := snd (give_birth self father m) in
  (forall i c, new_cubs !! i = Some c ->
     exists cb, heap final !! c = Some cb
       /\ unique_id cb = model_unique_id m + 1 + Z.of_nat i
       /\ (behavior cb = behavior fb \/ behavior cb = behavior sb)
       /\ level cb = 1
       /\ accumulated_xp cb = 0%Q
       /\ does_care_after_cubs cb = false
       /\ cubs cb = []
       /\ lower_cub_limit cb = (lower_cub_limit fb + lower_cub_limit sb) / 2
       /\ upper_cub_limit cb = (upper_cub_limit fb + upper_cub_limit sb) / 2
       /\ lower_parental_care_limit cb
          = (lower_parental_care_limit fb + lower_parental_care_limit sb) / 2
       /\ upper_parental_care_limit cb
          = (upper_parental_care_limit fb + upper_parental_care_limit sb) / 2)
  /\ (exists countdown,
        (parental_care_countdown <$> heap final !! self) = Some countdown
        /\ lower_parental_care_limit sb <= countdown
           < upper_parental_care_limit sb)
  /\ model_unique_id final
     = model_unique_id m + Z.of_nat (length new_cubs).
Proof.
  intros Hs Hf Hfem Hmale Hc Hp cub_cnt new_cubs final. subst final.
  destruct (give_birth_exact m self father sb fb Hs Hf Hfem Hmale Hc Hp)
    as (bs & mum & m' & Hrun & Hl & Hall & Hh & Hcd & Hid).
  fold cub_cnt in Hl, Hall, Hh, Hid. fold new_cubs in Hh.
  rewrite Hrun. cbn [snd].
  assert (Hslt : (self < length (heap m))%nat)
    by (eapply lookup_lt_Some; eauto).
  split; [|split].
  - intros i c Hic. apply lookup_seq in Hic as [-> Hi].
    destruct (lookup_lt_is_Some_2 bs i) as [cb Hcb]; [lia|].
    destruct (Hall i cb Hcb) as (beh & u & Hbeh & ->).
    rewrite Hh, bond_all_lookup, lookup_app_r
      by (rewrite length_insert; lia).
    rewrite length_insert.
    replace (length (heap m) + i - length (heap m))%nat with i by lia.
    rewrite Hcb. cbn. eexists. split; [reflexivity|]. cbn.
    rewrite bool_decide_eq_false_2 by (intros [E _]; lia).
    repeat split; try reflexivity. destruct Hbeh; subst; auto.
  - rewrite Hh, bond_all_lookup, lookup_app_l, list_lookup_insert_eq
      by (rewrite ?length_insert; lia).
    cbn. eexists. split; [reflexivity|]. exact Hcd.
  - rewrite Hid. subst new_cubs. now rewrite length_seq.
Qed.

Lemma cubs_inherit_witness :
  model_unique_id (snd (give_birth 0%nat 1%nat couple))
  = model_unique_id couple
    + Z.of_nat (length (seq (length (heap couple)) (Z.to_nat 2))).
Proof.
  refine (proj2 (proj2
    (cubs_inherit couple 0%nat 1%nat
       (mkBear 1 12 coward false false None 1 0 1 5 8 17 true [] 0)
       (mkBear 2 7 coward false false None 1 0 1 5 8 17 false [] 0)
       eq_refl eq_refl eq_refl eq_refl _ _))).
  - cbn. lia.
  - cbn. lia.
Defined.

(** ** Runs and the ids of the agents *)

Lemma leads_bind {A B} (P R Q : Model -> Prop) (c : M A) (k : A -> M B) :
  leads P R c -> (forall m, R m -> Q m) -> (forall a, leads R Q (k a)) ->
  leads P Q (bind c k).
Proof.
  intros Hc HRQ Hk m H. unfold bind. specialize (Hc m H).
  destruct (c m) as [[a|e] m']; cbn in *; [now apply Hk | now apply HRQ].
Qed.

Lemma leads_ret {A} (P : Model -> Prop) (a : A) : leads P P (ret a).
Proof. intros m H. exact H. Qed.

Lemma leads_raise {A} (P : Model -> Prop) (e : Error) :
  leads P P (@raise A e).
Proof. intros m H. exact H. Qed.

Lemma leads_bind_same {A B} (P : Model -> Prop) (c : M A) (k : A -> M B) :
  leads P P c -> (forall a, leads P P (k a)) -> leads P P (bind c k).
Proof. intros Hc Hk. apply (leads_bind P P P); auto. Qed.

Lemma leads_for_each {A} (P : Model -> Prop) (xs : list A)
    (body : A -> M unit) :
  (forall x, leads P P (body x)) -> leads P P (for_each xs body).
Proof.
  intros Hb. induction xs; cbn [for_each];
    [apply leads_ret | apply leads_bind_same; auto].
Qed.

Lemma leads_get_bear (P : Model -> Prop) (r : ref) : leads P P (get_bear r).
Proof. intros m H. unfold get_bear. now destruct (heap m !! r). Qed.

Lemma leads_get_model (P : Model -> Prop) : leads P P get_model.
Proof. intros m H. exact H. Qed.

Lemma leads_assert (P : Model -> Prop) (c : bool) : leads P P (assert c).
Proof. intros m H. unfold assert. now destruct c. Qed.

Lemma leads_get_agents_by_breed_Sheep (P : Model -> Prop) :
  leads P P get_agents_by_breed_Sheep.
Proof. intros m H. exact H. Qed.

Create HintDb ids_db.

Section Ids.
Variable P : Model -> Prop.
Hypothesis P_rng : forall g m, P m -> P (set_rng g m).
Hypothesis P_trace : forall t m, P m -> P (set_trace t m).
Hypothesis P_bears : forall l m, P m -> P (set_schedule_bears l m).
Hypothesis P_alter :
  forall f r m, (forall b, unique_id (f b) = unique_id b) ->
                P m -> P (set_heap (alter f r (heap m)) m).
Hypothesis P_eat :
  forall s m, P m ->
    P (set_schedule_sheep
         (List.filter (fun x => negb (Z.eqb s x)) (schedule_sheep m)) m).

Lemma leads_next_real : leads P P next_real.
Proof. intros m H. now apply P_rng. Qed.

Lemma leads_next_int : leads P P next_int.
Proof. intros m H. now apply P_rng. Qed.

Lemma leads_log (e : Event) : leads P P (log e).
Proof. intros m H. now apply P_trace. Qed.

Lemma leads_schedule_add_bear (r : ref) : leads P P (schedule_add_bear r).
Proof. intros m H. now apply P_bears. Qed.

Lemma leads_schedule_remove_bear (r : ref) :
  leads P P (schedule_remove_bear r).
Proof.
  intros m H. unfold schedule_remove_bear.
  destruct (existsb _ _); [now apply P_bears | exact H].
Qed.

Lemma leads_schedule_remove_sheep (s : Z) :
  leads P P (schedule_remove_sheep s).
Proof.
  intros m H. unfold schedule_remove_sheep.
  destruct (existsb _ _); [now apply P_eat | exact H].
Qed.

Lemma leads_modify_bear (r : ref) (f : Bear -> Bear) :
  (forall b, unique_id (f b) = unique_id b) -> leads P P (modify_bear r f).
Proof.
  intros Hf m H. unfold modify_bear.
  destruct (heap m !! r); [now apply P_alter | exact H].
Qed.

Local Hint Resolve leads_get_bear leads_get_model leads_assert
  leads_get_agents_by_breed_Sheep
  leads_next_real leads_next_int leads_log leads_schedule_add_bear
  leads_schedule_remove_bear leads_schedule_remove_sheep : ids_db.

Ltac leads_tac :=
  repeat (cbn zeta; first
    [ apply leads_ret
    | apply leads_raise
    | solve [auto with ids_db]
    | apply leads_for_each; intros ?
    | apply leads_bind_same; [|intros ?]
    | apply leads_modify_bear; intros ?; reflexivity
    | match goal with
      | |- leads _ _ (if ?c then _ else _) => destruct c
      | |- leads _ _ (match ?x with _ => _ end) => destruct x
      end ]).

Lemma leads_random_choice {A} (xs : list A) : leads P P (random_choice xs).
Proof. unfold random_choice. leads_tac. Qed.

Lemma leads_random_randrange (n : Z) : leads P P (random_randrange n).
Proof. unfold random_randrange. leads_tac. Qed.

Lemma leads_rg_integers (low high : Z) : leads P P (rg_integers low high).
Proof. unfold rg_integers. leads_tac. Qed.

Lemma leads_rg_exponential (scale : Z) : leads P P (rg_exponential scale).
Proof. unfold rg_exponential. leads_tac. Qed.

Local Hint Resolve leads_random_choice leads_random_randrange
  leads_rg_integers leads_rg_exponential : ids_db.

Lemma leads_bond_with_cub (mother cub : ref) :
  leads P P (bond_with_cub mother cub).
Proof. unfold bond_with_cub. leads_tac. Qed.

Lemma leads_chase_cub_away (mother cub : ref) :
  leads P P (chase_cub_away mother cub).
Proof. unfold chase_cub_away. leads_tac. Qed.

Lemma leads_attempt_to_mate (male female : ref) :
  leads P P (attempt_to_mate male female).
Proof. unfold attempt_to_mate, random_random. leads_tac. Qed.

Lemma leads_update_loop (fuel : nat) (self : ref) :
  leads P P (update_loop fuel self).
Proof. induction fuel; cbn [update_loop]; leads_tac; auto. Qed.

Local Hint Resolve leads_bond_with_cub leads_chase_cub_away
  leads_attempt_to_mate leads_update_loop : ids_db.

Lemma leads_update (self : ref) : leads P P (update self).
Proof. unfold update. leads_tac. Qed.

Lemma leads_Bear_die (self : ref) : leads P P (Bear_die self).
Proof. unfold Bear_die. leads_tac. Qed.

Local Hint Resolve leads_update leads_Bear_die : ids_db.

Lemma leads_attack (self other : ref) : leads P P (attack self other).
Proof. unfold attack. leads_tac. Qed.

Lemma leads_hunt (self : ref) (sheep : Z) (assistant : option ref) :
  leads P P (hunt self sheep assistant).
Proof. unfold hunt, Sheep_die, random_random. leads_tac. Qed.

Lemma leads_care_for_cubs (self : ref) : leads P P (care_for_cubs self).
Proof. unfold care_for_cubs. leads_tac. Qed.

(** The rest of [Bear.step] keeps what the birth of a litter keeps. *)
Hypothesis P_give_birth :
  forall self father, leads P P (give_birth self father).

Local Hint Resolve leads_attack leads_hunt leads_care_for_cubs
  P_give_birth : ids_db.

Lemma leads_encounter (self : ref) : leads P P (encounter self).
Proof. unfold encounter. leads_tac. Qed.

Local Hint Resolve leads_encounter : ids_db.

Lemma leads_encounter_loop (n : nat) (self : ref) :
  leads P P (encounter_loop n self).
Proof. induction n; cbn [encounter_loop]; leads_tac; auto. Qed.

Local Hint Resolve leads_encounter_loop : ids_db.

Lemma leads_generate_encounters (self : ref) :
  leads P P (generate_encounters self).
Proof. unfold generate_encounters, np_random_poisson. leads_tac. Qed.

Local Hint Resolve leads_generate_encounters : ids_db.

Lemma leads_Bear_step (self : ref) : leads P P (Bear_step self).
Proof.
  unfold Bear_step. leads_tac.
Qed.
End Ids.

(** ** Fresh ids *)

Lemma fmap_unique_id_alter (f : Bear -> Bear) (r : ref) (h : list Bear) :
  (forall b, unique_id (f b) = unique_id b) ->
  unique_id <$> alter f r h = unique_id <$> h.
Proof.
  intros Hf. apply list_eq. intros i. rewrite !list_lookup_fmap.
  destruct (decide (i = r)) as [->|Hne].
  - rewrite list_lookup_alter_eq. destruct (h !! r); cbn; [|reflexivity].
    now rewrite Hf.
  - now rewrite list_lookup_alter_ne by congruence.
Qed.

Lemma filter_sublist {A} (f : A -> bool) (l : list A) :
  List.filter f l `sublist_of` l.
Proof.
  induction l as [|a l IH]; cbn; [constructor|].
  destruct (f a); [now constructor | now apply sublist_cons].
Qed.

Lemma all_ids_eat (s : Z) (m : Model) :
  all_ids
    (set_schedule_sheep
       (List.filter (fun x => negb (Z.eqb s x)) (schedule_sheep m)) m)
  `sublist_of` all_ids m.
Proof.
  unfold all_ids. cbn. apply sublist_app; [apply filter_sublist|reflexivity].
Qed.

Lemma fresh_alter (f : Bear -> Bear) (r : ref) (m : Model) :
  (forall b, unique_id (f b) = unique_id b) ->
  ids_fresh m -> ids_fresh (set_heap (alter f r (heap m)) m).
Proof.
  intros Hf H. unfold ids_fresh, all_ids in *. cbn.
  now rewrite fmap_unique_id_alter.
Qed.

Lemma fresh_eat (s : Z) (m : Model) :
  ids_fresh m ->
  ids_fresh
    (set_schedule_sheep
       (List.filter (fun x => negb (Z.eqb s x)) (schedule_sheep m)) m).
Proof.
  intros [H1 H2]. split.
  - eapply sublist_NoDup; [exact H1 | apply all_ids_eat].
  - rewrite Forall_forall in H2 |- *. intros x Hx. apply H2.
    eapply elem_of_sublist; [exact Hx | apply all_ids_eat].
Qed.

Lemma below_fresh (u : Z) (m : Model) : ids_below u m -> ids_fresh m.
Proof.
  intros (H1 & H2 & H3). split; [assumption|].
  eapply Forall_impl; [exact H2|]. cbn. intros; lia.
Qed.

Lemma fresh_below (m : Model) :
  ids_fresh m ->
  ids_below (model_unique_id m + 1)
    (set_model_unique_id (model_unique_id m + 1) m).
Proof.
  intros [H1 H2]. split; [exact H1|]. split; [|cbn; lia].
  eapply Forall_impl; [exact H2|]. cbn. intros; lia.
Qed.

Lemma unique_id_new_bear uid e beh mo parents u :
  unique_id (new_bear uid e beh mo parents u) = uid.
Proof.
  unfold new_bear. now destruct (init_limits beh parents) as [[[? ?] ?] ?].
Qed.

Lemma below_alloc_bear (u : Z) (b : Bear) :
  unique_id b = u -> leads (ids_below u) ids_fresh (alloc_bear b).
Proof.
  intros Hb m (H1 & H2 & H3). unfold ids_fresh, all_ids in *. cbn.
  rewrite fmap_app, app_assoc. cbn. rewrite Hb. split.
  - apply NoDup_app. split; [assumption|]. split; [|apply NoDup_singleton].
    intros x Hx Hx'. apply list_elem_of_singleton in Hx'. subst x.
    rewrite Forall_forall in H2. specialize (H2 _ Hx). lia.
  - apply Forall_app. split.
    + eapply Forall_impl; [exact H2|]. cbn. intros; lia.
    + apply Forall_singleton. lia.
Qed.

Lemma below_rng (u : Z) (g : Rng) (m : Model) :
  ids_below u m -> ids_below u (set_rng g m).
Proof. intros H. exact H. Qed.

Lemma below_Bear__init__ (u : Z) (e : Q) (beh : Behavior)
    (father mother : option ref) :
  leads (ids_below u) ids_fresh (Bear__init__ u e beh father mother).
Proof.
  unfold Bear__init__.
  apply (leads_bind (ids_below u) (ids_below u)); [|apply below_fresh|].
  - destruct father, mother;
      repeat first [ apply leads_ret
                   | apply leads_bind_same; [apply leads_get_bear|intros ?] ].
  - intros parents.
    apply (leads_bind (ids_below u) (ids_below u)); [|apply below_fresh|].
    + apply leads_next_real. apply below_rng.
    + intros x. apply below_alloc_bear, unique_id_new_bear.
Qed.

Lemma fresh_make_cubs (n : nat) (self father : ref) (cub_cnt : Z) :
  leads ids_fresh ids_fresh (make_cubs n self father cub_cnt).
Proof.
  induction n as [|k IH]; cbn [make_cubs]; [apply leads_ret|].
  intros m H. rewrite generate_id_run.
  apply fresh_below in H. revert H.
  generalize (set_model_unique_id (model_unique_id m + 1) m).
  generalize (model_unique_id m + 1). intros u.
  change (leads (ids_below u) ids_fresh
            (let* sb := get_bear self in
             let* fb := get_bear father in
             let* beh := random_choice [behavior fb; behavior sb] in
             let* cub :=
               Bear__init__ u (energy sb / inject_Z cub_cnt)%Q beh
                 (Some father) (Some self) in
             let* rest := make_cubs k self father cub_cnt in
             ret (cub :: rest))).
  apply (leads_bind _ (ids_below u));
    [apply leads_get_bear | apply below_fresh | intros sb].
  apply (leads_bind _ (ids_below u));
    [apply leads_get_bear | apply below_fresh | intros fb].
  apply (leads_bind _ (ids_below u));
    [apply leads_random_choice, below_rng | apply below_fresh
    | intros beh].
  apply (leads_bind _ ids_fresh);
    [apply below_Bear__init__ | auto | intros cub].
  apply leads_bind_same; [exact IH | intros rest; apply leads_ret].
Qed.

Lemma fresh_rng (g : Rng) (m : Model) : ids_fresh m -> ids_fresh (set_rng g m).
Proof. intros H. exact H. Qed.

Lemma fresh_trace (t : list Event) (m : Model) :
  ids_fresh m -> ids_fresh (set_trace t m).
Proof. intros H. exact H. Qed.

Lemma fresh_bears (l : list ref) (m : Model) :
  ids_fresh m -> ids_fresh (set_schedule_bears l m).
Proof. intros H. exact H. Qed.

Lemma fresh_give_birth (self father : ref) :
  leads ids_fresh ids_fresh (give_birth self father).
Proof.
  unfold give_birth.
  repeat first
    [ apply leads_for_each; intros ?
    | apply leads_get_bear
    | apply fresh_make_cubs
    | apply (leads_rg_integers ids_fresh fresh_rng)
    | apply (leads_modify_bear ids_fresh fresh_alter); intros ?; reflexivity
    | apply (leads_schedule_add_bear ids_fresh fresh_bears)
    | apply (leads_bond_with_cub ids_fresh fresh_alter)
    | apply leads_bind_same; [|intros ?] ].
Qed.

Lemma fresh_Sheep_step (self : Z) :
  leads ids_fresh ids_fresh (Sheep_step self).
Proof.
  intros m [H1 H2]. unfold Sheep_step.
  rewrite get_model_run, next_real_run.
  destruct (Qltb _ _); [|split; assumption].
  rewrite get_sheep_run. cbn [schedule_sheep set_rng].
  destruct (_ <? _); [|split; assumption].
  rewrite generate_id_run. unfold ids_fresh, all_ids in *. cbn.
  rewrite <- app_assoc. cbn. split.
  - rewrite <- Permutation_middle. apply NoDup_cons. split; [|assumption].
    intros Hx. rewrite Forall_forall in H2. specialize (H2 _ Hx). lia.
  - apply Forall_app in H2 as [Ha Hb]. apply Forall_app. split.
    + eapply Forall_impl; [exact Ha|]. cbn. intros; lia.
    + constructor; [lia|]. eapply Forall_impl; [exact Hb|]. cbn. intros; lia.
Qed.

Lemma fresh_run_tick (t : Tick) : leads ids_fresh ids_fresh (run_tick t).
Proof.
  destruct t as [s|r|s]; cbn [run_tick].
  - apply fresh_Sheep_step.
  - apply (leads_Bear_step ids_fresh fresh_rng fresh_trace fresh_bears
             fresh_alter fresh_eat fresh_give_birth).
  - intros m H. exact H.
Qed.

Lemma unique_id_founder uid beh range b :
  founder uid beh range b -> unique_id b = uid.
Proof. intros (e & u & _ & ->). apply unique_id_new_bear. Qed.

Lemma init_fresh (args : Params) (ns nc na : nat) (g : Rng) :
  0 < bear_gain_from_food args ->
  ids_fresh (snd (BearSheepPredation__init__ args ns nc na g)).
Proof.
  intros Hgain.
  destruct (constructor_run args ns nc na g Hgain)
    as (_ & _ & _ & Hsheep & Hlen & _ & Hid & Hall).
  set (m := snd (BearSheepPredation__init__ args ns nc na g)) in *.
  assert (unique_id <$> heap m
          = (fun i => 1 + Z.of_nat ns + Z.of_nat i) <$> seq 0 (nc + na))
    as Hbears.
  { apply list_eq. intros i. rewrite !list_lookup_fmap.
    destruct (Nat.lt_ge_cases i (nc + na)) as [Hlt|Hge].
    - rewrite lookup_seq_lt by exact Hlt.
      destruct (lookup_lt_is_Some_2 (heap m) i) as [b Hb]; [lia|].
      rewrite Hb. cbn. f_equal. specialize (Hall i b Hb).
      destruct (i <? nc)%nat; eapply unique_id_founder; exact Hall.
    - rewrite lookup_seq_ge by exact Hge.
      now rewrite lookup_ge_None_2 by lia. }
  unfold ids_fresh, all_ids. rewrite Hsheep, Hbears, Hid. split.
  - apply NoDup_app. split; [|split].
    + apply NoDup_fmap_2; [intros x y; lia | apply NoDup_seq].
    + intros x Hx Hx'.
      apply list_elem_of_fmap in Hx as (i & -> & Hi).
      apply list_elem_of_fmap in Hx' as (j & E & Hj).
      apply elem_of_seq in Hi. lia.
    + apply NoDup_fmap_2; [intros x y; lia | apply NoDup_seq].
  - apply Forall_app. split; apply Forall_fmap, Forall_forall;
      intros i Hi; apply elem_of_seq in Hi; cbn; lia.
Qed.

(** X13.  Ids are never reused.  In the state a successful constructor
    leaves, and after any sequence of sheep steps, bear steps and changes
    of season, complete or cut short by an exception, the ids of the
    registered sheep and of all the bears ever created are pairwise
    distinct and none is above the model's counter. *)
Theorem ids_stay_distinct (args : Params) (ns nc na : nat) (g : Rng)
    (ticks : list Tick) :
  0 < bear_gain_from_food args ->
  ids_fresh
    (snd (for_each ticks run_tick
            (snd (BearSheepPredation__init__ args ns nc na g)))).
Proof.
  intros Hgain.
  apply (leads_for_each ids_fresh ticks run_tick fresh_run_tick).
  now apply init_fresh.
Qed.

Lemma ids_stay_distinct_witness :
  ids_fresh
    (snd (for_each [TickSheep 1; TickSeason mating; TickBear 0%nat] run_tick
            (snd (BearSheepPredation__init__ default_params 3 2 1 silent)))).
Proof.
  refine (ids_stay_distinct default_params 3 2 1 silent _ _).
  cbn. lia.
Defined.

(** ** Runs and the size of the flock *)

Section Registry.
Variable P : Model -> Prop.
Hypothesis P_rng : forall g m, P m -> P (set_rng g m).
Hypothesis P_trace : forall t m, P m -> P (set_trace t m).
Hypothesis P_bears : forall l m, P m -> P (set_schedule_bears l m).
Hypothesis P_heap : forall h m, P m -> P (set_heap h m).
Hypothesis P_eat :
  forall s m, P m ->
    P (set_schedule_sheep
         (List.filter (fun x => negb (Z.eqb s x)) (schedule_sheep m)) m).
Hypothesis P_uid : forall u m, P m -> P (set_model_unique_id u m).

Lemma registry_alter (f : Bear -> Bear) (r : ref) (m : Model) :
  (forall b, unique_id (f b) = unique_id b) ->
  P m -> P (set_heap (alter f r (heap m)) m).
Proof. intros _. apply P_heap. Qed.

Lemma registry_Bear__init__ (uid : Z) (e : Q) (beh : Behavior)
    (father mother : option ref) :
  leads P P (Bear__init__ uid e beh father mother).
Proof.
  unfold Bear__init__. apply leads_bind_same.
  - destruct father, mother;
      repeat first [ apply leads_ret
                   | apply leads_bind_same; [apply leads_get_bear|intros ?] ].
  - intros parents. apply leads_bind_same; [now apply leads_next_real|].
    intros u m H. now apply P_heap.
Qed.

Lemma registry_make_cubs (n : nat) (self father : ref) (cub_cnt : Z) :
  leads P P (make_cubs n self father cub_cnt).
Proof.
  induction n as [|k IH]; cbn [make_cubs]; [apply leads_ret|].
  apply leads_bind_same; [intros m H; now apply P_uid | intros uid].
  repeat first
    [ apply leads_ret
    | apply leads_get_bear
    | exact IH
    | apply registry_Bear__init__
    | apply (leads_random_choice P P_rng)
    | apply leads_bind_same; [|intros ?] ].
Qed.

Lemma registry_give_birth (self father : ref) :
  leads P P (give_birth self father).
Proof.
  unfold give_birth.
  repeat first
    [ apply leads_for_each; intros ?
    | apply leads_get_bear
    | apply registry_make_cubs
    | apply (leads_rg_integers P P_rng)
    | apply (leads_modify_bear P registry_alter); intros ?; reflexivity
    | apply (leads_schedule_add_bear P P_bears)
    | apply (leads_bond_with_cub P registry_alter)
    | apply leads_bind_same; [|intros ?] ].
Qed.

Lemma registry_Bear_step (self : ref) : leads P P (Bear_step self).
Proof.
  apply (leads_Bear_step P P_rng P_trace P_bears registry_alter P_eat
           registry_give_birth).
Qed.

Lemma registry_create_bears (n : nat) (beh : Behavior) (range uid : Z) :
  leads P P (create_bears n beh range uid).
Proof.
  revert uid. induction n as [|k IH]; intros uid; cbn [create_bears];
    [apply leads_ret|].
  repeat first
    [ apply IH
    | apply registry_Bear__init__
    | apply (leads_random_randrange P P_rng)
    | apply (leads_schedule_add_bear P P_bears)
    | apply leads_bind_same; [|intros ?] ].
Qed.
End Registry.

Lemma filter_length_le {A} (f : A -> bool) (l : list A) :
  (length (List.filter f l) <= length l)%nat.
Proof.
  induction l as [|a l IH]; cbn; [lia|]. destruct (f a); cbn; lia.
Qed.

Lemma flock_within_eat (p : Params) (bound s : Z) (m : Model) :
  flock_within p bound m ->
  flock_within p bound
    (set_schedule_sheep
       (List.filter (fun x => negb (Z.eqb s x)) (schedule_sheep m)) m).
Proof.
  intros [H1 H2]. split; [exact H1|]. unfold sheep_count in *. cbn.
  pose proof (filter_length_le (fun x => negb (Z.eqb s x))
                (schedule_sheep m)).
  lia.
Qed.

Lemma flock_within_run_tick (p : Params) (bound : Z) (t : Tick) :
  sheep_limit p <= bound ->
  leads (flock_within p bound) (flock_within p bound) (run_tick t).
Proof.
  intros Hb. destruct t as [s|r|s]; cbn [run_tick].
  - intros m [H1 H2].
    destruct (Sheep_step_bounded m s) as (_ & Hp & Hc).
    split; [congruence|]. rewrite H1 in Hc. lia.
  - apply registry_Bear_step; try (intros ? m H; exact H).
    intros s m H. now apply flock_within_eat.
  - intros m H. exact H.
Qed.

Lemma init_flock_within (args : Params) (ns nc na : nat) (g : Rng) :
  exists p,
    sheep_limit p = 2000
    /\ flock_within p (Z.max (Z.of_nat ns) 2000)
         (snd (BearSheepPredation__init__ args ns nc na g)).
Proof.
  unfold BearSheepPredation__init__.
  match goal with |- context [mkModel ?p normal 0 [] [] [] g []] =>
    exists p; set (m0 := mkModel p normal 0 [] [] [] g []) end.
  split; [reflexivity|].
  rewrite (bind_run _ _ _ _ _ (create_sheep_run ns 1 m0)). cbn beta.
  match goal with |- ?P (snd (?c ?m1)) =>
    cut (P m1); [apply (leads_bind_same P)|] end.
  - apply registry_create_bears; intros ? m H; exact H.
  - intros u2. apply leads_bind_same.
    + apply registry_create_bears; intros ? m H; exact H.
    + intros u3 m H. exact H.
  - split; [reflexivity|]. unfold sheep_count. cbn.
    rewrite length_fmap, length_seq. lia.
Qed.

(** X14.  The flock of a run.  Whatever the arguments of the constructor,
    after any sequence of sheep steps, bear steps and changes of season
    the number of registered sheep is at most the larger of
    [initial_sheep] and 2000: sheep are born below the limit only, and
    bears only remove sheep. *)
Theorem flock_stays_bounded (args : Params) (ns nc na : nat) (g : Rng)
    (ticks : list Tick) :
  sheep_count
    (snd (for_each ticks run_tick
            (snd (BearSheepPredation__init__ args ns nc na g))))
  <= Z.max (Z.of_nat ns) 2000.
Proof.
  destruct (init_flock_within args ns nc na g) as (p & Hp & Hinit).
  apply (leads_for_each (flock_within p (Z.max (Z.of_nat ns) 2000))
           ticks run_tick).
  - intros t. apply flock_within_run_tick. lia.
  - exact Hinit.
Qed.

(** ** The parental bond *)

Lemma bond_with_cub_run (m : Model) (mother cub : ref) (mb : Bear) :
  heap m !! mother = Some mb ->
  is_female mb = true ->
  (cub < length (heap m))%nat ->
  bond_with_cub mother cub m
  = (Ok tt,
     set_heap
       (alter (set_is_under_parental_care true) cub
          (alter (set_does_care_after_cubs true) mother (heap m))) m).
Proof.
  intros Hm Hf Hc. unfold bond_with_cub.
  rewrite (bind_run _ _ _ _ _ (get_bear_run _ _ _ Hm)), Hf.
  cbn [assert]. rewrite ret_run.
  rewrite modify_bear_bind_run by (eapply lookup_lt_Some; eauto).
  rewrite modify_bear_run by (cbn; now rewrite length_alter).
  reflexivity.
Qed.

Lemma chase_cub_away_run (m : Model) (mother cub : ref) (mb : Bear) :
  heap m !! mother = Some mb ->
  is_female mb = true ->
  (cub < length (heap m))%nat ->
  chase_cub_away mother cub m
  = (Ok tt,
     set_heap
       (alter (set_is_under_parental_care false) cub
          (alter (set_does_care_after_cubs false) mother (heap m))) m).
Proof.
  intros Hm Hf Hc. unfold chase_cub_away.
  rewrite (bind_run _ _ _ _ _ (get_bear_run _ _ _ Hm)), Hf.
  cbn [assert]. rewrite ret_run.
  rewrite modify_bear_bind_run by (eapply lookup_lt_Some; eauto).
  rewrite modify_bear_run by (cbn; now rewrite length_alter).
  reflexivity.
Qed.

(** X15.  A round trip.  For a female that does not care for cubs and a
    bear that is not under care, [bond_with_cub] followed by
    [chase_cub_away] returns and leaves the state exactly as it was. *)
Theorem bond_then_chase (m : Model) (mother cub : ref) (mb cb : Bear) :
  heap m !! mother = Some mb ->
  heap m !! cub = Some cb ->
  is_female mb = true ->
  does_care_after_cubs mb = false ->
  is_under_parental_care cb = false ->
  (do bond_with_cub mother cub then chase_cub_away mother cub) m
  = (Ok tt, m).
Proof.
  intros Hm Hc Hf Hcare Hunder.
  assert (Hlt : (cub < length (heap m))%nat)
    by (eapply lookup_lt_Some; eauto).
  rewrite (bind_run _ _ _ _ _ (bond_with_cub_run m mother cub mb Hm Hf Hlt)).
  set (m1 := set_heap _ m).
  assert (exists mb1, heap m1 !! mother = Some mb1 /\ is_female mb1 = true)
    as (mb1 & Hm1 & Hf1).
  { subst m1. cbn. destruct (decide (mother = cub)) as [->|Hne].
    - rewrite !list_lookup_alter_eq, Hm. cbn. eexists. split; [reflexivity|].
      exact Hf.
    - rewrite list_lookup_alter_ne, list_lookup_alter_eq, Hm by congruence.
      cbn. eexists. split; [reflexivity|]. exact Hf. }
  rewrite (chase_cub_away_run m1 mother cub mb1 Hm1 Hf1)
    by (subst m1; cbn; now rewrite !length_alter).
  f_equal. subst m1. cbn [heap set_heap].
  replace (alter (set_is_under_parental_care false) cub
             (alter (set_does_care_after_cubs false) mother
                (alter (set_is_under_parental_care true) cub
                   (alter (set_does_care_after_cubs true) mother (heap m)))))
    with (heap m); [now destruct m|].
  apply list_eq. intros i.
  destruct (decide (i = cub)) as [Hic|Hic];
    destruct (decide (i = mother)) as [Him|Him]; subst;
    repeat first [ rewrite list_lookup_alter_eq
                 | rewrite list_lookup_alter_ne by congruence ];
    rewrite ?Hm, ?Hc; cbn; try reflexivity.
  - assert (mb = cb) as -> by (rewrite Hm in Hc; now injection Hc). f_equal.
    destruct cb; unfold set_is_under_parental_care,
      set_does_care_after_cubs; cbn in *; congruence.
  - f_equal. destruct cb; unfold set_is_under_parental_care; cbn in *;
      congruence.
  - f_equal. destruct mb; unfold set_does_care_after_cubs; cbn in *;
      congruence.
Qed.

Lemma bond_then_chase_witness :
  (do bond_with_cub 0%nat 1%nat then chase_cub_away 0%nat 1%nat) couple
  = (Ok tt, couple).
Proof.
  exact (bond_then_chase couple 0%nat 1%nat
           (mkBear 1 12 coward false false None 1 0 1 5 8 17 true [] 0)
           (mkBear 2 7 coward false false None 1 0 1 5 8 17 false [] 0)
           eq_refl eq_refl eq_refl eq_refl eq_refl).
Defined.

(** X16.  The assertions.  With a bear that is not female in the place of
    the mother, [bond_with_cub] and [chase_cub_away] raise
    [AssertionError] before they change anything; so does
    [generate_encounters] for a bear under parental care, before any
    draw. *)
Theorem assertions_guard (m : Model) (r cub : ref) (b : Bear) :
  heap m !! r = Some b ->
  (is_female b = false ->
   bond_with_cub r cub m = (Raise AssertionError, m)
   /\ chase_cub_away r cub m = (Raise AssertionError, m))
  /\ (is_under_parental_care b = true ->
      generate_encounters r m = (Raise AssertionError, m)).
Proof.
  intros Hb. split.
  - intros Hf. unfold bond_with_cub, chase_cub_away.
    rewrite !(bind_run _ _ _ _ _ (get_bear_run _ _ _ Hb)), Hf. now split.
  - intros Hu. unfold generate_encounters.
    rewrite (bind_run _ _ _ _ _ (get_bear_run _ _ _ Hb)), Hu. reflexivity.
Qed.

Lemma assertions_guard_witness :
  generate_encounters 0%nat hunting_party
  = (Raise AssertionError, hunting_party).
Proof.
  exact (proj2
           (assertions_guard hunting_party 0%nat 1%nat
              (mkBear 3 5 coward true false (Some 1%nat) 2 0 1 5 8 17 false
                 [] 0) eq_refl) eq_refl).
Defined.

(** ** The errors of a step *)

Lemma safe_ret {A} (P : Model -> Prop) (Q : A -> Model -> Prop) (a : A) :
  (forall m, P m -> Q a m) -> safe P (ret a) Q.
Proof. intros H m Hm. cbn. now apply H. Qed.

Lemma safe_bind {A B} (P : Model -> Prop) (R : A -> Model -> Prop)
    (Q : B -> Model -> Prop) (c : M A) (k : A -> M B) :
  safe P c R -> (forall a, safe (R a) (k a) Q) -> safe P (bind c k) Q.
Proof.
  intros Hc Hk m Hm. unfold bind. specialize (Hc m Hm).
  destruct (c m) as [[a|e] m']; [now apply Hk | assumption].
Qed.

Lemma safe_pre {A} (P P' : Model -> Prop) (c : M A)
    (Q : A -> Model -> Prop) :
  (forall m, P m -> P' m) -> safe P' c Q -> safe P c Q.
Proof. intros H Hc m Hm. apply Hc, H, Hm. Qed.

Lemma safe_post {A} (P : Model -> Prop) (c : M A)
    (Q Q' : A -> Model -> Prop) :
  safe P c Q' -> (forall a m, Q' a m -> Q a m) -> safe P c Q.
Proof.
  intros Hc H m Hm. specialize (Hc m Hm).
  destruct (c m) as [[a|e] m']; [now apply H | assumption].
Qed.

Lemma safe_pure {A} (P : Model -> Prop) (phi : Prop) (c : M A)
    (Q : A -> Model -> Prop) :
  (forall m, P m -> phi) -> (phi -> safe P c Q) -> safe P c Q.
Proof. intros H Hc m Hm. exact (Hc (H m Hm) m Hm). Qed.

Lemma safe_for_each {A} (P : Model -> Prop) (xs : list A)
    (body : A -> M unit) :
  (forall x, x ∈ xs -> safe P (body x) (fun _ => P)) ->
  safe P (for_each xs body) (fun _ => P).
Proof.
  induction xs as [|x xs IH]; intros Hb; cbn [for_each].
  - now apply safe_ret.
  - eapply safe_bind; [apply Hb, list_elem_of_here|]. intros ?. cbn beta.
    apply IH. intros y Hy. apply Hb. now apply list_elem_of_further.
Qed.

Lemma bear_wf_mono (n n' : nat) (b : Bear) :
  (n <= n')%nat -> bear_wf n b -> bear_wf n' b.
Proof.
  intros Hn (H1 & H0 & H2 & H3 & H4). split; [assumption|].
  split; [assumption|]. split; [|split].
  - intros r Hr. specialize (H2 r Hr). lia.
  - eapply Forall_impl; [exact H3|]. cbn. intros; lia.
  - assumption.
Qed.

Lemma knows_weaken (V F V' F' : list ref) (m : Model) :
  V' ⊆ V -> F' ⊆ F -> knows V F m -> knows V' F' m.
Proof.
  intros HV HF (H1 & H2 & H3). split; [assumption|].
  rewrite Forall_forall in H2, H3. split; apply Forall_forall.
  - intros r Hr. apply H2, HV, Hr.
  - intros r Hr. apply H3, HF, Hr.
Qed.

Lemma knows_valid (V F : list ref) (m : Model) (r : ref) :
  r ∈ V -> knows V F m -> (r < length (heap m))%nat.
Proof.
  intros Hr (_ & H2 & _). rewrite Forall_forall in H2. now apply H2.
Qed.

Lemma knows_female (V F : list ref) (m : Model) (r : ref) (b : Bear) :
  r ∈ F -> knows V F m -> heap m !! r = Some b -> is_female b = true.
Proof.
  intros Hr (_ & _ & H3) Hb. rewrite Forall_forall in H3.
  specialize (H3 r Hr). rewrite Hb in H3. cbn in H3. congruence.
Qed.

Lemma knows_lookup (V F : list ref) (m : Model) (r : ref) (b : Bear) :
  knows V F m -> heap m !! r = Some b ->
  bear_wf (length (heap m)) b
  /\ knows (cubs b ++ option_list (mother b) ++ V)
       ((if is_female b then [r] else []) ++ F) m.
Proof.
  intros (H1 & H2 & H3) Hb.
  pose proof (Forall_lookup_1 _ _ _ _ (proj1 H1) Hb) as Hwf.
  split; [exact Hwf|]. split; [assumption|].
  destruct Hwf as (_ & _ & Hm & Hc & _). split.
  - apply Forall_app. split; [exact Hc|]. apply Forall_app.
    split; [|exact H2].
    destruct (mother b) as [mo|]; cbn; [|constructor].
    apply Forall_singleton. now apply Hm.
  - apply Forall_app. split; [|exact H3].
    destruct (is_female b) eqn:E; [|constructor].
    apply Forall_singleton. rewrite Hb. cbn. now rewrite E.
Qed.

Lemma knows_alter (V F : list ref) (m : Model) (r : ref) (f : Bear -> Bear) :
  knows V F m ->
  (forall b, heap m !! r = Some b ->
             bear_wf (length (heap m)) (f b)
             /\ is_female (f b) = is_female b) ->
  knows V F (set_heap (alter f r (heap m)) m).
Proof.
  intros ((H1 & H1' & Hr) & H2 & H3) Hf.
  unfold knows, wf. cbn [heap set_heap schedule_bears params].
  rewrite length_alter.
  split; [split; [|split; assumption]|split; [assumption|]].
  - apply Forall_lookup. intros i x Hx.
    destruct (decide (i = r)) as [->|Hne].
    + rewrite list_lookup_alter_eq in Hx.
      destruct (heap m !! r) as [b|] eqn:Hb; [|discriminate].
      injection Hx as <-. now apply Hf.
    + rewrite list_lookup_alter_ne in Hx by congruence.
      eapply Forall_lookup_1; eauto.
  - eapply Forall_impl; [exact H3|]. cbn. intros i Hi.
    destruct (decide (i = r)) as [->|Hne].
    + rewrite list_lookup_alter_eq.
      destruct (heap m !! r) as [b|] eqn:Hb; [|discriminate].
      cbn in *. now rewrite (proj2 (Hf b eq_refl)).
    + now rewrite list_lookup_alter_ne by congruence.
Qed.

Lemma knows_alloc (V F : list ref) (m : Model) (b : Bear) :
  knows V F m ->
  bear_wf (S (length (heap m))) b ->
  knows (length (heap m) :: V) F (set_heap (heap m ++ [b]) m).
Proof.
  intros ((H1 & H1' & Hr) & H2 & H3) Hb.
  unfold knows, wf. cbn [heap set_heap schedule_bears params].
  rewrite length_app. cbn [length]. rewrite Nat.add_1_r.
  split; [split; [|split; [|exact Hr]]|split].
  - apply Forall_app. split; [|now apply Forall_singleton].
    eapply Forall_impl; [exact H1|]. intros x. apply bear_wf_mono. lia.
  - eapply Forall_impl; [exact H1'|]. cbn. intros; lia.
  - constructor; [lia|]. eapply Forall_impl; [exact H2|]. cbn. intros; lia.
  - eapply Forall_impl; [exact H3|]. cbn. intros i Hi.
    destruct (heap m !! i) as [x|] eqn:Hx; [|discriminate].
    now rewrite (lookup_app_l_Some _ _ _ _ Hx).
Qed.

Lemma knows_schedule_add (V F : list ref) (m : Model) (r : ref) :
  r ∈ V -> knows V F m ->
  knows V F (set_schedule_bears (schedule_bears m ++ [r]) m).
Proof.
  intros Hr K. pose proof (knows_valid V F m r Hr K) as Hv.
  destruct K as ((H1 & H1' & Hrate) & H2 & H3).
  split; [split; [assumption|split; [|assumption]]|split; assumption].
  cbn. apply Forall_app. split; [assumption|now apply Forall_singleton].
Qed.

Lemma knows_schedule_remove (V F : list ref) (m : Model) (r : ref) :
  knows V F m ->
  knows V F
    (set_schedule_bears
       (List.filter (fun x => negb (Nat.eqb r x)) (schedule_bears m)) m).
Proof.
  intros ((H1 & H1' & Hrate) & H2 & H3).
  split; [split; [assumption|split; [|assumption]]|split; assumption].
  cbn. rewrite Forall_forall in H1' |- *. intros x Hx. apply H1'.
  eapply elem_of_sublist; [exact Hx | apply filter_sublist].
Qed.

(** Setters and the well-formedness of a bear. *)

Lemma bear_wf_set_energy n v b : bear_wf n b -> bear_wf n (set_energy v b).
Proof. intros H. exact H. Qed.

Lemma bear_wf_set_under n v b :
  bear_wf n b -> bear_wf n (set_is_under_parental_care v b).
Proof. intros H. exact H. Qed.

Lemma bear_wf_set_level n v b :
  level b <= v -> bear_wf n b -> bear_wf n (set_level v b).
Proof.
  intros Hv (H1 & H0 & H2 & H3 & H4). split; [exact H1|].
  split; [cbn; lia|]. split; [exact H2|]. split; [exact H3|]. exact H4.
Qed.

Lemma bear_wf_set_xp n v b :
  bear_wf n b -> bear_wf n (set_accumulated_xp v b).
Proof. intros H. exact H. Qed.

Lemma bear_wf_set_countdown n v b :
  bear_wf n b -> bear_wf n (set_parental_care_countdown v b).
Proof. intros H. exact H. Qed.

Lemma bear_wf_set_care n v b :
  (v = true -> is_female b = true) ->
  bear_wf n b -> bear_wf n (set_does_care_after_cubs v b).
Proof.
  intros Hv (H1 & H0 & H2 & H3 & H4). split; [exact H1|].
  split; [exact H0|]. split; [exact H2|]. split; [exact H3|]. exact Hv.
Qed.

Lemma bear_wf_set_cubs n cs b :
  Forall (fun c => (c < n)%nat) cs -> bear_wf n b -> bear_wf n (set_cubs cs b).
Proof.
  intros Hcs (H1 & H0 & H2 & H3 & H4). split; [exact H1|].
  split; [exact H0|]. split; [exact H2|]. split; [exact Hcs|]. exact H4.
Qed.

(** The specifications of the primitives. *)

Lemma safe_get_bear (P : Model -> Prop) (V F : list ref) {B} (r : ref)
    (k : Bear -> M B) (Q : B -> Model -> Prop) :
  (forall m, P m -> knows V F m) ->
  r ∈ V ->
  (forall b,
      limits_ok b /\ 1 <= level b ->
      (does_care_after_cubs b = true -> is_female b = true) ->
      safe (fun m => P m
                     /\ knows (cubs b ++ option_list (mother b) ++ V)
                          ((if is_female b then [r] else []) ++ F) m
                     /\ heap m !! r = Some b)
        (k b) Q) ->
  safe P (bind (get_bear r) k) Q.
Proof.
  intros HP Hr Hk m Hm. pose proof (HP m Hm) as K.
  destruct (lookup_lt_is_Some_2 (heap m) r (knows_valid V F m r Hr K))
    as [b Hb].
  rewrite (bind_run _ _ _ _ _ (get_bear_run _ _ _ Hb)).
  destruct (knows_lookup V F m r b K Hb) as [(H1 & H0 & _ & _ & H4) K'].
  apply (Hk b (conj H1 H0) H4 m). auto.
Qed.

Lemma safe_modify_bear (V F : list ref) (r : ref) (f : Bear -> Bear) :
  r ∈ V ->
  (forall m b, knows V F m -> heap m !! r = Some b ->
               bear_wf (length (heap m)) (f b)
               /\ is_female (f b) = is_female b) ->
  safe (knows V F) (modify_bear r f) (fun _ => knows V F).
Proof.
  intros Hr Hf m K.
  rewrite modify_bear_run by (eapply knows_valid; eauto).
  apply knows_alter; [assumption|]. intros b Hb. now apply Hf.
Qed.

Lemma safe_modify_neutral (V F : list ref) (r : ref) (f : Bear -> Bear) :
  r ∈ V ->
  (forall n b, bear_wf n b -> bear_wf n (f b)) ->
  (forall b, is_female (f b) = is_female b) ->
  safe (knows V F) (modify_bear r f) (fun _ => knows V F).
Proof.
  intros Hr Hf Hfem. apply safe_modify_bear; [assumption|].
  intros m b K Hb. split; [|apply Hfem]. apply Hf.
  exact (proj1 (knows_lookup V F m r b K Hb)).
Qed.

Lemma safe_same {A} (V F : list ref) (c : M A) :
  (forall m, exists a m', c m = (Ok a, m')
                          /\ heap m' = heap m
                          /\ schedule_bears m' = schedule_bears m
                          /\ params m' = params m) ->
  safe (knows V F) c (fun _ => knows V F).
Proof.
  intros H m K. destruct (H m) as (a & m' & -> & Hh & Hs & Hp).
  unfold knows, wf in *. now rewrite Hh, Hs, Hp.
Qed.

Lemma safe_log (V F : list ref) (e : Event) :
  safe (knows V F) (log e) (fun _ => knows V F).
Proof. apply safe_same. intros m. eexists _, _. repeat split. Qed.

Lemma safe_next_real (V F : list ref) :
  safe (knows V F) next_real (fun _ => knows V F).
Proof. apply safe_same. intros m. eexists _, _. repeat split. Qed.

Lemma safe_next_int (V F : list ref) :
  safe (knows V F) next_int (fun _ => knows V F).
Proof. apply safe_same. intros m. eexists _, _. repeat split. Qed.

Lemma safe_generate_id (V F : list ref) :
  safe (knows V F) generate_id (fun _ => knows V F).
Proof. apply safe_same. intros m. eexists _, _. repeat split. Qed.

Lemma safe_rg_exponential (V F : list ref) (scale : Z) :
  0 <= scale ->
  safe (knows V F) (rg_exponential scale) (fun _ => knows V F).
Proof.
  intros H. apply safe_same. intros m. unfold rg_exponential, bind, log.
  destruct (Z.ltb_spec scale 0); [lia|]. eexists _, _. repeat split.
Qed.

Lemma safe_np_random_poisson (V F : list ref) (rate : Q) :
  (0 <= rate <= poisson_lam_max)%Q ->
  safe (knows V F) (np_random_poisson rate) (fun _ => knows V F).
Proof.
  intros H. apply safe_same. intros m. unfold np_random_poisson.
  rewrite (poisson_guard _ H). eexists _, _. repeat split.
Qed.

Lemma safe_rg_integers (V F : list ref) (low high : Z) :
  low < high ->
  safe (knows V F) (rg_integers low high) (fun _ => knows V F).
Proof.
  intros H. apply safe_same. intros m. unfold rg_integers.
  destruct (Z.ltb_spec low high); [|lia]. eexists _, _. repeat split.
Qed.

Lemma safe_random_choice {A} (V F : list ref) (xs : list A) :
  xs ≠ [] ->
  safe (knows V F) (random_choice xs) (fun x m => knows V F m /\ x ∈ xs).
Proof.
  intros Hne m K.
  destruct (random_choice_run xs ret m Hne) as (x & Hx & Hrun).
  unfold bind in Hrun. destruct (random_choice xs m) as [[a|e] m'].
  - cbn in Hrun. injection Hrun as -> ->. split; [exact K|exact Hx].
  - discriminate.
Qed.

Lemma safe_schedule_add_bear (V F : list ref) (r : ref) :
  r ∈ V -> safe (knows V F) (schedule_add_bear r) (fun _ => knows V F).
Proof. intros Hr m K. cbn. now apply knows_schedule_add. Qed.

Lemma safe_schedule_remove_bear (V F : list ref) (r : ref) :
  safe (knows V F) (schedule_remove_bear r) (fun _ => knows V F).
Proof.
  intros m K. unfold schedule_remove_bear.
  destruct (existsb _ _); [now apply knows_schedule_remove|reflexivity].
Qed.

Lemma safe_Sheep_die (V F : list ref) (s : Z) :
  safe (knows V F) (Sheep_die s) (fun _ => knows V F).
Proof.
  intros m K. unfold Sheep_die, schedule_remove_sheep.
  destruct (existsb _ _); [exact K|reflexivity].
Qed.

Lemma safe_seq {A B} (P R : Model -> Prop) (Q : B -> Model -> Prop)
    (c : M A) (k : M B) :
  safe P c (fun _ => R) -> safe R k Q -> safe P (bind c (fun _ => k)) Q.
Proof. intros Hc Hk. eapply safe_bind; [exact Hc|]. intros ?. exact Hk. Qed.

Lemma safe_weaken {A} (V F V' F' : list ref) (c : M A) :
  V' ⊆ V -> F' ⊆ F ->
  safe (knows V F) c (fun _ => knows V F) ->
  safe (knows V F) c (fun _ => knows V' F').
Proof.
  intros HV HF H. eapply safe_post; [exact H|].
  intros ? m. now apply knows_weaken.
Qed.

Ltac mem := rewrite ?elem_of_app, ?elem_of_cons; tauto.

Ltac seq_same :=
  match goal with
  | |- safe (knows ?V' ?F') _ _ => apply (safe_seq _ (knows V' F'))
  end.

Ltac incl :=
  let x := fresh "x" in
  let Hx := fresh "Hx" in
  intros x Hx;
  rewrite ?elem_of_app, ?elem_of_cons in Hx;
  rewrite ?elem_of_app, ?elem_of_cons;
  tauto.

Ltac first_of_pre := eapply safe_pre; [intros ? (? & _); eassumption|].
Ltac second_of_pre := eapply safe_pre; [intros ? (_ & ? & _); eassumption|].

Lemma safe_get_model (P : Model -> Prop) {B} (k : Model -> M B)
    (Q : B -> Model -> Prop) :
  (forall x, safe (fun m => P m /\ x = m) (k x) Q) ->
  safe P (bind get_model k) Q.
Proof. intros H m Hm. rewrite get_model_run. now apply H. Qed.

Lemma safe_chase_cub_away (V F : list ref) (mother cub : ref) :
  mother ∈ V -> cub ∈ V -> mother ∈ F ->
  safe (knows V F) (chase_cub_away mother cub) (fun _ => knows V F).
Proof.
  intros HmV HcV HmF. unfold chase_cub_away.
  apply (safe_get_bear _ V F); [auto|assumption|]. intros mb _ _.
  apply (safe_pure _ (is_female mb = true)).
  { intros m (K & _ & Hb). eapply knows_female; eauto. }
  intros ->. first_of_pre. cbn [assert].
  apply (safe_seq _ (knows V F)); [apply safe_ret; auto|].
  eapply safe_seq.
  - apply safe_modify_neutral; [assumption| |reflexivity].
    intros n b. apply bear_wf_set_care. discriminate.
  - apply safe_modify_neutral; [assumption| |reflexivity].
    intros n b. apply bear_wf_set_under.
Qed.

Lemma safe_bond_with_cub (V F : list ref) (mother cub : ref) :
  mother ∈ V -> cub ∈ V -> mother ∈ F ->
  safe (knows V F) (bond_with_cub mother cub) (fun _ => knows V F).
Proof.
  intros HmV HcV HmF. unfold bond_with_cub.
  apply (safe_get_bear _ V F); [auto|assumption|]. intros mb _ _.
  apply (safe_pure _ (is_female mb = true)).
  { intros m (K & _ & Hb). eapply knows_female; eauto. }
  intros ->. first_of_pre. cbn [assert].
  apply (safe_seq _ (knows V F)); [apply safe_ret; auto|].
  eapply safe_seq.
  - apply safe_modify_bear; [assumption|]. intros m b K Hb.
    split; [|reflexivity]. apply bear_wf_set_care.
    + intros _. eapply knows_female; eauto.
    + exact (proj1 (knows_lookup V F m mother b K Hb)).
  - apply safe_modify_neutral; [assumption| |reflexivity].
    intros n b. apply bear_wf_set_under.
Qed.

Lemma safe_attempt_to_mate (V F : list ref) (male female : ref) :
  male ∈ V -> female ∈ V ->
  safe (knows V F) (attempt_to_mate male female) (fun _ => knows V F).
Proof.
  intros HmV HfV. unfold attempt_to_mate.
  apply (safe_get_bear _ V F); [auto|assumption|]. intros mb _ _.
  first_of_pre.
  apply (safe_get_bear _ V F); [auto|assumption|]. intros fb _ _.
  first_of_pre.
  apply safe_get_model. intros x. first_of_pre.
  destruct (does_care_after_cubs fb); [apply safe_ret; auto|].
  eapply safe_bind; [apply safe_next_real|]. intros u.
  apply safe_ret. auto.
Qed.

Lemma safe_update (V F : list ref) (self : ref) :
  self ∈ V -> safe (knows V F) (update self) (fun _ => knows V F).
Proof.
  intros Hs m K.
  destruct (lookup_lt_is_Some_2 (heap m) self (knows_valid V F m self Hs K))
    as [b Hb].
  destruct (update_run m self b Hb) as (L & HL & ->).
  apply knows_alter; [assumption|]. intros x Hx. split; [|reflexivity].
  apply bear_wf_set_level.
  - rewrite Hb in Hx. injection Hx as <-. exact HL.
  - exact (proj1 (knows_lookup V F m self x K Hx)).
Qed.

Lemma safe_Bear_die (V F : list ref) (self : ref) :
  self ∈ V -> safe (knows V F) (Bear_die self) (fun _ => knows V F).
Proof.
  intros Hs. unfold Bear_die.
  eapply safe_seq; [apply safe_log|].
  apply (safe_get_bear _ V F); [auto|assumption|]. intros b _ Hcare.
  second_of_pre.
  seq_same; [|apply safe_weaken;
                [incl | incl | apply safe_schedule_remove_bear]].
  destruct (does_care_after_cubs b) eqn:Hc; [|apply safe_ret; auto].
  rewrite (Hcare eq_refl).
  apply safe_for_each. intros c Hcub.
  apply safe_chase_cub_away; mem.
Qed.

Ltac bind_same :=
  match goal with
  | |- safe (knows ?V' ?F') _ _ =>
      apply (safe_bind _ (fun _ => knows V' F')); [|intros ?]
  end.

Lemma safe_gain_xp (V F : list ref) (r : ref) (f : Bear -> Q) :
  r ∈ V ->
  safe (knows V F)
    (modify_bear r (fun b => set_accumulated_xp (f b) b))
    (fun _ => knows V F).
Proof.
  intros Hr. apply safe_modify_neutral; [assumption| |reflexivity].
  intros n b. apply bear_wf_set_xp.
Qed.

Lemma safe_attack (V F : list ref) (self other : ref) :
  self ∈ V -> other ∈ V ->
  safe (knows V F) (attack self other) (fun _ => knows V F).
Proof.
  intros Hs Ho. unfold attack.
  seq_same; [apply safe_log|].
  apply (safe_get_bear _ V F); [auto|assumption|]. intros sb [_ Hlevel] _.
  first_of_pre.
  apply (safe_get_bear _ V F); [auto|assumption|]. intros ob _ _.
  first_of_pre.
  apply safe_get_model. intros x. first_of_pre.
  bind_same;
    [apply safe_rg_exponential; unfold other_bear_attack_strength; lia|].
  bind_same;
    [apply safe_rg_exponential; unfold this_bear_attack_strength; lia|].
  destruct (Qltb _ _).
  - seq_same; [now apply safe_gain_xp|].
    seq_same; [now apply safe_Bear_die|]. now apply safe_update.
  - seq_same; [now apply safe_gain_xp|].
    seq_same; [now apply safe_Bear_die|]. now apply safe_update.
Qed.

Lemma safe_hunt (V F : list ref) (self : ref) (sheep : Z)
    (assistant : option ref) :
  self ∈ V -> (forall a, assistant = Some a -> a ∈ V) ->
  safe (knows V F) (hunt self sheep assistant) (fun _ => knows V F).
Proof.
  intros Hs Ha. unfold hunt.
  apply (safe_get_bear _ V F); [auto|assumption|]. intros sb _ _.
  first_of_pre.
  bind_same.
  { destruct assistant as [a|]; [|apply safe_ret; auto].
    apply (safe_get_bear _ V F); [auto|now apply Ha|]. intros ab _ _.
    first_of_pre. apply safe_ret. auto. }
  apply safe_get_model. intros x. first_of_pre.
  bind_same; [apply safe_next_real|].
  seq_same; [|now apply safe_update].
  destruct (Qltb _ _); [|apply safe_ret; auto].
  seq_same; [now apply safe_gain_xp | apply safe_Sheep_die].
Qed.

Lemma safe_Bear__init__ (V F : list ref) (uid : Z) (e : Q) (beh : Behavior)
    (father mother : option ref) :
  (forall r, father = Some r -> r ∈ V) ->
  (forall r, mother = Some r -> r ∈ V) ->
  safe (knows V F) (Bear__init__ uid e beh father mother)
    (fun r => knows (r :: V) F).
Proof.
  intros Hf Hm m K.
  assert (Hmo : forall r, mother = Some r -> (r < S (length (heap m)))%nat).
  { intros r Hr. pose proof (knows_valid V F m r (Hm r Hr) K). lia. }
  assert (Hfounder :
    forall u, bear_wf (S (length (heap m)))
                (new_bear uid e beh mother None u)).
  { intros u. split; [apply limits_ok_founder|].
    unfold new_bear. destruct (init_limits beh None) as [[[? ?] ?] ?]. cbn.
    split; [lia|]. split; [exact Hmo|]. split; [constructor|discriminate]. }
  destruct father as [f|], mother as [mo|];
    try (unfold Bear__init__; cbn beta iota;
         rewrite ret_run, next_real_run; cbn [alloc_bear];
         apply (knows_alloc V F (set_rng _ m)); [exact K|apply Hfounder]).
  destruct (lookup_lt_is_Some_2 (heap m) f
              (knows_valid V F m f (Hf f eq_refl) K)) as [fb Hfb].
  destruct (lookup_lt_is_Some_2 (heap m) mo
              (knows_valid V F m mo (Hm mo eq_refl) K)) as [mb Hmb].
  rewrite (Bear__init__run uid e beh f mo fb mb m Hfb Hmb).
  apply (knows_alloc V F (set_rng _ m)); [exact K|].
  split.
  - apply limits_ok_cub.
    + exact (proj1 (proj1 (knows_lookup V F m f fb K Hfb))).
    + exact (proj1 (proj1 (knows_lookup V F m mo mb K Hmb))).
  - unfold new_bear.
    destruct (init_limits beh (Some (fb, mb))) as [[[? ?] ?] ?]. cbn.
    split; [lia|]. split; [exact Hmo|]. split; [constructor|discriminate].
Qed.

Lemma safe_make_cubs (n : nat) (V F : list ref) (self father : ref)
    (cub_cnt : Z) :
  self ∈ V -> father ∈ V ->
  safe (knows V F) (make_cubs n self father cub_cnt)
    (fun cs => knows (cs ++ V) F).
Proof.
  revert V. induction n as [|k IH]; intros V Hs Hf; cbn [make_cubs].
  - apply safe_ret. auto.
  - bind_same; [apply safe_generate_id|].
    apply (safe_get_bear _ V F); [auto|assumption|]. intros sb _ _.
    first_of_pre.
    apply (safe_get_bear _ V F); [auto|assumption|]. intros fb _ _.
    first_of_pre.
    apply (safe_bind _ (fun _ => knows V F)).
    { eapply safe_post; [apply safe_random_choice; discriminate|].
      intros ? m [K _]. exact K. }
    intros beh.
    eapply safe_bind.
    { apply safe_Bear__init__; intros r Hr; injection Hr as <-; assumption. }
    intros cub. cbn beta.
    eapply safe_bind; [apply IH; mem|]. intros rest. cbn beta.
    apply safe_ret. intros m. apply knows_weaken; incl.
Qed.

Lemma knows_cubs_valid (cs V F : list ref) (m : Model) :
  knows (cs ++ V) F m -> Forall (fun c => (c < length (heap m))%nat) cs.
Proof.
  intros (_ & H & _). apply Forall_app in H. tauto.
Qed.

Lemma safe_give_birth (V F : list ref) (self father : ref) :
  self ∈ V -> father ∈ V -> self ∈ F ->
  safe (knows V F) (give_birth self father) (fun _ => knows V F).
Proof.
  intros Hs Hf HsF. unfold give_birth.
  apply (safe_get_bear _ V F); [auto|assumption|].
  intros sb [[[_ Hcub] _] _] _. first_of_pre.
  bind_same; [now apply safe_rg_integers|].
  seq_same.
  { apply safe_modify_neutral; [assumption| |reflexivity].
    intros n b. apply bear_wf_set_energy. }
  eapply safe_bind; [now apply safe_make_cubs|]. intros new_cubs. cbn beta.
  seq_same.
  { apply safe_modify_bear; [mem|]. intros m b K Hb.
    split; [|reflexivity]. apply bear_wf_set_cubs.
    - eapply knows_cubs_valid; eauto.
    - exact (proj1 (knows_lookup _ _ m self b K Hb)). }
  match goal with |- safe (knows ?V' ?F') _ _ =>
    apply (safe_get_bear _ V' F'); [auto|mem|] end.
  intros sb' [[_ [_ Hpc]] _] _. first_of_pre.
  bind_same; [now apply safe_rg_integers|].
  seq_same.
  { apply safe_modify_neutral; [mem| |reflexivity].
    intros n b. apply bear_wf_set_countdown. }
  apply safe_weaken; [incl|incl|].
  apply safe_for_each. intros cub Hcub'.
  seq_same; [apply safe_schedule_add_bear; mem|].
  apply safe_bond_with_cub; mem.
Qed.

Lemma filtered_bears_valid (V F : list ref) (self : ref) (m : Model) :
  knows V F m -> knows (filtered_bears self m ++ V) F m.
Proof.
  intros ((H1 & H1') & H2 & H3). split; [split; assumption|].
  split; [|assumption]. apply Forall_app. split; [|assumption].
  rewrite Forall_forall in H1' |- *. intros r Hr. apply H1'.
  eapply elem_of_sublist; [exact Hr | apply filter_sublist].
Qed.

Lemma safe_encounter (V F : list ref) (self : ref) :
  self ∈ V -> safe (knows V F) (encounter self) (fun _ => knows V F).
Proof.
  intros Hs. unfold encounter.
  apply safe_get_model. intros x.
  set (candidates := filtered_bears self x).
  apply (safe_pre _ (knows (candidates ++ V) F)).
  { intros m [K ->]. now apply filtered_bears_valid. }
  destruct (0 <? length candidates)%nat eqn:Hlen;
    [|apply safe_ret; intros m; apply knows_weaken; incl].
  eapply safe_bind.
  { apply safe_random_choice. intros E. rewrite E in Hlen. discriminate. }
  intros other. cbn beta.
  apply (safe_pure _ (other ∈ candidates)); [intros m [_ H]; exact H|].
  intros Ho. first_of_pre.
  match goal with |- safe (knows ?V' ?F') _ _ =>
    apply (safe_get_bear _ V' F'); [auto|mem|] end.
  intros sb _ _. second_of_pre.
  match goal with |- safe (knows ?V' ?F') _ _ =>
    apply (safe_get_bear _ V' F'); [auto|mem|] end.
  intros ob _ _. second_of_pre.
  apply safe_weaken; [incl|incl|].
  destruct (Season_eqb (season x) mating
            && negb (Bool.eqb (is_female ob) (is_female sb))) eqn:Hmate.
  - apply andb_prop in Hmate as [_ Hsex].
    destruct (is_female sb) eqn:Hfs.
    + bind_same; [apply safe_attempt_to_mate; mem|].
      match goal with |- safe _ (if ?d then _ else _) _ => destruct d end;
        [|apply safe_ret; auto].
      apply safe_give_birth; mem.
    + assert (is_female ob = true) as Hfo
          by (destruct (is_female ob); [reflexivity|discriminate]).
      rewrite Hfo.
      bind_same; [apply safe_attempt_to_mate; mem|].
      match goal with |- safe _ (if ?d then _ else _) _ => destruct d end;
        [|apply safe_ret; auto].
      apply safe_give_birth; mem.
  - destruct (Behavior_eqb (behavior sb) aggressive);
      [|apply safe_ret; auto].
    apply safe_attack; mem.
Qed.

Lemma safe_encounter_loop (n : nat) (V F : list ref) (self : ref) :
  self ∈ V ->
  safe (knows V F) (encounter_loop n self) (fun _ => knows V F).
Proof.
  intros Hs. induction n as [|k IH]; cbn [encounter_loop].
  - apply safe_ret. auto.
  - seq_same; [now apply safe_encounter | exact IH].
Qed.

Lemma safe_generate_encounters (V F : list ref) (self : ref) :
  self ∈ V ->
  safe (fun m => knows V F m
                 /\ (is_under_parental_care <$> heap m !! self) = Some false)
    (generate_encounters self) (fun _ => knows V F).
Proof.
  intros Hs. unfold generate_encounters.
  apply (safe_get_bear _ V F); [tauto|assumption|]. intros sb _ _.
  apply (safe_pure _ (is_under_parental_care sb = false)).
  { intros m ((_ & Hu) & _ & Hb). rewrite Hb in Hu. cbn in Hu. congruence. }
  intros ->. cbn [negb assert].
  apply (safe_pre _ (knows V F)); [tauto|].
  seq_same; [apply safe_ret; auto|].
  apply safe_get_model. intros x.
  apply (safe_pure _ (0 <= encounter_rate (params x) <= poisson_lam_max)%Q).
  { intros m [((_ & _ & Hrate) & _) ->]. exact Hrate. }
  intros Hrate. first_of_pre.
  destruct (_ && _); [apply safe_ret; auto|].
  bind_same; [now apply safe_np_random_poisson|].
  now apply safe_encounter_loop.
Qed.

Lemma safe_care_for_cubs (V F : list ref) (self : ref) :
  self ∈ V -> safe (knows V F) (care_for_cubs self) (fun _ => knows V F).
Proof.
  intros Hs. unfold care_for_cubs.
  apply (safe_get_bear _ V F); [auto|assumption|]. intros sb _ Hcare.
  second_of_pre. apply safe_weaken; [incl|incl|].
  destruct (does_care_after_cubs sb) eqn:Hc; cbn [andb];
    [|apply safe_ret; auto].
  rewrite (Hcare eq_refl).
  destruct (parental_care_countdown sb <=? 0).
  - apply safe_for_each. intros c Hcub. apply safe_chase_cub_away; mem.
  - apply safe_modify_neutral; [mem| |reflexivity].
    intros n b. apply bear_wf_set_countdown.
Qed.

Lemma safe_Bear_step (V F : list ref) (self : ref) :
  self ∈ V -> safe (knows V F) (Bear_step self) (fun _ => knows V F).
Proof.
  intros Hs. unfold Bear_step.
  seq_same.
  { apply safe_modify_neutral; [assumption| |reflexivity].
    intros n b. apply bear_wf_set_energy. }
  intros m K. rewrite get_sheep_run. revert m K.
  generalize dependent V. intros V Hs m K.
  set (sheep := schedule_sheep m). clearbody sheep. revert m K.
  change (safe (knows V F)
            (do (if (0 <? length sheep)%nat then
                   let* sheep_to_eat := random_choice sheep in
                   let* sb := get_bear self in
                   if is_under_parental_care sb
                   then hunt self sheep_to_eat (mother sb)
                   else hunt self sheep_to_eat None
                 else ret tt) then
             do care_for_cubs self then
             let* sb := get_bear self in
             do (if negb (is_under_parental_care sb)
                 then generate_encounters self else ret tt) then
             let* sb := get_bear self in
             if Qltb (energy sb) 0 then Bear_die self else ret tt)
            (fun _ => knows V F)).
  seq_same.
  { destruct (0 <? length sheep)%nat eqn:Hlen; [|apply safe_ret; auto].
    apply (safe_bind _ (fun _ => knows V F)).
    { eapply safe_post.
      - apply safe_random_choice. intros E. rewrite E in Hlen. discriminate.
      - intros ? m [K _]. exact K. }
    intros sheep_to_eat.
    apply (safe_get_bear _ V F); [auto|assumption|]. intros sb _ _.
    second_of_pre. apply safe_weaken; [incl|incl|].
    destruct (is_under_parental_care sb).
    - apply safe_hunt; [mem|]. intros a Ha. rewrite Ha. cbn. mem.
    - apply safe_hunt; [mem|]. intros a Ha. discriminate. }
  seq_same; [now apply safe_care_for_cubs|].
  apply (safe_get_bear _ V F); [auto|assumption|]. intros sb _ _.
  apply (safe_seq _ (knows V F)).
  { destruct (is_under_parental_care sb) eqn:Hu; cbn [negb].
    - apply safe_ret. tauto.
    - eapply safe_pre; [|now apply safe_generate_encounters].
      intros m (K & _ & Hb). split; [exact K|]. rewrite Hb. cbn.
      now rewrite Hu. }
  apply (safe_get_bear _ V F); [auto|assumption|]. intros sb' _ _.
  first_of_pre.
  destruct (Qltb _ _); [now apply safe_Bear_die | apply safe_ret; auto].
Qed.

Lemma bear_wf_founder n uid beh range b :
  founder uid beh range b -> bear_wf n b.
Proof.
  intros (e & u & _ & ->). split; [apply limits_ok_founder|].
  unfold new_bear. destruct (init_limits beh None) as [[[? ?] ?] ?]. cbn.
  split; [lia|]. split; [discriminate|]. split; [constructor|discriminate].
Qed.

Lemma init_encounter_rate (args : Params) (ns nc na : nat) (g : Rng) :
  encounter_rate (params (snd (BearSheepPredation__init__ args ns nc na g)))
  = encounter_rate args.
Proof.
  unfold BearSheepPredation__init__.
  match goal with |- context [mkModel ?p normal 0 [] [] [] g []] =>
    set (p0 := p); set (m0 := mkModel p0 normal 0 [] [] [] g []) end.
  match goal with |- encounter_rate (params ?m) = _ =>
    cut (params m = p0); [intros ->; reflexivity|] end.
  rewrite (bind_run _ _ _ _ _ (create_sheep_run ns 1 m0)). cbn beta.
  match goal with |- params (snd (?c ?m1)) = p0 =>
    cut ((fun m => params m = p0) m1);
      [apply (leads_bind_same (fun m => params m = p0))|reflexivity] end.
  - apply registry_create_bears; intros ? m H; exact H.
  - intros u2. apply leads_bind_same.
    + apply registry_create_bears; intros ? m H; exact H.
    + intros u3 m H. exact H.
Qed.

Lemma init_wf (args : Params) (ns nc na : nat) (g : Rng) :
  0 < bear_gain_from_food args ->
  (0 <= encounter_rate args <= poisson_lam_max)%Q ->
  wf (snd (BearSheepPredation__init__ args ns nc na g)).
Proof.
  intros Hgain Hrate.
  destruct (constructor_run args ns nc na g Hgain)
    as (_ & _ & _ & _ & Hlen & Hsched & _ & Hall).
  pose proof (init_encounter_rate args ns nc na g) as Hp.
  set (m := snd (BearSheepPredation__init__ args ns nc na g)) in *.
  split; [|split].
  - apply Forall_lookup. intros i b Hb. specialize (Hall i b Hb).
    destruct (i <? nc)%nat; eapply bear_wf_founder; exact Hall.
  - rewrite Hsched, Hlen. apply Forall_forall. intros r Hr.
    apply elem_of_seq in Hr. lia.
  - now rewrite Hp.
Qed.

Lemma Sheep_step_same_bears (s : Z) (m : Model) :
  heap (snd (Sheep_step s m)) = heap m
  /\ schedule_bears (snd (Sheep_step s m)) = schedule_bears m
  /\ params (snd (Sheep_step s m)) = params m.
Proof.
  unfold Sheep_step. rewrite get_model_run, next_real_run.
  destruct (Qltb _ _); [|repeat split; reflexivity].
  rewrite get_sheep_run. destruct (_ <? _); repeat split; reflexivity.
Qed.

Lemma wf_knows (m : Model) (r : ref) :
  wf m -> r ∈ schedule_bears m -> knows [r] [] m.
Proof.
  intros H Hr. split; [exact H|]. split; [|constructor].
  apply Forall_singleton. destruct H as (_ & H & _).
  rewrite Forall_forall in H. now apply H.
Qed.

Lemma run_from_wf (m0 m : Model) : wf m0 -> run_from m0 m -> wf m.
Proof.
  intros H0. induction 1 as [|m s _ IH|m s _ IH|m r _ IH Hr Hok].
  - exact H0.
  - exact IH.
  - destruct (Sheep_step_same_bears s m) as (Hh & Hs & Hp).
    unfold wf. now rewrite Hh, Hs, Hp.
  - pose proof (safe_Bear_step [r] [] r ltac:(apply list_elem_of_here) m
                  (wf_knows m r IH Hr)) as H.
    destruct (Bear_step r m) as [[[]|e] m']; [|discriminate].
    exact (proj1 H).
Qed.

(** X17.  The errors of a step.  In a run that starts from a constructor
    with a positive [bear_gain_from_food] and an [encounter_rate] that
    [np.random.poisson] accepts, the step of a registered bear returns or
    raises the error of the scheduler (the removal of a bear that is not
    registered any more); it raises no [AssertionError], no [ValueError],
    no [IndexError], and follows no reference to a missing object: every
    assertion holds, every interval and every scale is as the generator
    needs it and every list to choose from has an element, whenever the
    step reaches them. *)
Theorem bear_step_fails_in_the_scheduler_only (args : Params)
    (ns nc na : nat) (g : Rng) (m : Model) (r : ref) :
  0 < bear_gain_from_food args ->
  (0 <= encounter_rate args <= poisson_lam_max)%Q ->
  run_from (snd (BearSheepPredation__init__ args ns nc na g)) m ->
  r ∈ schedule_bears m ->
  fst (Bear_step r m) = Ok tt \/ fst (Bear_step r m) = Raise SchedulerError.
Proof.
  intros Hgain Hrate Hrun Hr.
  pose proof (run_from_wf _ m (init_wf args ns nc na g Hgain Hrate) Hrun)
    as Hwf.
  pose proof (safe_Bear_step [r] [] r ltac:(apply list_elem_of_here) m
                (wf_knows m r Hwf Hr)) as H.
  destruct (Bear_step r m) as [[[]|e] m']; cbn.
  - now left.
  - right. now rewrite H.
Qed.

(** The step of [busy_start] hunts, meets the other bear, mates and gives
    birth to two cubs, which are bonded and registered. *)
Lemma busy_step_gives_birth :
  fst (Bear_step 0%nat busy_start) = Ok tt
  /\ schedule_bears (snd (Bear_step 0%nat busy_start))
     = [0%nat; 1%nat; 2%nat; 3%nat]
  /\ (cubs <$> heap (snd (Bear_step 0%nat busy_start)) !! 0%nat)
     = Some [2%nat; 3%nat]
  /\ (is_under_parental_care
        <$> heap (snd (Bear_step 0%nat busy_start)) !! 3%nat)
     = Some true.
Proof. vm_compute. repeat split; reflexivity. Qed.

Lemma busy_start_schedule : schedule_bears busy_start = [0%nat; 1%nat].
Proof. vm_compute. reflexivity. Qed.

Lemma bear_step_fails_in_the_scheduler_only_witness :
  fst (Bear_step 0%nat busy_start) = Ok tt
  \/ fst (Bear_step 0%nat busy_start) = Raise SchedulerError.
Proof.
  refine (bear_step_fails_in_the_scheduler_only default_params 1 0 2 busy
            busy_start 0%nat _ _ (run_season _ _ mating (run_start _)) _).
  - cbn. lia.
  - split; discriminate.
  - rewrite busy_start_schedule. apply list_elem_of_here.
Defined.
